(** * ArcadeShooter: the simulation core of [src/components/ArcadeShooter.tsx]

    A shallow embedding of the game state, the wave generator, the collision
    test and the frame loop, followed by the properties of the specification.

    Numbers.  Every TypeScript [number] that carries a position, a size, a
    speed or a fading value is a rational ([Q]).  The counters that only
    ever receive integer operations ([score], [lives], [level], [health],
    [type], [direction], [transitionTimer], timestamps) are integers ([Z]).

    The frame is embedded twice.  The first embedding computes in exact
    arithmetic.  That is what the program does wherever it computes with
    integers; the speed and the [x] of an enemy, [hitFlash] and [alpha] are
    rounded by the program at every operation.  The second embedding
    ([The frame in double precision]) is the same code with these
    operations rounded to the nearest double; what depends on how the
    rounding errors of a run add up is stated and proved there.

    Drawing on the canvas and the React display mirror ([setDisplayState])
    never feed back into the simulation and are left out. *)

From Stdlib Require Import String.
From Stdlib Require Import ZArith QArith Qabs Qround Qminmax Lqa Lia.
From Stdlib Require Import List Bool.
Import ListNotations.

Local Open Scope Z_scope.
Local Open Scope Q_scope.

(** ** Comparisons of numbers as booleans *)

Definition Qleb (a b : Q) : bool := Qle_bool a b.
Definition Qltb (a b : Q) : bool := negb (Qle_bool b a).
Definition Qgtb (a b : Q) : bool := Qltb b a.
Definition Qgeb (a b : Q) : bool := Qleb b a.

(** ** Game constants *)

Definition CANVAS_WIDTH : Q := 600.
Definition CANVAS_HEIGHT : Q := 700.
Definition PLAYER_WIDTH : Q := 40.
Definition PLAYER_HEIGHT : Q := 30.
Definition PLAYER_SPEED : Q := 8.
Definition BULLET_SPEED : Q := 12.
Definition BULLET_WIDTH : Q := 4.
Definition BULLET_HEIGHT : Q := 12.
Definition ENEMY_WIDTH : Q := 36.
Definition ENEMY_HEIGHT : Q := 28.
Definition SHOOT_COOLDOWN : Z := 150.
Definition INITIAL_LIVES : Z := 3.

(** ** Types *)

Record Entity : Type := mkEntity {
  x : Q;
  y : Q;
  width : Q;
  height : Q
}.

Record Bullet : Type := mkBullet {
  bulletBox :> Entity;
  bulletActive : bool
}.

(** [Omit<Enemy, 'active' | 'hitFlash'>], what [generateWave] returns. *)
Record EnemySpec : Type := mkEnemySpec {
  specBox :> Entity;
  type : Z;
  health : Z;
  speed : Q;
  direction : Z
}.

Record Enemy : Type := mkEnemy {
  enemySpec :> EnemySpec;
  active : bool;
  hitFlash : Q
}.

Record Explosion : Type := mkExplosion {
  ex : Q;
  ey : Q;
  radius : Q;
  maxRadius : Q;
  alpha : Q;
  color : string
}.

Record GameState : Type := mkGameState {
  player : Entity;
  bullets : list Bullet;
  enemies : list Enemy;
  explosions : list Explosion;
  score : Z;
  lives : Z;
  level : Z;
  gameOver : bool;
  levelComplete : bool;
  levelTransition : bool;
  transitionTimer : Z;
  paused : bool;
  started : bool
}.

(** ** Wave patterns for each level *)

Definition baseEnemies (level : Z) : Z :=
  (4 + Qfloor (inject_Z level * 1.5))%Z.

Definition waveRows (level : Z) : Z :=
  Z.min (2 + Qfloor (inject_Z level / 3)) 4.

Definition waveCols (level : Z) : Z :=
  Qceiling (inject_Z (baseEnemies level) / inject_Z (waveRows level)).

Definition spacing : Q := 60.

Definition startX (level : Z) : Q :=
  (CANVAS_WIDTH - (inject_Z (waveCols level) - 1) * spacing) / 2.

Definition startY : Q := 60.

(** The object pushed for grid cell ([row], [col]). *)
Definition waveEnemy (level row col : Z) : EnemySpec :=
  mkEnemySpec
    (mkEntity (startX level + inject_Z col * spacing)
              (startY + inject_Z row * 50)
              ENEMY_WIDTH ENEMY_HEIGHT)
    (Z.rem row 3)
    (1 + Qfloor (inject_Z level / 4))
    (1 + inject_Z level * 0.15)
    1.

(** [for (let col = ...; col < cols; col++)], with [n] the iterations left;
    the [break] leaves this loop only. *)
Fixpoint forCols (n : nat) (level row col : Z) (acc : list EnemySpec)
  : list EnemySpec :=
  match n with
  | O => acc
  | S n' =>
      if (Z.of_nat (length acc) >=? baseEnemies level)%Z then acc
      else forCols n' level row (col + 1)%Z (acc ++ [waveEnemy level row col])
  end.

(** [for (let row = ...; row < rows; row++)], with [n] the iterations left. *)
Fixpoint forRows (n : nat) (level row : Z) (acc : list EnemySpec)
  : list EnemySpec :=
  match n with
  | O => acc
  | S n' =>
      forRows n' level (row + 1)%Z
        (forCols (Z.to_nat (waveCols level)) level row 0%Z acc)
  end.

Definition generateWave (level : Z) : list EnemySpec :=
  forRows (Z.to_nat (waveRows level)) level 0%Z [].

(** ** Collision detection *)

Definition checkCollision (a b : Entity) : bool :=
  Qltb (x a) (x b + width b) &&
  Qgtb (x a + width a) (x b) &&
  Qltb (y a) (y b + height b) &&
  Qgtb (y a + height a) (y b).

(** ** Field updates of the mutable objects *)

Definition setX (v : Q) (a : Entity) : Entity :=
  mkEntity v (y a) (width a) (height a).

Definition setY (v : Q) (a : Entity) : Entity :=
  mkEntity (x a) v (width a) (height a).

Definition setBulletBox (a : Entity) (b : Bullet) : Bullet :=
  mkBullet a (bulletActive b).

Definition setBulletActive (v : bool) (b : Bullet) : Bullet :=
  mkBullet (bulletBox b) v.

Definition setEnemyBox (a : Entity) (e : Enemy) : Enemy :=
  mkEnemy (mkEnemySpec a (type e) (health e) (speed e) (direction e))
          (active e) (hitFlash e).

Definition setHealth (v : Z) (e : Enemy) : Enemy :=
  mkEnemy (mkEnemySpec (specBox e) (type e) v (speed e) (direction e))
          (active e) (hitFlash e).

Definition setDirection (v : Z) (e : Enemy) : Enemy :=
  mkEnemy (mkEnemySpec (specBox e) (type e) (health e) (speed e) v)
          (active e) (hitFlash e).

Definition setActive (v : bool) (e : Enemy) : Enemy :=
  mkEnemy (enemySpec e) v (hitFlash e).

Definition setHitFlash (v : Q) (e : Enemy) : Enemy :=
  mkEnemy (enemySpec e) (active e) v.

Definition setPlayer (v : Entity) (s : GameState) : GameState :=
  mkGameState v (bullets s) (enemies s) (explosions s) (score s) (lives s)
    (level s) (gameOver s) (levelComplete s) (levelTransition s)
    (transitionTimer s) (paused s) (started s).

Definition setBullets (v : list Bullet) (s : GameState) : GameState :=
  mkGameState (player s) v (enemies s) (explosions s) (score s) (lives s)
    (level s) (gameOver s) (levelComplete s) (levelTransition s)
    (transitionTimer s) (paused s) (started s).

Definition setEnemies (v : list Enemy) (s : GameState) : GameState :=
  mkGameState (player s) (bullets s) v (explosions s) (score s) (lives s)
    (level s) (gameOver s) (levelComplete s) (levelTransition s)
    (transitionTimer s) (paused s) (started s).

Definition setExplosions (v : list Explosion) (s : GameState) : GameState :=
  mkGameState (player s) (bullets s) (enemies s) v (score s) (lives s)
    (level s) (gameOver s) (levelComplete s) (levelTransition s)
    (transitionTimer s) (paused s) (started s).

Definition setScore (v : Z) (s : GameState) : GameState :=
  mkGameState (player s) (bullets s) (enemies s) (explosions s) v (lives s)
    (level s) (gameOver s) (levelComplete s) (levelTransition s)
    (transitionTimer s) (paused s) (started s).

Definition setLives (v : Z) (s : GameState) : GameState :=
  mkGameState (player s) (bullets s) (enemies s) (explosions s) (score s) v
    (level s) (gameOver s) (levelComplete s) (levelTransition s)
    (transitionTimer s) (paused s) (started s).

Definition setLevel (v : Z) (s : GameState) : GameState :=
  mkGameState (player s) (bullets s) (enemies s) (explosions s) (score s)
    (lives s) v (gameOver s) (levelComplete s) (levelTransition s)
    (transitionTimer s) (paused s) (started s).

Definition setGameOver (v : bool) (s : GameState) : GameState :=
  mkGameState (player s) (bullets s) (enemies s) (explosions s) (score s)
    (lives s) (level s) v (levelComplete s) (levelTransition s)
    (transitionTimer s) (paused s) (started s).

Definition setLevelComplete (v : bool) (s : GameState) : GameState :=
  mkGameState (player s) (bullets s) (enemies s) (explosions s) (score s)
    (lives s) (level s) (gameOver s) v (levelTransition s)
    (transitionTimer s) (paused s) (started s).

Definition setLevelTransition (v : bool) (s : GameState) : GameState :=
  mkGameState (player s) (bullets s) (enemies s) (explosions s) (score s)
    (lives s) (level s) (gameOver s) (levelComplete s) v
    (transitionTimer s) (paused s) (started s).

Definition setTransitionTimer (v : Z) (s : GameState) : GameState :=
  mkGameState (player s) (bullets s) (enemies s) (explosions s) (score s)
    (lives s) (level s) (gameOver s) (levelComplete s) (levelTransition s)
    v (paused s) (started s).

Definition setStarted (v : bool) (s : GameState) : GameState :=
  mkGameState (player s) (bullets s) (enemies s) (explosions s) (score s)
    (lives s) (level s) (gameOver s) (levelComplete s) (levelTransition s)
    (transitionTimer s) (paused s) v.

(** ** The component's mutable references *)

(** [keysRef] is a [Set<string>]: a list without repetitions. *)
Definition has (k : string) (ks : list string) : bool :=
  existsb (String.eqb k) ks.

Definition add (k : string) (ks : list string) : list string :=
  if has k ks then ks else ks ++ [k].

Definition delete (k : string) (ks : list string) : list string :=
  filter (fun k' => negb (String.eqb k k')) ks.

Record World : Type := mkWorld {
  gameStateRef : GameState;
  keysRef : list string;
  lastShootRef : Z
}.

Definition initialGameState : GameState :=
  mkGameState
    (mkEntity (CANVAS_WIDTH / 2 - PLAYER_WIDTH / 2)
              (CANVAS_HEIGHT - PLAYER_HEIGHT - 20)
              PLAYER_WIDTH PLAYER_HEIGHT)
    [] [] [] 0%Z INITIAL_LIVES 1%Z false false false 0%Z false false.

Definition initialWorld : World := mkWorld initialGameState [] 0%Z.

(** ** Initialize wave *)

(** [{ ...e, active: true, hitFlash: 0 }] *)
Definition freshEnemy (e : EnemySpec) : Enemy := mkEnemy e true 0.

Definition initWave (lvl : Z) (s : GameState) : GameState :=
  let waveData := generateWave lvl in
  let s := setEnemies (map freshEnemy waveData) s in
  let s := setLevelComplete false s in
  setLevelTransition false s.

(** ** Reset game *)

Definition resetGame (s : GameState) : GameState :=
  let s := setPlayer (setX (CANVAS_WIDTH / 2 - PLAYER_WIDTH / 2) (player s)) s in
  let s := setBullets [] s in
  let s := setExplosions [] s in
  let s := setScore 0%Z s in
  let s := setLives INITIAL_LIVES s in
  let s := setLevel 1%Z s in
  let s := setGameOver false s in
  let s := setLevelComplete false s in
  let s := setLevelTransition false s in
  let s := setStarted true s in
  initWave 1%Z s.

(** ** Spawn explosion *)

Definition spawnExplosion (px py size : Q) (col : string)
    (exps : list Explosion) : list Explosion :=
  exps ++ [mkExplosion px py 5 size 1 col].

(** ** Game loop *)

Inductive Mode : Type := NotStarted | Playing | LevelTransition | GameOver.

(** The branch [gameLoop] takes, in the order it tests the flags. *)
Definition modeOf (s : GameState) : Mode :=
  if negb (started s) then NotStarted
  else if gameOver s then GameOver
  else if levelTransition s then LevelTransition
  else Playing.

(** *** Handle input *)

Definition moveLeft (s : GameState) : GameState :=
  setPlayer (setX (Qmax 10 (x (player s) - PLAYER_SPEED)) (player s)) s.

Definition moveRight (s : GameState) : GameState :=
  setPlayer
    (setX (Qmin (CANVAS_WIDTH - PLAYER_WIDTH - 10)
                (x (player s) + PLAYER_SPEED)) (player s)) s.

Definition leftHeld (ks : list string) : bool :=
  has "ArrowLeft"%string ks || has "a"%string ks.

Definition rightHeld (ks : list string) : bool :=
  has "ArrowRight"%string ks || has "d"%string ks.

Definition movePlayer (ks : list string) (s : GameState) : GameState :=
  let s := if leftHeld ks then moveLeft s else s in
  if rightHeld ks then moveRight s else s.

Definition shoot (s : GameState) : GameState :=
  setBullets
    (bullets s ++
     [mkBullet
        (mkEntity (x (player s) + PLAYER_WIDTH / 2 - BULLET_WIDTH / 2)
                  (y (player s)) BULLET_WIDTH BULLET_HEIGHT)
        true]) s.

Definition handleInput (now : Z) (w : World) : World :=
  let s := movePlayer (keysRef w) (gameStateRef w) in
  if has " "%string (keysRef w) && (now - lastShootRef w >? SHOOT_COOLDOWN)%Z
  then mkWorld (shoot s) (keysRef w) now
  else mkWorld s (keysRef w) (lastShootRef w).

(** *** Update bullets *)

Definition moveBullet (b : Bullet) : Bullet :=
  setBulletBox (setY (y b - BULLET_SPEED) b) b.

Definition updateBullets (s : GameState) : GameState :=
  setBullets
    (filter (fun b : Bullet => Qgtb (y b) (- BULLET_HEIGHT) && bulletActive b)
            (map moveBullet (bullets s))) s.

(** *** Update enemies *)

Definition touchesEdge (e : Enemy) : bool :=
  Qleb (x e) 10 || Qgeb (x e) (CANVAS_WIDTH - ENEMY_WIDTH - 10).

(** Body of the first [forEach]: the enemy after it, and [hitEdge]. *)
Definition advanceEnemy (e : Enemy) (hitEdge : bool) : Enemy * bool :=
  if negb (active e) then (e, hitEdge)
  else
    let e := setEnemyBox (setX (x e + speed e * inject_Z (direction e)) e) e in
    let e := if Qgtb (hitFlash e) 0 then setHitFlash (hitFlash e - 0.1) e
             else e in
    (e, if touchesEdge e then true else hitEdge).

Fixpoint advanceEnemies (es : list Enemy) (hitEdge : bool)
  : list Enemy * bool :=
  match es with
  | [] => ([], hitEdge)
  | e :: rest =>
      let (e', h) := advanceEnemy e hitEdge in
      let (rest', h') := advanceEnemies rest h in
      (e' :: rest', h')
  end.

(** Body of the second [forEach]. *)
Definition bounceEnemy (e : Enemy) : Enemy :=
  if active e then
    let e := setDirection (direction e * -1)%Z e in
    setEnemyBox (setY (y e + 20) e) e
  else e.

Definition updateEnemies (s : GameState) : GameState :=
  let (es, hitEdge) := advanceEnemies (enemies s) false in
  if hitEdge then setEnemies (map bounceEnemy es) s
  else setEnemies es s.

(** *** Bullet-enemy collision *)

(** What the two nested loops read and write besides the enemy at hand. *)
Record HitState : Type := mkHitState {
  hsBullet : Bullet;
  hsScore : Z;
  hsExplosions : list Explosion
}.

(** Body of the inner [forEach]. *)
Definition hitEnemy (lvl : Z) (e : Enemy) (h : HitState) : Enemy * HitState :=
  if negb (active e) then (e, h)
  else if checkCollision (hsBullet h) e then
    let b := setBulletActive false (hsBullet h) in
    let e := setHealth (health e - 1)%Z e in
    let e := setHitFlash 1 e in
    if (health e <=? 0)%Z then
      (setActive false e,
       mkHitState b (hsScore h + 100 * lvl)%Z
         (spawnExplosion (x e + ENEMY_WIDTH / 2) (y e + ENEMY_HEIGHT / 2) 35
            "#ff00ff"%string (hsExplosions h)))
    else
      (e,
       mkHitState b (hsScore h)
         (spawnExplosion (x b) (y b) 15 "#ffff00"%string (hsExplosions h)))
  else (e, h).

Fixpoint hitEnemies (lvl : Z) (es : list Enemy) (h : HitState)
  : list Enemy * HitState :=
  match es with
  | [] => ([], h)
  | e :: rest =>
      let (e', h1) := hitEnemy lvl e h in
      let (rest', h2) := hitEnemies lvl rest h1 in
      (e' :: rest', h2)
  end.

(** The outer [forEach]: the bullets after it and the state they changed. *)
Fixpoint hitBullets (bs : list Bullet) (s : GameState)
  : list Bullet * GameState :=
  match bs with
  | [] => ([], s)
  | b :: rest =>
      if negb (bulletActive b) then
        let (rest', s') := hitBullets rest s in (b :: rest', s')
      else
        let (es, h) :=
          hitEnemies (level s) (enemies s)
            (mkHitState b (score s) (explosions s)) in
        let s1 :=
          setExplosions (hsExplosions h)
            (setScore (hsScore h) (setEnemies es s)) in
        let (rest', s') := hitBullets rest s1 in
        (hsBullet h :: rest', s')
  end.

Definition bulletEnemyCollision (s : GameState) : GameState :=
  let (bs, s') := hitBullets (bullets s) s in
  setBullets bs s'.

(** *** Player-enemy collision *)

Record CrashState : Type := mkCrashState {
  csLives : Z;
  csGameOver : bool;
  csExplosions : list Explosion
}.

(** Body of the [forEach]. *)
Definition crashEnemy (p : Entity) (e : Enemy) (c : CrashState)
  : Enemy * CrashState :=
  if negb (active e) then (e, c)
  else if checkCollision p e || Qgtb (y e) (CANVAS_HEIGHT - 100) then
    let e := if Qgtb (y e) (CANVAS_HEIGHT - 100) then setActive false e
             else e in
    if checkCollision p e then
      let l := (csLives c - 1)%Z in
      (setActive false e,
       mkCrashState l
         (if (l <=? 0)%Z then true else csGameOver c)
         (spawnExplosion (x p + PLAYER_WIDTH / 2) (y p + PLAYER_HEIGHT / 2) 50
            "#ff0044"%string (csExplosions c)))
    else (e, c)
  else (e, c).

Fixpoint crashEnemies (p : Entity) (es : list Enemy) (c : CrashState)
  : list Enemy * CrashState :=
  match es with
  | [] => ([], c)
  | e :: rest =>
      let (e', c1) := crashEnemy p e c in
      let (rest', c2) := crashEnemies p rest c1 in
      (e' :: rest', c2)
  end.

Definition playerEnemyCollision (s : GameState) : GameState :=
  let (es, c) :=
    crashEnemies (player s) (enemies s)
      (mkCrashState (lives s) (gameOver s) (explosions s)) in
  setExplosions (csExplosions c)
    (setGameOver (csGameOver c) (setLives (csLives c) (setEnemies es s))).

(** *** Check wave complete *)

Definition activeEnemies (s : GameState) : nat :=
  length (filter active (enemies s)).

Definition checkWaveComplete (s : GameState) : GameState :=
  if Nat.eqb (activeEnemies s) 0 && negb (levelComplete s)
     && negb (levelTransition s)
  then setTransitionTimer 2000%Z
         (setLevelTransition true (setLevelComplete true s))
  else s.

(** *** Update explosions *)

Definition growExplosion (e : Explosion) : Explosion :=
  mkExplosion (ex e) (ey e) (radius e + 2) (maxRadius e) (alpha e - 0.04)
    (color e).

Definition updateExplosions (s : GameState) : GameState :=
  setExplosions
    (filter (fun e => Qgtb (alpha e) 0) (map growExplosion (explosions s))) s.

(** *** One frame *)

Definition levelTransitionFrame (s : GameState) : GameState :=
  let s := setTransitionTimer (transitionTimer s - 16)%Z s in
  if (transitionTimer s <=? 0)%Z then
    let s := setLevel (level s + 1)%Z s in
    initWave (level s) s
  else s.

(** The simulation steps that follow the input step when playing. *)
Definition simulate (s : GameState) : GameState :=
  updateExplosions
    (checkWaveComplete
       (playerEnemyCollision
          (bulletEnemyCollision (updateEnemies (updateBullets s))))).

Definition playingFrame (now : Z) (w : World) : World :=
  let w := handleInput now w in
  mkWorld (simulate (gameStateRef w)) (keysRef w) (lastShootRef w).

Definition gameLoop (now : Z) (w : World) : World :=
  let s := gameStateRef w in
  if negb (started s) then w
  else if gameOver s then w
  else if levelTransition s then
    mkWorld (levelTransitionFrame s) (keysRef w) (lastShootRef w)
  else playingFrame now w.

(** ** Keyboard handlers *)

Definition handleKeyDown (key : string) (w : World) : World :=
  let ks := add key (keysRef w) in
  let s := gameStateRef w in
  let s := if String.eqb key " " && negb (started s) then resetGame s
           else s in
  let s := if String.eqb key "r" && gameOver s then resetGame s else s in
  mkWorld s ks (lastShootRef w).

Definition handleKeyUp (key : string) (w : World) : World :=
  mkWorld (gameStateRef w) (delete key (keysRef w)) (lastShootRef w).

(** ** Runs of the component *)

Inductive Event : Type :=
| KeyDown (key : string)
| KeyUp (key : string)
| Frame (now : Z).

Definition step (w : World) (ev : Event) : World :=
  match ev with
  | KeyDown key => handleKeyDown key w
  | KeyUp key => handleKeyUp key w
  | Frame now => gameLoop now w
  end.

Definition run (evs : list Event) (w : World) : World :=
  fold_left step evs w.

(** States the component can be in. *)
Inductive reachable : World -> Prop :=
| reach_init : reachable initialWorld
| reach_step w ev : reachable w -> reachable (step w ev).


(** ** Predicates used by the properties *)

(** The interval the player is kept in. *)
Definition inField (v : Q) : Prop :=
  10 <= v /\ v <= CANVAS_WIDTH - PLAYER_WIDTH - 10.

(** The fields that only the player collision, the wave check and the level
    transition write. *)
Definition sameSession (s s' : GameState) : Prop :=
  player s' = player s /\ lives s' = lives s /\ level s' = level s /\
  gameOver s' = gameOver s /\ levelComplete s' = levelComplete s /\
  levelTransition s' = levelTransition s /\
  transitionTimer s' = transitionTimer s /\ started s' = started s.

(** An enemy after the advance step of a frame (the body of the first
    [forEach] does not read [hitEdge]). *)
Definition movedEnemy (e : Enemy) : Enemy := fst (advanceEnemy e false).

(** Some active enemy of the pool is at the left or the right edge. *)
Definition someActiveAtEdge (es : list Enemy) : Prop :=
  exists e, In e es /\ active e = true /\
            (x e <= 10 \/ CANVAS_WIDTH - ENEMY_WIDTH - 10 <= x e).

(** The [k]-th entry of a grid filled row by row, [waveCols level] to a row. *)
Definition waveCell (level : Z) (k : nat) : EnemySpec :=
  waveEnemy level (Z.of_nat k / waveCols level)
    (Z.of_nat k mod waveCols level).

(** The first [m] entries of that grid. *)
Definition wavePrefix (level : Z) (m : nat) : list EnemySpec :=
  map (waveCell level) (seq 0 m).

(** The state on which the player-enemy loop of a frame runs. *)
Definition beforeCrash (s : GameState) : GameState :=
  bulletEnemyCollision (updateEnemies (updateBullets s)).

(** ** States for the examples *)

(** An enemy of the usual size, of type 0 and speed 1. *)
Definition foe (px py : Q) (hp dir : Z) (act : bool) : Enemy :=
  mkEnemy
    (mkEnemySpec (mkEntity px py ENEMY_WIDTH ENEMY_HEIGHT) 0%Z hp 1 dir)
    act 0.

(** A shot of the usual size. *)
Definition shot (px py : Q) : Bullet :=
  mkBullet (mkEntity px py BULLET_WIDTH BULLET_HEIGHT) true.

(** A level-1 game in progress with the player at the start position. *)
Definition playingWorld (bs : list Bullet) (es : list Enemy) (l : Z) : World :=
  mkWorld
    (mkGameState (player initialGameState) bs es [] 0%Z l 1%Z false false
       false 0%Z false true)
    [] 0%Z.

(** Three enemies on top of the player, who has three lives. *)
Definition crashWorld : World :=
  playingWorld []
    [foe 270 640 1 1 true; foe 280 640 1 1 true; foe 290 640 1 1 true] 3.

(** A game in progress whose pool of enemies is empty. *)
Definition clearedWorld : World := playingWorld [] [] 3.

(** A formation moving left whose first enemy is about to reach the left
    edge; the third enemy was destroyed earlier. *)
Definition edgeState : GameState :=
  gameStateRef
    (playingWorld []
       [foe 10.5 60 1 (-1) true; foe 70.5 60 1 (-1) true;
        foe 130.5 60 1 (-1) false] 3).

(** One shot below two overlapping enemies of health 2. *)
Definition pierceWorld : World :=
  playingWorld [shot 100 122]
    [foe 90 100 2 1 true; foe 95 105 2 1 true] 3.

(** One life left and two enemies on top of the player. *)
Definition lastLifeWorld : World :=
  playingWorld [] [foe 270 640 1 1 true; foe 290 640 1 1 true] 1.

(** An enemy that, if active, is no lower than [bound] and has the usual
    height. *)
Definition above (bound : Q) (e : Enemy) : Prop :=
  active e = true -> y e <= bound /\ height e = ENEMY_HEIGHT.

(** What holds of the session between two events: the player never leaves
    its row, the counters keep their sign, and no active enemy is below the
    breach line [CANVAS_HEIGHT - 100]. *)
Definition sound (s : GameState) : Prop :=
  y (player s) = CANVAS_HEIGHT - PLAYER_HEIGHT - 20 /\
  lives s = INITIAL_LIVES /\ (0 <= score s)%Z /\ (1 <= level s)%Z /\
  Forall (above (CANVAS_HEIGHT - 100)) (enemies s).

(** The player against the left wall. *)
Definition leftEdgeState : GameState :=
  setPlayer (setX 10 (player initialGameState)) initialGameState.

(** ** Predicates for the further properties *)

(** The space key is held and the cooldown has run out at time [now]. *)
Definition fires (now : Z) (w : World) : bool :=
  has " "%string (keysRef w) && (now - lastShootRef w >? SHOOT_COOLDOWN)%Z.

(** Health left in a pool of enemies. *)
Fixpoint totalHealth (es : list Enemy) : Z :=
  match es with
  | [] => 0%Z
  | e :: rest => (health e + totalHealth rest)%Z
  end.

(** How a frame of play may change an enemy: an inactive one not at all; an
    active one may move, lose health and become inactive, and keeps its
    size, speed and type. *)
Definition wears (e e' : Enemy) : Prop :=
  (active e = false -> e' = e) /\
  (active e' = true -> active e = true) /\
  width e' = width e /\ height e' = height e /\
  speed e' = speed e /\ type e' = type e /\
  (health e' <= health e)%Z.

(** The enemy is active and on the player. *)
Definition crashes (p : Entity) (e : Enemy) : bool :=
  active e && checkCollision p e.

(** The enemy is below the breach line. *)
Definition breaches (e : Enemy) : bool :=
  Qgtb (y e) (CANVAS_HEIGHT - 100).

(** The spec is strictly between the two edges that make a wave bounce. *)
Definition clearOfEdges (e : EnemySpec) : bool :=
  Qltb 10 (x e) && Qltb (x e) (CANVAS_WIDTH - ENEMY_WIDTH - 10).

(** An enemy with at most [cap] points of health and, while active, at least
    one. *)
Definition healthy (cap : Z) (e : Enemy) : Prop :=
  (active e = true -> (1 <= health e)%Z) /\ (health e <= cap)%Z.

(** The health the wave generator gives at a level. *)
Definition waveHealth (lvl : Z) : Z := (1 + Qfloor (inject_Z lvl / 4))%Z.

(** A bullet of the usual size, inside the field across, no higher than the
    top margin and no lower than one step above the player. *)
Definition inFlight (b : Bullet) : Prop :=
  width b = BULLET_WIDTH /\ height b = BULLET_HEIGHT /\
  28 <= x b /\ x b + width b <= 572 /\
  - BULLET_HEIGHT < y b /\ y b <= 638.

(** An event that is not a frame later than the cooldown after [t0]. *)
Definition quiet (t0 : Z) (ev : Event) : Prop :=
  match ev with
  | Frame now => (now - t0 <= SHOOT_COOLDOWN)%Z
  | _ => True
  end.

(** What the two collision loops may do to an enemy: its box, speed and
    direction stay, and it does not become active. *)
Definition fades (e e' : Enemy) : Prop :=
  specBox e' = specBox e /\ speed e' = speed e /\
  direction e' = direction e /\ (active e' = true -> active e = true).

(** Two enemies that differ at most in their [hitFlash]. *)
Definition sameButFlash (e e' : Enemy) : Prop :=
  enemySpec e' = enemySpec e /\ active e' = active e.

(** Two game states that differ at most in the [hitFlash] of their enemies
    and in their explosions. *)
Definition alike (s t : GameState) : Prop :=
  setExplosions [] (setEnemies [] t) = setExplosions [] (setEnemies [] s) /\
  Forall2 sameButFlash (enemies s) (enemies t).

(** [pierceWorld] with other flashes and an explosion in the air. *)
Definition flashyWorld : World :=
  mkWorld
    (setExplosions [mkExplosion 50 50 9 35 0.5 "#ff00ff"]
       (setEnemies (map (setHitFlash 0.7) (enemies (gameStateRef pierceWorld)))
          (gameStateRef pierceWorld)))
    [] 0%Z.

(** * The frame in double precision *)

(** A TypeScript [number] is an IEEE 754 double, and a sum, a difference or
    a product is the exact result rounded to the nearest double.  The
    definitions above compute in exact rationals; those of this part take
    the rounding [fl] as a parameter and apply it where the program's
    operation can be inexact: where an operand is the speed of a wave, the
    [x] of an enemy, a [hitFlash] or an [alpha], none of which is an integer
    in general, and at the decimal literals [0.15], [0.1] and [0.04], which
    are not doubles.  What is left without [fl] are the operations on the
    integers of the game (the player's and the bullets' coordinates, the [y]
    of the enemies, the grid of a wave, the radius of an explosion), which
    doubles compute exactly below [2^53]; the quotients of [generateWave],
    which it passes to [Math.floor] and [Math.ceil] and whose rounding does
    not reach an integer; and [speed * direction], where [direction] is [1]
    or [-1].

    With the identity for [fl] the definitions are those of the exact
    frame. *)

Section RoundedModel.

Variable fl : Q -> Q.

(** [1 + level * 0.15] *)
Definition speedR (level : Z) : Q :=
  fl (1 + fl (inject_Z level * fl 0.15)).

Definition waveEnemyR (level row col : Z) : EnemySpec :=
  mkEnemySpec
    (mkEntity (startX level + inject_Z col * spacing)
              (startY + inject_Z row * 50)
              ENEMY_WIDTH ENEMY_HEIGHT)
    (Z.rem row 3)
    (1 + Qfloor (inject_Z level / 4))
    (speedR level)
    1.

Fixpoint forColsR (n : nat) (level row col : Z) (acc : list EnemySpec)
  : list EnemySpec :=
  match n with
  | O => acc
  | S n' =>
      if (Z.of_nat (length acc) >=? baseEnemies level)%Z then acc
      else forColsR n' level row (col + 1)%Z (acc ++ [waveEnemyR level row col])
  end.

Fixpoint forRowsR (n : nat) (level row : Z) (acc : list EnemySpec)
  : list EnemySpec :=
  match n with
  | O => acc
  | S n' =>
      forRowsR n' level (row + 1)%Z
        (forColsR (Z.to_nat (waveCols level)) level row 0%Z acc)
  end.

Definition generateWaveR (level : Z) : list EnemySpec :=
  forRowsR (Z.to_nat (waveRows level)) level 0%Z [].

Definition initWaveR (lvl : Z) (s : GameState) : GameState :=
  let waveData := generateWaveR lvl in
  let s := setEnemies (map freshEnemy waveData) s in
  let s := setLevelComplete false s in
  setLevelTransition false s.

Definition resetGameR (s : GameState) : GameState :=
  let s := setPlayer (setX (CANVAS_WIDTH / 2 - PLAYER_WIDTH / 2) (player s)) s in
  let s := setBullets [] s in
  let s := setExplosions [] s in
  let s := setScore 0%Z s in
  let s := setLives INITIAL_LIVES s in
  let s := setLevel 1%Z s in
  let s := setGameOver false s in
  let s := setLevelComplete false s in
  let s := setLevelTransition false s in
  let s := setStarted true s in
  initWaveR 1%Z s.

(** The four sums of [checkCollision], rounded. *)
Definition checkCollisionR (a b : Entity) : bool :=
  Qltb (x a) (fl (x b + width b)) &&
  Qgtb (fl (x a + width a)) (x b) &&
  Qltb (y a) (fl (y b + height b)) &&
  Qgtb (fl (y a + height a)) (y b).

(** [enemy.x += enemy.speed * enemy.direction] and [enemy.hitFlash -= 0.1] *)
Definition advanceEnemyR (e : Enemy) (hitEdge : bool) : Enemy * bool :=
  if negb (active e) then (e, hitEdge)
  else
    let e :=
      setEnemyBox (setX (fl (x e + speed e * inject_Z (direction e))) e) e in
    let e := if Qgtb (hitFlash e) 0
             then setHitFlash (fl (hitFlash e - fl 0.1)) e
             else e in
    (e, if touchesEdge e then true else hitEdge).

Fixpoint advanceEnemiesR (es : list Enemy) (hitEdge : bool)
  : list Enemy * bool :=
  match es with
  | [] => ([], hitEdge)
  | e :: rest =>
      let (e', h) := advanceEnemyR e hitEdge in
      let (rest', h') := advanceEnemiesR rest h in
      (e' :: rest', h')
  end.

Definition updateEnemiesR (s : GameState) : GameState :=
  let (es, hitEdge) := advanceEnemiesR (enemies s) false in
  if hitEdge then setEnemies (map bounceEnemy es) s
  else setEnemies es s.

Definition hitEnemyR (lvl : Z) (e : Enemy) (h : HitState) : Enemy * HitState :=
  if negb (active e) then (e, h)
  else if checkCollisionR (hsBullet h) e then
    let b := setBulletActive false (hsBullet h) in
    let e := setHealth (health e - 1)%Z e in
    let e := setHitFlash 1 e in
    if (health e <=? 0)%Z then
      (setActive false e,
       mkHitState b (hsScore h + 100 * lvl)%Z
         (spawnExplosion (fl (x e + ENEMY_WIDTH / 2)) (y e + ENEMY_HEIGHT / 2)
            35 "#ff00ff"%string (hsExplosions h)))
    else
      (e,
       mkHitState b (hsScore h)
         (spawnExplosion (x b) (y b) 15 "#ffff00"%string (hsExplosions h)))
  else (e, h).

Fixpoint hitEnemiesR (lvl : Z) (es : list Enemy) (h : HitState)
  : list Enemy * HitState :=
  match es with
  | [] => ([], h)
  | e :: rest =>
      let (e', h1) := hitEnemyR lvl e h in
      let (rest', h2) := hitEnemiesR lvl rest h1 in
      (e' :: rest', h2)
  end.

Fixpoint hitBulletsR (bs : list Bullet) (s : GameState)
  : list Bullet * GameState :=
  match bs with
  | [] => ([], s)
  | b :: rest =>
      if negb (bulletActive b) then
        let (rest', s') := hitBulletsR rest s in (b :: rest', s')
      else
        let (es, h) :=
          hitEnemiesR (level s) (enemies s)
            (mkHitState b (score s) (explosions s)) in
        let s1 :=
          setExplosions (hsExplosions h)
            (setScore (hsScore h) (setEnemies es s)) in
        let (rest', s') := hitBulletsR rest s1 in
        (hsBullet h :: rest', s')
  end.

Definition bulletEnemyCollisionR (s : GameState) : GameState :=
  let (bs, s') := hitBulletsR (bullets s) s in
  setBullets bs s'.

Definition crashEnemyR (p : Entity) (e : Enemy) (c : CrashState)
  : Enemy * CrashState :=
  if negb (active e) then (e, c)
  else if checkCollisionR p e || Qgtb (y e) (CANVAS_HEIGHT - 100) then
    let e := if Qgtb (y e) (CANVAS_HEIGHT - 100) then setActive false e
             else e in
    if checkCollisionR p e then
      let l := (csLives c - 1)%Z in
      (setActive false e,
       mkCrashState l
         (if (l <=? 0)%Z then true else csGameOver c)
         (spawnExplosion (x p + PLAYER_WIDTH / 2) (y p + PLAYER_HEIGHT / 2) 50
            "#ff0044"%string (csExplosions c)))
    else (e, c)
  else (e, c).

Fixpoint crashEnemiesR (p : Entity) (es : list Enemy) (c : CrashState)
  : list Enemy * CrashState :=
  match es with
  | [] => ([], c)
  | e :: rest =>
      let (e', c1) := crashEnemyR p e c in
      let (rest', c2) := crashEnemiesR p rest c1 in
      (e' :: rest', c2)
  end.

Definition playerEnemyCollisionR (s : GameState) : GameState :=
  let (es, c) :=
    crashEnemiesR (player s) (enemies s)
      (mkCrashState (lives s) (gameOver s) (explosions s)) in
  setExplosions (csExplosions c)
    (setGameOver (csGameOver c) (setLives (csLives c) (setEnemies es s))).

(** [exp.radius += 2] and [exp.alpha -= 0.04] *)
Definition growExplosionR (e : Explosion) : Explosion :=
  mkExplosion (ex e) (ey e) (radius e + 2) (maxRadius e)
    (fl (alpha e - fl 0.04)) (color e).

Definition updateExplosionsR (s : GameState) : GameState :=
  setExplosions
    (filter (fun e => Qgtb (alpha e) 0) (map growExplosionR (explosions s))) s.

Definition levelTransitionFrameR (s : GameState) : GameState :=
  let s := setTransitionTimer (transitionTimer s - 16)%Z s in
  if (transitionTimer s <=? 0)%Z then
    let s := setLevel (level s + 1)%Z s in
    initWaveR (level s) s
  else s.

(** The state on which the bullet-enemy loop of a frame runs. *)
Definition beforeHitR (s : GameState) : GameState :=
  updateEnemiesR (updateBullets s).

Definition simulateR (s : GameState) : GameState :=
  updateExplosionsR
    (checkWaveComplete
       (playerEnemyCollisionR (bulletEnemyCollisionR (beforeHitR s)))).

Definition playingFrameR (now : Z) (w : World) : World :=
  let w := handleInput now w in
  mkWorld (simulateR (gameStateRef w)) (keysRef w) (lastShootRef w).

Definition gameLoopR (now : Z) (w : World) : World :=
  let s := gameStateRef w in
  if negb (started s) then w
  else if gameOver s then w
  else if levelTransition s then
    mkWorld (levelTransitionFrameR s) (keysRef w) (lastShootRef w)
  else playingFrameR now w.

Definition handleKeyDownR (key : string) (w : World) : World :=
  let ks := add key (keysRef w) in
  let s := gameStateRef w in
  let s := if String.eqb key " " && negb (started s) then resetGameR s
           else s in
  let s := if String.eqb key "r" && gameOver s then resetGameR s else s in
  mkWorld s ks (lastShootRef w).

Definition stepR (w : World) (ev : Event) : World :=
  match ev with
  | KeyDown key => handleKeyDownR key w
  | KeyUp key => handleKeyUp key w
  | Frame now => gameLoopR now w
  end.

Definition runR (evs : list Event) (w : World) : World :=
  fold_left stepR evs w.

(** The health that each bullet takes from the pool in its turn of the
    bullet-enemy loop: the recursion of [hitBulletsR], recording for every
    bullet the health of the pool before its inner loop minus the health
    after it. *)
Fixpoint bulletDamageR (bs : list Bullet) (s : GameState) : list Z :=
  match bs with
  | [] => []
  | b :: rest =>
      if negb (bulletActive b) then 0%Z :: bulletDamageR rest s
      else
        let (es, h) :=
          hitEnemiesR (level s) (enemies s)
            (mkHitState b (score s) (explosions s)) in
        let s1 :=
          setExplosions (hsExplosions h)
            (setScore (hsScore h) (setEnemies es s)) in
        (totalHealth (enemies s) - totalHealth es)%Z :: bulletDamageR rest s1
  end.

End RoundedModel.

(** States the component can be in, for a rounding [fl]. *)
Inductive reachableR (fl : Q -> Q) : World -> Prop :=
| reachR_init : reachableR fl initialWorld
| reachR_step w ev : reachableR fl w -> reachableR fl (stepR fl w ev).

(** ** Rounding to the nearest double *)

(** [2^k] *)
Definition pow2 (k : Z) : Q :=
  if (0 <=? k)%Z then inject_Z (2 ^ k) else / inject_Z (2 ^ (- k)).

(** The exponent [e] of the binade of [q]: [2^e <= |q| < 2^(e+1)]. *)
Definition binade (q : Q) : Z :=
  let e := (Z.log2 (Z.abs (Qnum q)) - Z.log2 (Zpos (Qden q)))%Z in
  if Qle_bool (pow2 e) (Qabs q) then e else (e - 1)%Z.

(** The nearest integer, the even one of two that are equally near. *)
Definition roundHalfEven (r : Q) : Z :=
  let f := Qfloor r in
  match Qcompare (r - inject_Z f) (1 # 2) with
  | Lt => f
  | Gt => (f + 1)%Z
  | Eq => if Z.even f then f else (f + 1)%Z
  end.

(** The nearest number with a significand of 53 bits (the range of the
    exponent is not limited: the numbers of the game stay far from both
    ends of it). *)
Definition roundDouble (q : Q) : Q :=
  if Qeq_bool q 0 then 0
  else
    let k := (52 - binade q)%Z in
    Qred (inject_Z (roundHalfEven (q * pow2 k)) * pow2 (- k)).

(** Runs of the component in double precision. *)
Definition runD : list Event -> World -> World := runR roundDouble.

(** ** What the proofs about rounded runs assume and keep *)

(** The roundings of numbers below [2^40] are off by at most [2^-14]: of a
    double below [2^40] the last bit is worth at most [2^-13]. *)
Definition eps : Q := 1 # 16384.

Definition bigQ : Q := 1099511627776.

Definition nearly (fl : Q -> Q) : Prop :=
  forall q, - bigQ < q -> q < bigQ -> q - eps <= fl q /\ fl q <= q + eps.

(** A spec with another speed. *)
Definition withSpeed (v : Q) (e : EnemySpec) : EnemySpec :=
  mkEnemySpec (specBox e) (type e) (health e) v (direction e).

(** An enemy after the rounded advance step of a frame. *)
Definition movedEnemyR (fl : Q -> Q) (e : Enemy) : Enemy :=
  fst (advanceEnemyR fl e false).

(** The levels for which the spacing of the waves is shown to outlast the
    rounding. *)
Definition maxLevel : Z := 100000000.

(** Bounds, up to [maxLevel], on the speed of a wave and on the distance of
    its grid from the left border. *)
Definition maxSpeed : Q := 16000002.

Definition gridReach : Q := 5000000000.

(** How far from the left border an enemy can be after [n] advance steps. *)
Definition reach (n : Q) : Q := gridReach + n * (maxSpeed + 1).

(** The march of a wave: its speed and direction, the number of advance
    steps since it was generated, of those since its last bounce (or since
    it was generated), and of its bounces. *)
Record March : Type := mkMarch {
  pace : Q;
  heading : Z;
  advances : Q;
  leg : Q;
  bounces : Q
}.

(** A wave takes fewer than 558 advance steps from one bounce to the
    next. *)
Definition marchOK (g : March) : Prop :=
  99 # 100 <= pace g /\ pace g <= maxSpeed /\
  (heading g = 1%Z \/ heading g = (-1)%Z) /\
  (leg g = 0 \/ 1 <= leg g) /\ 0 <= bounces g /\ 0 <= advances g /\
  advances g <= 558 * bounces g + leg g.

(** An active enemy follows the march [g], no lower than [top]: it has the
    speed and the direction of the march and the usual size, has come down
    by 20 at every bounce, is within reach, and since the first step of the
    current leg it is strictly between the two edges and has moved on by at
    least 0.98 at every further step. *)
Definition inMarch (g : March) (top : Q) (e : Enemy) : Prop :=
  active e = true ->
  speed e = pace g /\ direction e = heading g /\
  width e = ENEMY_WIDTH /\ height e = ENEMY_HEIGHT /\
  60 + 20 * bounces g <= y e /\ y e <= top /\
  - reach (advances g) <= x e /\ x e <= reach (advances g) /\
  (1 <= leg g ->
   10 < x e /\ x e < 554 /\
   (heading g = 1%Z -> 10 + (leg g - 1) * (49 # 50) < x e) /\
   (heading g = (-1)%Z -> x e < 554 - (leg g - 1) * (49 # 50))).

(** Two enemies that, while both active, are a grid step apart, less
    [slack] across. *)
Definition spaced (slack : Q) (e1 e2 : Enemy) : Prop :=
  active e1 = true -> active e2 = true ->
  x e1 + 60 - slack <= x e2 \/ x e2 + 60 - slack <= x e1 \/
  y e1 + 50 <= y e2 \/ y e2 + 50 <= y e1.

(** A pool whose active enemies follow one march and have lost at most
    [2 * eps] of their spacing at every advance step. *)
Definition marching (top : Q) (es : list Enemy) : Prop :=
  exists g,
    marchOK g /\ Forall (inMarch g top) es /\
    ForallOrdPairs (spaced (2 * advances g * eps)) es.

(** What holds between two events of a rounded run. *)
Definition steady (s : GameState) : Prop :=
  inField (x (player s)) /\
  y (player s) = CANVAS_HEIGHT - PLAYER_HEIGHT - 20 /\
  Forall inFlight (bullets s) /\ (1 <= level s)%Z /\
  ((level s <= maxLevel)%Z -> marching 600 (enemies s)).



(** A game started with the space key held, [n] frames later (one frame
    every 16 ms). *)
Definition framesFrom (t0 : Z) (n : nat) : list Event :=
  map (fun k => Frame (t0 + 16 * Z.of_nat k)) (seq 0 n).

Definition firstShots (n : nat) : list Event :=
  KeyDown " " :: framesFrom 1000 n.

(** No rounding: the exact frame. *)
Definition noRounding : Q -> Q := fun q => q.
(** * Properties *)

(** ** Comparisons *)

Lemma Qleb_iff (a b : Q) : Qleb a b = true <-> a <= b.
Proof. unfold Qleb. apply Qle_bool_iff. Qed.

Lemma Qltb_iff (a b : Q) : Qltb a b = true <-> a < b.
Proof.
  unfold Qltb. rewrite negb_true_iff. split; intro H.
  - apply Qnot_le_lt. intro Hle. apply Qle_bool_iff in Hle. congruence.
  - destruct (Qle_bool b a) eqn:E; [| reflexivity].
    apply Qle_bool_iff in E. exfalso. revert E. apply Qlt_not_le. exact H.
Qed.

Lemma Qgtb_iff (a b : Q) : Qgtb a b = true <-> b < a.
Proof. unfold Qgtb. apply Qltb_iff. Qed.

Lemma Qgeb_iff (a b : Q) : Qgeb a b = true <-> b <= a.
Proof. unfold Qgeb. apply Qleb_iff. Qed.

Lemma Qltb_false_iff (a b : Q) : Qltb a b = false <-> b <= a.
Proof.
  unfold Qltb. rewrite negb_false_iff. apply Qle_bool_iff.
Qed.

Lemma Qleb_false_iff (a b : Q) : Qleb a b = false <-> b < a.
Proof.
  split; intro H.
  - apply Qnot_le_lt. intro Hle. apply Qleb_iff in Hle. congruence.
  - destruct (Qleb a b) eqn:E; [| reflexivity].
    apply Qleb_iff in E. exfalso. revert E. apply Qlt_not_le. exact H.
Qed.


(** ** Geometry *)

(** C10: the bounding-box test is symmetric:
    [checkCollision a b = checkCollision b a] for all entities. *)
Theorem checkCollision_symmetric (a b : Entity) :
  checkCollision a b = checkCollision b a.
Proof.
  unfold checkCollision, Qgtb.
  destruct (Qltb (x a) (x b + width b)), (Qltb (x b) (x a + width a)),
    (Qltb (y a) (y b + height b)), (Qltb (y b) (y a + height a));
    reflexivity.
Qed.

Lemma checkCollision_true (a b : Entity) :
  checkCollision a b = true <->
  x a < x b + width b /\ x b < x a + width a /\
  y a < y b + height b /\ y b < y a + height a.
Proof.
  unfold checkCollision.
  rewrite !andb_true_iff, !Qgtb_iff, !Qltb_iff. tauto.
Qed.

(** ** Reset *)

(** C6: [resetGame] is idempotent, and the state it leaves has the player at
    the centre, no bullets, no explosions, score 0, 3 lives, level 1, started,
    not over, and the level-1 wave with every enemy active. *)
Theorem resetGame_idempotent (s : GameState) :
  resetGame (resetGame s) = resetGame s /\
  x (player (resetGame s)) = CANVAS_WIDTH / 2 - PLAYER_WIDTH / 2 /\
  y (player (resetGame s)) = y (player s) /\
  bullets (resetGame s) = [] /\
  explosions (resetGame s) = [] /\
  score (resetGame s) = 0%Z /\
  lives (resetGame s) = 3%Z /\
  level (resetGame s) = 1%Z /\
  started (resetGame s) = true /\
  gameOver (resetGame s) = false /\
  levelComplete (resetGame s) = false /\
  levelTransition (resetGame s) = false /\
  enemies (resetGame s) = map freshEnemy (generateWave 1).
Proof.
  destruct s. vm_compute. repeat split.
Qed.

(** ** Moving the player *)


Lemma field_right_bound : CANVAS_WIDTH - PLAYER_WIDTH - 10 == 550.
Proof. reflexivity. Qed.

Lemma Qmax_cases (a b : Q) :
  (a <= b /\ Qmax a b == b) \/ (b <= a /\ Qmax a b == a).
Proof.
  destruct (Q.max_spec a b) as [[H E] | [H E]]; [left | right]; split;
    try exact E; try exact H.
  apply Qlt_le_weak. exact H.
Qed.

Lemma Qmin_cases (a b : Q) :
  (a <= b /\ Qmin a b == a) \/ (b <= a /\ Qmin a b == b).
Proof.
  destruct (Q.min_spec a b) as [[H E] | [H E]]; [left | right]; split;
    try exact E; try exact H.
  apply Qlt_le_weak. exact H.
Qed.

Lemma moveLeft_x (s : GameState) :
  x (player (moveLeft s)) = Qmax 10 (x (player s) - PLAYER_SPEED).
Proof. reflexivity. Qed.

Lemma moveRight_x (s : GameState) :
  x (player (moveRight s)) =
  Qmin (CANVAS_WIDTH - PLAYER_WIDTH - 10) (x (player s) + PLAYER_SPEED).
Proof. reflexivity. Qed.

Lemma moveLeft_inField (s : GameState) :
  inField (x (player s)) -> inField (x (player (moveLeft s))).
Proof.
  unfold inField. rewrite moveLeft_x.
  unfold CANVAS_WIDTH, PLAYER_WIDTH, PLAYER_SPEED. intros [H1 H2].
  destruct (Qmax_cases 10 (x (player s) - 8)) as [[H E] | [H E]];
    rewrite E; split; lra.
Qed.

Lemma moveRight_inField (s : GameState) :
  inField (x (player s)) -> inField (x (player (moveRight s))).
Proof.
  unfold inField. rewrite moveRight_x.
  unfold CANVAS_WIDTH, PLAYER_WIDTH, PLAYER_SPEED. intros [H1 H2].
  destruct (Qmin_cases (600 - 40 - 10) (x (player s) + 8)) as [[H E] | [H E]];
    rewrite E; split; lra.
Qed.

Lemma movePlayer_inField (ks : list string) (s : GameState) :
  inField (x (player s)) -> inField (x (player (movePlayer ks s))).
Proof.
  intro H. unfold movePlayer.
  destruct (leftHeld ks), (rightHeld ks); auto using moveLeft_inField,
    moveRight_inField.
Qed.

(** C8 (as amended): with move-left and move-right both held, the two
    clamped updates run left first, then right, so [player.x] becomes
    [min(550, max(10, x - 8) + 8)]; from 18 to 550 that is [x] again (the two
    deltas cancel), below 18 it is 18; nothing else of the state changes. *)
Theorem both_held_left_then_right (ks : list string) (s : GameState) :
  leftHeld ks = true -> rightHeld ks = true ->
  movePlayer ks s = moveRight (moveLeft s) /\
  x (player (movePlayer ks s)) =
    Qmin (CANVAS_WIDTH - PLAYER_WIDTH - 10)
         (Qmax 10 (x (player s) - PLAYER_SPEED) + PLAYER_SPEED) /\
  (18 <= x (player s) <= 550 ->
     x (player (movePlayer ks s)) == x (player s)) /\
  (x (player s) <= 18 -> x (player (movePlayer ks s)) == 18).
Proof.
  intros HL HR. unfold movePlayer. rewrite HL, HR.
  split; [reflexivity |]. split; [reflexivity |].
  rewrite moveRight_x, moveLeft_x.
  unfold CANVAS_WIDTH, PLAYER_WIDTH, PLAYER_SPEED.
  split; intro H;
    destruct (Qmax_cases 10 (x (player s) - 8)) as [[H1 E1] | [H1 E1]];
    destruct (Qmin_cases (600 - 40 - 10) (Qmax 10 (x (player s) - 8) + 8))
      as [[H2 E2] | [H2 E2]];
    rewrite E2; rewrite E1 in *; lra.
Qed.

Lemma both_held_left_then_right_witness :
  leftHeld ["ArrowLeft"; "ArrowRight"]%string = true /\
  rightHeld ["ArrowLeft"; "ArrowRight"]%string = true /\
  18 <= x (player initialGameState) <= 550 /\
  x (player (movePlayer ["ArrowLeft"; "ArrowRight"]%string initialGameState))
  == x (player initialGameState) /\
  x (player leftEdgeState) <= 18 /\
  x (player (movePlayer ["ArrowLeft"; "ArrowRight"]%string leftEdgeState))
  == 18.
Proof.
  split; [reflexivity |]. split; [reflexivity |].
  assert (H : 18 <= x (player initialGameState) <= 550)
    by (split; vm_compute; discriminate).
  assert (H' : x (player leftEdgeState) <= 18)
    by (vm_compute; discriminate).
  split; [exact H |]. split; [| split; [exact H' |]].
  - apply (both_held_left_then_right ["ArrowLeft"; "ArrowRight"]%string
             initialGameState eq_refl eq_refl).
    exact H.
  - apply (both_held_left_then_right ["ArrowLeft"; "ArrowRight"]%string
             leftEdgeState eq_refl eq_refl).
    exact H'.
Defined.

(** C8 (as stated) fails at the start position: with both keys held the
    player stays at 280, which is the sum of the two deltas, and not the 288
    that the update applied last gives on its own. *)
Lemma both_held_not_last_wins :
  x (player (movePlayer ["ArrowLeft"; "ArrowRight"]%string initialGameState))
    == x (player initialGameState) - PLAYER_SPEED + PLAYER_SPEED /\
  x (player (movePlayer ["ArrowRight"]%string initialGameState)) == 288 /\
  ~ x (player (movePlayer ["ArrowLeft"; "ArrowRight"]%string initialGameState))
    == x (player (movePlayer ["ArrowRight"]%string initialGameState)).
Proof.
  split; [reflexivity |]. split; [reflexivity |].
  vm_compute. discriminate.
Qed.

(** ** What each step of a frame leaves alone *)


Lemma sameSession_refl (s : GameState) : sameSession s s.
Proof. repeat split. Qed.

Lemma sameSession_trans (s1 s2 s3 : GameState) :
  sameSession s1 s2 -> sameSession s2 s3 -> sameSession s1 s3.
Proof.
  unfold sameSession. intros H1 H2.
  decompose [and] H1. decompose [and] H2. repeat split; congruence.
Qed.

Lemma updateBullets_session (s : GameState) : sameSession s (updateBullets s).
Proof. repeat split. Qed.

Lemma updateEnemies_session (s : GameState) : sameSession s (updateEnemies s).
Proof.
  unfold updateEnemies. destruct (advanceEnemies (enemies s) false) as [es h].
  destruct h; repeat split.
Qed.

Lemma hitBullets_session (bs : list Bullet) :
  forall s bs' s', hitBullets bs s = (bs', s') -> sameSession s s'.
Proof.
  induction bs as [| b rest IH]; intros s bs' s' H; simpl in H.
  - inversion H. apply sameSession_refl.
  - destruct (negb (bulletActive b)).
    + destruct (hitBullets rest s) as [r t] eqn:E. inversion H; subst.
      eapply IH. exact E.
    + destruct (hitEnemies (level s) (enemies s)
                  (mkHitState b (score s) (explosions s))) as [es h].
      destruct (hitBullets rest _) as [r t] eqn:E. inversion H; subst.
      eapply sameSession_trans; [| eapply IH; exact E]. repeat split.
Qed.

Lemma bulletEnemyCollision_session (s : GameState) :
  sameSession s (bulletEnemyCollision s).
Proof.
  unfold bulletEnemyCollision.
  destruct (hitBullets (bullets s) s) as [bs s'] eqn:E.
  apply hitBullets_session in E.
  eapply sameSession_trans; [exact E |]. repeat split.
Qed.

Lemma updateExplosions_session (s : GameState) :
  sameSession s (updateExplosions s).
Proof. repeat split. Qed.

Lemma playerEnemyCollision_player (s : GameState) :
  player (playerEnemyCollision s) = player s.
Proof.
  unfold playerEnemyCollision.
  destruct (crashEnemies _ _ _) as [es c]. reflexivity.
Qed.

Lemma checkWaveComplete_player (s : GameState) :
  player (checkWaveComplete s) = player s.
Proof.
  unfold checkWaveComplete.
  destruct (_ && _); reflexivity.
Qed.

Lemma simulate_player (s : GameState) : player (simulate s) = player s.
Proof.
  unfold simulate.
  destruct (updateExplosions_session
              (checkWaveComplete
                 (playerEnemyCollision
                    (bulletEnemyCollision (updateEnemies (updateBullets s))))))
    as [-> _].
  rewrite checkWaveComplete_player, playerEnemyCollision_player.
  destruct (bulletEnemyCollision_session (updateEnemies (updateBullets s)))
    as [-> _].
  destruct (updateEnemies_session (updateBullets s)) as [-> _].
  reflexivity.
Qed.

(** ** The player stays in the field *)

Lemma handleInput_player_x (now : Z) (w : World) :
  x (player (gameStateRef (handleInput now w))) =
  x (player (movePlayer (keysRef w) (gameStateRef w))).
Proof.
  unfold handleInput. destruct (_ && _); reflexivity.
Qed.

Lemma levelTransitionFrame_player (s : GameState) :
  player (levelTransitionFrame s) = player s.
Proof.
  unfold levelTransitionFrame. destruct (_ <=? _)%Z; reflexivity.
Qed.

Lemma resetGame_inField (s : GameState) :
  inField (x (player (resetGame s))).
Proof. split; vm_compute; discriminate. Qed.

Lemma gameLoop_inField (now : Z) (w : World) :
  inField (x (player (gameStateRef w))) ->
  inField (x (player (gameStateRef (gameLoop now w)))).
Proof.
  intro H. unfold gameLoop.
  destruct (negb (started (gameStateRef w))); [exact H |].
  destruct (gameOver (gameStateRef w)); [exact H |].
  destruct (levelTransition (gameStateRef w)).
  - cbn [gameStateRef]. rewrite levelTransitionFrame_player. exact H.
  - unfold playingFrame. cbn [gameStateRef]. rewrite simulate_player.
    rewrite handleInput_player_x. apply movePlayer_inField. exact H.
Qed.

Lemma handleKeyDown_inField (key : string) (w : World) :
  inField (x (player (gameStateRef w))) ->
  inField (x (player (gameStateRef (handleKeyDown key w)))).
Proof.
  intro H. unfold handleKeyDown. cbn [gameStateRef].
  destruct (_ && negb _); destruct (_ && gameOver _);
    auto using resetGame_inField.
Qed.

Lemma step_inField (w : World) (ev : Event) :
  inField (x (player (gameStateRef w))) ->
  inField (x (player (gameStateRef (step w ev)))).
Proof.
  destruct ev; cbn [step]; auto using handleKeyDown_inField, gameLoop_inField.
Qed.

Lemma run_reachable (evs : list Event) :
  forall w, reachable w -> reachable (run evs w).
Proof.
  induction evs as [| ev evs IH]; intros w H; simpl; [exact H |].
  apply IH. apply reach_step. exact H.
Qed.

Lemma reachable_inField (w : World) :
  reachable w -> inField (x (player (gameStateRef w))).
Proof.
  induction 1 as [| w ev _ IH].
  - split; vm_compute; discriminate.
  - apply step_inField. exact IH.
Qed.

(** C5: in every state the component reaches from its initial state, and
    after the input step of a frame run from such a state, [player.x] is in
    [[10, CANVAS_WIDTH - PLAYER_WIDTH - 10]], which is [[10, 550]]. *)
Theorem player_x_clamped (evs : list Event) (now : Z) :
  let w := run evs initialWorld in
  inField (x (player (gameStateRef w))) /\
  inField (x (player (gameStateRef (handleInput now w)))) /\
  CANVAS_WIDTH - PLAYER_WIDTH - 10 == 550.
Proof.
  intro w.
  assert (H : inField (x (player (gameStateRef w))))
    by (apply reachable_inField, run_reachable, reach_init).
  split; [exact H |]. split; [| reflexivity].
  rewrite handleInput_player_x. apply movePlayer_inField. exact H.
Qed.

(** ** The formation bounces as one *)

Lemma touchesEdge_iff (e : Enemy) :
  touchesEdge e = true <->
  x e <= 10 \/ CANVAS_WIDTH - ENEMY_WIDTH - 10 <= x e.
Proof.
  unfold touchesEdge. rewrite orb_true_iff, Qleb_iff, Qgeb_iff. tauto.
Qed.

Lemma advanceEnemy_spec (e : Enemy) (h : bool) :
  advanceEnemy e h =
  (movedEnemy e, h || (active e && touchesEdge (movedEnemy e))).
Proof.
  unfold movedEnemy, advanceEnemy.
  destruct (active e) eqn:A; cbn [negb fst].
  - destruct (Qgtb _ 0); cbn [fst andb active setHitFlash setEnemyBox];
      destruct (touchesEdge _); destruct h; reflexivity.
  - destruct h; reflexivity.
Qed.

Lemma movedEnemy_active (e : Enemy) : active (movedEnemy e) = active e.
Proof.
  unfold movedEnemy, advanceEnemy.
  destruct (active e) eqn:A; cbn [negb fst]; [| exact A].
  destruct (Qgtb _ 0); cbn [fst active setHitFlash setEnemyBox]; exact A.
Qed.

Lemma movedEnemy_inactive (e : Enemy) :
  active e = false -> movedEnemy e = e.
Proof.
  intro A. unfold movedEnemy, advanceEnemy. rewrite A. reflexivity.
Qed.

Lemma movedEnemy_fields (e : Enemy) :
  y (movedEnemy e) = y e /\ width (movedEnemy e) = width e /\
  height (movedEnemy e) = height e /\
  direction (movedEnemy e) = direction e /\
  health (movedEnemy e) = health e /\ speed (movedEnemy e) = speed e /\
  type (movedEnemy e) = type e.
Proof.
  unfold movedEnemy, advanceEnemy.
  destruct (active e); cbn [negb fst]; [| repeat split].
  destruct (Qgtb _ 0); repeat split.
Qed.

Lemma movedEnemy_x (e : Enemy) :
  active e = true ->
  x (movedEnemy e) = x e + speed e * inject_Z (direction e).
Proof.
  intro A. unfold movedEnemy, advanceEnemy. rewrite A. cbn [negb fst].
  destruct (Qgtb _ 0); reflexivity.
Qed.

Lemma advanceEnemies_spec (es : list Enemy) :
  forall h,
    advanceEnemies es h =
    (map movedEnemy es,
     h || existsb (fun e => active e && touchesEdge e) (map movedEnemy es)).
Proof.
  induction es as [| e rest IH]; intro h; cbn [advanceEnemies map existsb].
  - rewrite orb_false_r. reflexivity.
  - rewrite advanceEnemy_spec, IH, movedEnemy_active, orb_assoc.
    reflexivity.
Qed.

Lemma existsb_edge_iff (es : list Enemy) :
  existsb (fun e => active e && touchesEdge e) es = true <->
  someActiveAtEdge es.
Proof.
  unfold someActiveAtEdge. rewrite existsb_exists.
  split; intros [e [HI H]]; exists e; split; try exact HI.
  - apply andb_true_iff in H. destruct H as [A T].
    apply touchesEdge_iff in T. auto.
  - destruct H as [A T]. apply touchesEdge_iff in T. rewrite A, T.
    reflexivity.
Qed.

Lemma updateEnemies_enemies (s : GameState) :
  enemies (updateEnemies s) =
  if existsb (fun e => active e && touchesEdge e)
       (map movedEnemy (enemies s))
  then map bounceEnemy (map movedEnemy (enemies s))
  else map movedEnemy (enemies s).
Proof.
  unfold updateEnemies. rewrite advanceEnemies_spec. cbn [orb].
  destruct (existsb _ _); reflexivity.
Qed.

(** C7: if some active enemy is at an edge after the advance step, every
    active enemy has its direction negated and its [y] raised by exactly 20
    in that step and the inactive ones are untouched; if none is, every
    enemy keeps its direction and its [y]. *)
Theorem formation_bounce (s : GameState) :
  (someActiveAtEdge (map movedEnemy (enemies s)) ->
   Forall2
     (fun e e' =>
        if active e
        then active e' = true /\
             direction e' = (- direction e)%Z /\ y e' = y e + 20 /\
             x e' = x (movedEnemy e)
        else e' = e)
     (enemies s) (enemies (updateEnemies s))) /\
  (~ someActiveAtEdge (map movedEnemy (enemies s)) ->
   Forall2
     (fun e e' =>
        e' = movedEnemy e /\ direction e' = direction e /\ y e' = y e)
     (enemies s) (enemies (updateEnemies s))).
Proof.
  rewrite updateEnemies_enemies. split; intro H.
  - apply existsb_edge_iff in H. rewrite H. clear H.
    induction (enemies s) as [| e rest IH]; cbn [map]; constructor;
      [| exact IH].
    destruct (active e) eqn:A.
    + unfold bounceEnemy. rewrite movedEnemy_active, A.
      destruct (movedEnemy_fields e) as [Hy [_ [_ [Hd _]]]].
      cbn. rewrite movedEnemy_active, Hy, Hd.
      repeat split; [exact A | lia].
    + rewrite (movedEnemy_inactive e A). unfold bounceEnemy. rewrite A.
      reflexivity.
  - destruct (existsb _ _) eqn:E.
    + exfalso. apply H. apply existsb_edge_iff. exact E.
    + clear. induction (enemies s) as [| e rest IH]; cbn [map]; constructor;
        [| exact IH].
      destruct (movedEnemy_fields e) as [Hy [_ [_ [Hd _]]]]. auto.
Qed.

Lemma formation_bounce_witness :
  someActiveAtEdge (map movedEnemy (enemies edgeState)) /\
  Forall2
    (fun e e' =>
       if active e
       then active e' = true /\
            direction e' = (- direction e)%Z /\ y e' = y e + 20 /\
            x e' = x (movedEnemy e)
       else e' = e)
    (enemies edgeState) (enemies (updateEnemies edgeState)).
Proof.
  assert (H : someActiveAtEdge (map movedEnemy (enemies edgeState))).
  { exists (movedEnemy (foe 10.5 60 1 (-1) true)).
    split; [left; reflexivity |]. split; [reflexivity |].
    left. vm_compute. discriminate. }
  split; [exact H |].
  exact (proj1 (formation_bounce edgeState) H).
Defined.

(** The other case of C7 on the pool of [crashWorld], far from both edges. *)
Lemma formation_calm_example :
  Forall2
    (fun e e' =>
       e' = movedEnemy e /\ direction e' = direction e /\ y e' = y e)
    (enemies (gameStateRef crashWorld))
    (enemies (updateEnemies (gameStateRef crashWorld))).
Proof.
  rewrite updateEnemies_enemies.
  replace (existsb _ _) with false by (vm_compute; reflexivity).
  cbn [map gameStateRef crashWorld playingWorld enemies].
  repeat constructor.
Qed.

(** ** The wave generator *)

Lemma baseEnemies_eq (L : Z) : baseEnemies L = (4 + (L * 15) / 10)%Z.
Proof. reflexivity. Qed.

Lemma waveRows_eq (L : Z) : waveRows L = Z.min (2 + (L * 1) / 3) 4.
Proof. reflexivity. Qed.

Lemma waveCols_eq (L : Z) :
  waveCols L = (- ((- baseEnemies L) / waveRows L))%Z.
Proof.
  unfold waveCols, Qceiling. f_equal.
  rewrite Zdiv_Qdiv. apply Qfloor_comp.
  rewrite inject_Z_opp. unfold Qdiv. ring.
Qed.

Lemma wave_sizes (L : Z) :
  (1 <= L)%Z ->
  (5 <= baseEnemies L)%Z /\ (2 <= waveRows L <= 4)%Z /\
  (1 <= waveCols L)%Z /\ (baseEnemies L <= waveRows L * waveCols L)%Z.
Proof.
  intro HL.
  assert (HB : (5 <= baseEnemies L)%Z).
  { rewrite baseEnemies_eq. Z.div_mod_to_equations. lia. }
  assert (HR : (2 <= waveRows L <= 4)%Z).
  { rewrite waveRows_eq. Z.div_mod_to_equations. lia. }
  rewrite waveCols_eq.
  generalize dependent (baseEnemies L). generalize dependent (waveRows L).
  intros r HR b HB. Z.div_mod_to_equations. nia.
Qed.

Lemma wavePrefix_length (L : Z) (m : nat) :
  length (wavePrefix L m) = m.
Proof. unfold wavePrefix. rewrite length_map, length_seq. reflexivity. Qed.

Lemma wavePrefix_S (L : Z) (m : nat) :
  wavePrefix L (S m) = wavePrefix L m ++ [waveCell L m].
Proof. unfold wavePrefix. rewrite seq_S, map_app. reflexivity. Qed.

Lemma waveCell_at (L row col : Z) (m : nat) :
  (0 <= col < waveCols L)%Z -> Z.of_nat m = (row * waveCols L + col)%Z ->
  waveCell L m = waveEnemy L row col.
Proof.
  intros Hc Hm. unfold waveCell. rewrite Hm.
  assert (Hd : ((row * waveCols L + col) / waveCols L = row)%Z).
  { symmetry. apply (Z.div_unique _ _ row col); lia. }
  assert (Hr : ((row * waveCols L + col) mod waveCols L = col)%Z).
  { symmetry. apply (Z.mod_unique _ _ row col); lia. }
  rewrite Hd, Hr. reflexivity.
Qed.

(** Once the wave is full every remaining iteration breaks at once. *)
Lemma forCols_full (L row : Z) (n : nat) :
  forall col m,
    (baseEnemies L <= Z.of_nat m)%Z ->
    forCols n L row col (wavePrefix L m) = wavePrefix L m.
Proof.
  destruct n as [| n]; intros col m H; cbn [forCols]; [reflexivity |].
  rewrite wavePrefix_length.
  destruct (Z.geb_spec (Z.of_nat m) (baseEnemies L)); [reflexivity | lia].
Qed.

(** An inner loop entered at a cell of the grid fills the cells that follow
    it in the row, up to the size of the wave. *)
Lemma forCols_prefix (L row : Z) (n : nat) :
  forall col m,
    (0 <= col)%Z -> (col + Z.of_nat n <= waveCols L)%Z ->
    Z.of_nat m = (row * waveCols L + col)%Z ->
    forCols n L row col (wavePrefix L m) =
    wavePrefix L (Nat.max m (Nat.min (m + n) (Z.to_nat (baseEnemies L)))).
Proof.
  induction n as [| n IH]; intros col m H0 Hn Hm; cbn [forCols].
  - f_equal. lia.
  - rewrite wavePrefix_length.
    destruct (Z.geb_spec (Z.of_nat m) (baseEnemies L)) as [Hfull | Hroom].
    + f_equal. lia.
    + rewrite <- (waveCell_at L row col m) by lia.
      rewrite <- wavePrefix_S. rewrite (IH (col + 1)%Z (S m)) by lia.
      f_equal. lia.
Qed.

Lemma forRows_prefix (L : Z) (n : nat) :
  forall row m,
    (0 < waveCols L)%Z -> (0 <= row)%Z -> (0 <= baseEnemies L)%Z ->
    Z.of_nat m = Z.min (row * waveCols L) (baseEnemies L) ->
    Z.of_nat (length (forRows n L row (wavePrefix L m))) =
      Z.min ((row + Z.of_nat n) * waveCols L) (baseEnemies L) /\
    forRows n L row (wavePrefix L m) =
      wavePrefix L (length (forRows n L row (wavePrefix L m))).
Proof.
  induction n as [| n IH]; intros row m HC Hr HB Hm; cbn [forRows].
  - rewrite wavePrefix_length. split; [lia | reflexivity].
  - assert (E : exists m',
               forCols (Z.to_nat (waveCols L)) L row 0%Z (wavePrefix L m) =
                 wavePrefix L m' /\
               Z.of_nat m' =
                 Z.min ((row + 1) * waveCols L) (baseEnemies L)).
    { destruct (Z.le_gt_cases (baseEnemies L) (Z.of_nat m)) as [Hfull | Hroom].
      - exists m. split; [apply forCols_full; exact Hfull | nia].
      - eexists. split; [apply forCols_prefix; lia | nia]. }
    destruct E as [m' [-> Hm']].
    destruct (IH (row + 1)%Z m' HC ltac:(lia) HB Hm') as [H1 H2].
    split; [rewrite H1; f_equal; lia | exact H2].
Qed.

Lemma generateWave_layout (L : Z) :
  (1 <= L)%Z ->
  generateWave L = wavePrefix L (Z.to_nat (baseEnemies L)).
Proof.
  intro HL. destruct (wave_sizes L HL) as [HB [HR [HC Hfit]]].
  unfold generateWave.
  destruct (forRows_prefix L (Z.to_nat (waveRows L)) 0%Z 0%nat) as [H1 H2];
    try lia.
  change (wavePrefix L 0) with (@nil EnemySpec) in *.
  rewrite H2. f_equal. lia.
Qed.

Lemma wavePrefix_nth (L : Z) (m k : nat) :
  (k < m)%nat -> nth_error (wavePrefix L m) k = Some (waveCell L k).
Proof.
  intro H. unfold wavePrefix. apply map_nth_error.
  rewrite (nth_error_nth' _ 0%nat) by (rewrite length_seq; exact H).
  rewrite seq_nth by exact H. reflexivity.
Qed.

(** C1: for every level [L >= 1], [generateWave L] is a function of [L]
    alone and returns exactly [4 + floor(L * 1.5)] specs; the [k]-th one sits
    in row [k / cols] and column [k mod cols] of a grid of
    [rows = min(2 + floor(L / 3), 4)] rows, 60 apart across and 50 apart
    down from [y = 60], with [type = row mod 3], [health = 1 + floor(L / 4)],
    [speed = 1 + L * 0.15] and [direction = 1]. *)
Theorem generateWave_spec (L : Z) :
  (1 <= L)%Z ->
  (forall L', L' = L -> generateWave L' = generateWave L) /\
  Z.of_nat (length (generateWave L)) = (4 + Qfloor (inject_Z L * 1.5))%Z /\
  waveRows L = Z.min (2 + Qfloor (inject_Z L / 3)) 4 /\
  forall k, (k < length (generateWave L))%nat ->
    let row := (Z.of_nat k / waveCols L)%Z in
    let col := (Z.of_nat k mod waveCols L)%Z in
    (0 <= row < waveRows L)%Z /\ (0 <= col < waveCols L)%Z /\
    exists e : EnemySpec,
      nth_error (generateWave L) k = Some e /\
      x e = startX L + inject_Z col * 60 /\
      y e = 60 + inject_Z row * 50 /\
      width e = ENEMY_WIDTH /\ height e = ENEMY_HEIGHT /\
      type e = (row mod 3)%Z /\
      health e = (1 + Qfloor (inject_Z L / 4))%Z /\
      speed e = 1 + inject_Z L * 0.15 /\
      direction e = 1%Z.
Proof.
  intro HL. destruct (wave_sizes L HL) as [HB [HR [HC Hfit]]].
  split; [intros L' ->; reflexivity |].
  rewrite (generateWave_layout L HL), wavePrefix_length.
  split; [unfold baseEnemies in *; lia |]. split; [reflexivity |].
  intros k Hk row col.
  assert (Hcol : (0 <= col < waveCols L)%Z)
    by (apply Z.mod_pos_bound; lia).
  assert (Hrow : (0 <= row < waveRows L)%Z).
  { split; [apply Z.div_pos; lia |].
    apply Z.div_lt_upper_bound; [lia |]. nia. }
  split; [exact Hrow |]. split; [exact Hcol |].
  exists (waveCell L k). split; [apply wavePrefix_nth; exact Hk |].
  unfold waveCell, waveEnemy. fold row. fold col. cbn.
  repeat split. apply Z.rem_mod_nonneg; lia.
Qed.

Lemma generateWave_spec_witness :
  (1 <= 1)%Z /\ Z.of_nat (length (generateWave 1)) = 5%Z.
Proof.
  assert (H : (1 <= 1)%Z) by lia.
  split; [exact H |].
  exact (proj1 (proj2 (generateWave_spec 1 H))).
Defined.

(** ** Losing lives *)

(** What one pass of the body of the player-enemy loop does to the lives
    and to the game-over flag. *)
Lemma crashEnemy_cases (p : Entity) (e : Enemy) (c : CrashState) :
  snd (crashEnemy p e c) = c \/
  (active e = true /\ checkCollision p e = true /\
   csLives (snd (crashEnemy p e c)) = (csLives c - 1)%Z /\
   csGameOver (snd (crashEnemy p e c)) =
     if (csLives c - 1 <=? 0)%Z then true else csGameOver c).
Proof.
  unfold crashEnemy.
  destruct (active e) eqn:A; cbn [negb]; [| left; reflexivity].
  destruct (checkCollision p e) eqn:C; cbn [orb].
  - right.
    destruct (Qgtb (y e) (CANVAS_HEIGHT - 100));
      cbn [setActive enemySpec specBox]; rewrite C; cbn [snd csLives csGameOver];
      auto.
  - destruct (Qgtb (y e) (CANVAS_HEIGHT - 100));
      cbn [setActive enemySpec specBox]; try rewrite C; left; reflexivity.
Qed.

Lemma crashEnemy_hit (p : Entity) (e : Enemy) (c : CrashState) :
  active e = true -> checkCollision p e = true ->
  active (fst (crashEnemy p e c)) = false /\
  csLives (snd (crashEnemy p e c)) = (csLives c - 1)%Z /\
  csGameOver (snd (crashEnemy p e c)) =
    (if (csLives c - 1 <=? 0)%Z then true else csGameOver c).
Proof.
  intros A C. unfold crashEnemy. rewrite A, C. cbn [negb orb].
  destruct (Qgtb (y e) (CANVAS_HEIGHT - 100));
    cbn [setActive enemySpec specBox]; rewrite C; repeat split.
Qed.

Lemma crashEnemies_lives (p : Entity) (es : list Enemy) :
  forall c,
    let c' := snd (crashEnemies p es c) in
    (csLives c' <= csLives c)%Z /\
    (csGameOver c = true -> csGameOver c' = true) /\
    ((csLives c' < csLives c)%Z -> (csLives c' <= 0)%Z ->
     csGameOver c' = true).
Proof.
  induction es as [| e rest IH]; intro c; cbn [crashEnemies].
  - cbn. repeat split; intros; auto; lia.
  - destruct (crashEnemy p e c) as [e' c1] eqn:E1.
    destruct (crashEnemies p rest c1) as [rest' c2] eqn:E2.
    specialize (IH c1). rewrite E2 in IH. cbn [snd] in *.
    destruct IH as [IH1 [IH2 IH3]].
    pose proof (crashEnemy_cases p e c) as Hc. rewrite E1 in Hc.
    cbn [snd] in Hc.
    destruct Hc as [-> | [_ [_ [Hl Hg]]]]; [auto |].
    split; [lia |]. split.
    + intro G. apply IH2. rewrite Hg, G. destruct (_ <=? _)%Z; reflexivity.
    + intros Hlt Hle.
      destruct (Z.eq_dec (csLives c2) (csLives c1)) as [Heq | Hne].
      * apply IH2. rewrite Hg.
        destruct (Z.leb_spec (csLives c - 1) 0); [reflexivity | lia].
      * apply IH3; lia.
Qed.

Lemma playerEnemyCollision_lives (s : GameState) :
  let s' := playerEnemyCollision s in
  (lives s' <= lives s)%Z /\
  (gameOver s = true -> gameOver s' = true) /\
  ((lives s' < lives s)%Z -> (lives s' <= 0)%Z -> gameOver s' = true) /\
  started s' = started s /\ level s' = level s /\ score s' = score s /\
  levelComplete s' = levelComplete s /\
  levelTransition s' = levelTransition s.
Proof.
  unfold playerEnemyCollision.
  pose proof (crashEnemies_lives (player s) (enemies s)
                (mkCrashState (lives s) (gameOver s) (explosions s))) as H.
  destruct (crashEnemies _ _ _) as [es c]. cbn in *.
  destruct H as [H1 [H2 H3]]. repeat split; auto.
Qed.

Lemma checkWaveComplete_keeps (s : GameState) :
  let s' := checkWaveComplete s in
  lives s' = lives s /\ gameOver s' = gameOver s /\
  started s' = started s /\ level s' = level s /\ score s' = score s /\
  enemies s' = enemies s /\ bullets s' = bullets s /\
  explosions s' = explosions s.
Proof.
  unfold checkWaveComplete. destruct (_ && _); repeat split.
Qed.

Lemma modeOf_Playing (s : GameState) :
  modeOf s = Playing <->
  started s = true /\ gameOver s = false /\ levelTransition s = false.
Proof.
  unfold modeOf.
  destruct (started s), (gameOver s), (levelTransition s); cbn;
    split; try discriminate; try tauto; intros [? [? ?]]; discriminate.
Qed.

Lemma modeOf_GameOver (s : GameState) :
  modeOf s = GameOver <-> started s = true /\ gameOver s = true.
Proof.
  unfold modeOf.
  destruct (started s), (gameOver s), (levelTransition s); cbn;
    split; try discriminate; try tauto; intros [? ?]; discriminate.
Qed.

Lemma modeOf_LevelTransition (s : GameState) :
  modeOf s = LevelTransition <->
  started s = true /\ gameOver s = false /\ levelTransition s = true.
Proof.
  unfold modeOf.
  destruct (started s), (gameOver s), (levelTransition s); cbn;
    split; try discriminate; try tauto; intros [? [? ?]]; discriminate.
Qed.

Lemma beforeCrash_session (s : GameState) : sameSession s (beforeCrash s).
Proof.
  unfold beforeCrash.
  eapply sameSession_trans; [apply updateBullets_session |].
  eapply sameSession_trans; [apply updateEnemies_session |].
  apply bulletEnemyCollision_session.
Qed.

Lemma simulate_steps (s : GameState) :
  simulate s =
  updateExplosions
    (checkWaveComplete (playerEnemyCollision (beforeCrash s))).
Proof. reflexivity. Qed.

Lemma simulate_lives (s : GameState) :
  let s' := simulate s in
  (lives s' <= lives s)%Z /\
  ((lives s' < lives s)%Z -> (lives s' <= 0)%Z -> gameOver s' = true) /\
  started s' = started s /\ level s' = level s.
Proof.
  cbv zeta. rewrite simulate_steps.
  destruct (beforeCrash_session s)
    as [_ [Hl [Hv [_ [_ [_ [_ Hs]]]]]]].
  destruct (playerEnemyCollision_lives (beforeCrash s))
    as [H1 [_ [H3 [H4 [H5 _]]]]].
  destruct (checkWaveComplete_keeps (playerEnemyCollision (beforeCrash s)))
    as [K1 [K2 [K3 [K4 _]]]].
  destruct (updateExplosions_session
              (checkWaveComplete (playerEnemyCollision (beforeCrash s))))
    as [_ [U1 [U2 [U3 [_ [_ [_ U4]]]]]]].
  rewrite U1, U2, U3, U4, K1, K2, K3, K4, H4, H5, Hs, Hv, <- Hl.
  repeat split; auto.
Qed.

Lemma handleInput_session (now : Z) (w : World) :
  let s := gameStateRef w in
  let s' := gameStateRef (handleInput now w) in
  lives s' = lives s /\ level s' = level s /\ score s' = score s /\
  gameOver s' = gameOver s /\ started s' = started s /\
  levelComplete s' = levelComplete s /\
  levelTransition s' = levelTransition s /\ enemies s' = enemies s /\
  y (player s') = y (player s) /\ height (player s') = height (player s).
Proof.
  unfold handleInput, movePlayer.
  destruct (_ && _), (leftHeld _), (rightHeld _); repeat split.
Qed.

(** C4: a frame of play that takes lives away and leaves none ends in
    game over; and from 3 lives, three collisions of the player with three
    active enemies in a row leave 2, then 1, then 0 lives, the flag being
    raised by the third and not before. *)
Theorem lives_exhausted_is_game_over
    (now : Z) (w : World) (p : Entity) (e1 e2 e3 : Enemy)
    (exps : list Explosion) :
  (modeOf (gameStateRef w) = Playing ->
   let s' := gameStateRef (gameLoop now w) in
   (lives s' < lives (gameStateRef w))%Z -> (lives s' <= 0)%Z ->
   gameOver s' = true /\ modeOf s' = GameOver) /\
  (active e1 = true -> active e2 = true -> active e3 = true ->
   checkCollision p e1 = true -> checkCollision p e2 = true ->
   checkCollision p e3 = true ->
   let c1 := snd (crashEnemy p e1 (mkCrashState INITIAL_LIVES false exps)) in
   let c2 := snd (crashEnemy p e2 c1) in
   let c3 := snd (crashEnemy p e3 c2) in
   (csLives c1 = 2%Z /\ csGameOver c1 = false) /\
   (csLives c2 = 1%Z /\ csGameOver c2 = false) /\
   (csLives c3 = 0%Z /\ csGameOver c3 = true)).
Proof.
  split.
  - intro HP. apply modeOf_Playing in HP. destruct HP as [Hs [Hg Ht]].
    unfold gameLoop. rewrite Hs, Hg, Ht. cbn [negb].
    unfold playingFrame. cbn [gameStateRef]. cbv zeta.
    destruct (handleInput_session now w) as [Hl [_ [_ [_ [Hst _]]]]].
    cbv zeta in Hl, Hst.
    destruct (simulate_lives (gameStateRef (handleInput now w)))
      as [_ [H2 [H3 _]]].
    cbv zeta in H2, H3. rewrite Hl in H2.
    intros Hlt Hle. pose proof (H2 Hlt Hle) as G.
    split; [exact G |]. apply modeOf_GameOver. split; [| exact G].
    rewrite H3, Hst. exact Hs.
  - intros A1 A2 A3 C1 C2 C3. cbv zeta.
    set (c0 := mkCrashState INITIAL_LIVES false exps).
    destruct (crashEnemy_hit p e1 c0 A1 C1) as [_ [L1 G1]].
    set (c1 := snd (crashEnemy p e1 c0)) in *.
    destruct (crashEnemy_hit p e2 c1 A2 C2) as [_ [L2 G2]].
    set (c2 := snd (crashEnemy p e2 c1)) in *.
    destruct (crashEnemy_hit p e3 c2 A3 C3) as [_ [L3 G3]].
    cbn in L1, G1. rewrite L1 in L2, G2. rewrite G1 in G2. cbn in L2, G2.
    rewrite L2 in L3, G3. cbn in L3, G3.
    auto.
Qed.

Lemma lives_exhausted_is_game_over_witness :
  let e1 := foe 270 640 1 1 true in
  let e2 := foe 280 640 1 1 true in
  let e3 := foe 290 640 1 1 true in
  let p := player initialGameState in
  let s' := gameStateRef (gameLoop 0 crashWorld) in
  modeOf (gameStateRef crashWorld) = Playing /\
  (lives s' < lives (gameStateRef crashWorld))%Z /\ (lives s' <= 0)%Z /\
  modeOf s' = GameOver /\
  csLives (snd (crashEnemy p e3 (snd (crashEnemy p e2
    (snd (crashEnemy p e1 (mkCrashState INITIAL_LIVES false []))))))) = 0%Z.
Proof.
  intros e1 e2 e3 p s'.
  pose proof (lives_exhausted_is_game_over 0 crashWorld p e1 e2 e3 [])
    as [H1 H2].
  assert (Hlt : (lives s' < lives (gameStateRef crashWorld))%Z)
    by (vm_compute; reflexivity).
  assert (Hle : (lives s' <= 0)%Z) by (vm_compute; discriminate).
  split; [reflexivity |]. split; [exact Hlt |]. split; [exact Hle |].
  split.
  - exact (proj2 (H1 eq_refl Hlt Hle)).
  - exact (proj1 (proj2 (proj2
             (H2 eq_refl eq_refl eq_refl eq_refl eq_refl eq_refl)))).
Defined.

(** ** Clearing a wave *)
















Lemma initWave_enemies (lvl : Z) (s : GameState) :
  enemies (initWave lvl s) = map freshEnemy (generateWave lvl).
Proof. reflexivity. Qed.

Lemma run_app (evs1 evs2 : list Event) (w : World) :
  run (evs1 ++ evs2) w = run evs2 (run evs1 w).
Proof. unfold run. apply fold_left_app. Qed.





(** ** One bullet, several enemies *)

(** The body of the inner loop never reads [bullet.active]: what it does to
    the enemy is the same for a spent bullet as for a live one. *)
Lemma hitEnemy_ignores_bullet_active
    (lvl : Z) (e : Enemy) (b : Bullet) (sc : Z) (exps : list Explosion) :
  fst (hitEnemy lvl e (mkHitState (setBulletActive false b) sc exps)) =
  fst (hitEnemy lvl e (mkHitState b sc exps)).
Proof.
  unfold hitEnemy. cbn [hsBullet setBulletActive bulletBox].
  destruct (negb (active e)); [reflexivity |].
  destruct (checkCollision b e); [| reflexivity].
  cbv zeta. destruct (_ <=? _)%Z; reflexivity.
Qed.

(** What keeps a bullet from a second enemy is therefore not a test of the
    loop but the distance between the enemies: on the pool of [pierceWorld],
    two overlapping enemies that no run of the game produces, the single
    shot takes a point of health from both of them in one frame. *)
Lemma one_bullet_hits_two_enemies :
  let s := gameStateRef pierceWorld in
  let s' := gameStateRef (gameLoop 0 pierceWorld) in
  modeOf s = Playing /\
  length (bullets s) = 1%nat /\
  map (fun e : Enemy => health e) (enemies s) = [2%Z; 2%Z] /\
  map (fun e : Enemy => health e) (enemies s') = [1%Z; 1%Z] /\
  map hitFlash (enemies s') = [1; 1] /\
  map bulletActive (bullets s') = [false] /\
  length (explosions s') = 2%nat.
Proof. vm_compute. repeat split. Qed.

(** ** Lives and score keep their sign *)

Lemma above_weaken (b b' : Q) (e : Enemy) :
  b <= b' -> above b e -> above b' e.
Proof.
  intros Hb H A. destruct (H A) as [Hy Hh]. split; [| exact Hh].
  eapply Qle_trans; eassumption.
Qed.

Lemma movedEnemy_above (b : Q) (e : Enemy) :
  above b e -> above b (movedEnemy e).
Proof.
  intros H A. rewrite movedEnemy_active in A.
  destruct (movedEnemy_fields e) as [Hy [_ [Hh _]]].
  rewrite Hy, Hh. exact (H A).
Qed.

Lemma bounceEnemy_above (b : Q) (e : Enemy) :
  above b e -> above (b + 20) (bounceEnemy e).
Proof.
  intros H A. unfold bounceEnemy in *.
  destruct (active e) eqn:E.
  - destruct (H E) as [Hy Hh]. cbn. split; [lra | exact Hh].
  - rewrite E in A. discriminate.
Qed.

Lemma updateEnemies_above (b : Q) (s : GameState) :
  Forall (above b) (enemies s) ->
  Forall (above (b + 20)) (enemies (updateEnemies s)).
Proof.
  intro H. rewrite updateEnemies_enemies.
  destruct (existsb _ _).
  - rewrite map_map. apply Forall_map.
    eapply Forall_impl; [| exact H].
    intros e He. apply bounceEnemy_above, movedEnemy_above. exact He.
  - apply Forall_map. eapply Forall_impl; [| exact H].
    intros e He. apply (above_weaken b); [lra |].
    apply movedEnemy_above. exact He.
Qed.

Lemma hitEnemy_keeps (lvl : Z) (e : Enemy) (h : HitState) :
  let r := hitEnemy lvl e h in
  specBox (fst r) = specBox e /\
  (active (fst r) = true -> active e = true) /\
  ((0 <= lvl)%Z -> (hsScore h <= hsScore (snd r))%Z).
Proof.
  unfold hitEnemy. cbv zeta.
  destruct (active e) eqn:A; cbn [negb].
  - destruct (checkCollision (hsBullet h) e).
    + cbn [health setHitFlash setHealth enemySpec].
      destruct (health e - 1 <=? 0)%Z;
        cbn [fst snd hsScore specBox enemySpec setActive setHitFlash
             setHealth active];
        repeat split; intros; auto; lia.
    + cbn [fst snd]. repeat split; intros; auto; lia.
  - cbn [fst snd]. repeat split; intros; auto; try congruence; lia.
Qed.

Lemma hitEnemy_above (b : Q) (lvl : Z) (e : Enemy) (h : HitState) :
  above b e -> above b (fst (hitEnemy lvl e h)).
Proof.
  intros H A. destruct (hitEnemy_keeps lvl e h) as [Hb [Ha _]].
  cbv zeta in *. unfold y, height. rewrite Hb. exact (H (Ha A)).
Qed.

Lemma hitEnemies_keeps (b : Q) (lvl : Z) (es : list Enemy) :
  forall h,
    Forall (above b) es ->
    Forall (above b) (fst (hitEnemies lvl es h)) /\
    ((0 <= lvl)%Z -> (hsScore h <= hsScore (snd (hitEnemies lvl es h)))%Z).
Proof.
  induction es as [| e rest IH]; intros h H; cbn [hitEnemies].
  - cbn. split; [constructor | lia].
  - inversion H as [| ? ? He Hrest]; subst.
    pose proof (hitEnemy_above b lvl e h He) as H1.
    destruct (hitEnemy_keeps lvl e h) as [_ [_ H2]]. cbv zeta in H2.
    destruct (hitEnemy lvl e h) as [e' h1].
    destruct (IH h1 Hrest) as [I1 I2].
    destruct (hitEnemies lvl rest h1) as [rest' h2]. cbn [fst snd] in *.
    split; [constructor; assumption | intro Hl; specialize (H2 Hl); lia].
Qed.

Lemma hitBullets_keeps (b : Q) (bs : list Bullet) :
  forall s,
    Forall (above b) (enemies s) -> (0 <= level s)%Z ->
    Forall (above b) (enemies (snd (hitBullets bs s))) /\
    (score s <= score (snd (hitBullets bs s)))%Z.
Proof.
  induction bs as [| b0 rest IH]; intros s H Hl; cbn [hitBullets].
  - cbn. split; [exact H | lia].
  - destruct (negb (bulletActive b0)).
    + specialize (IH s H Hl). destruct (hitBullets rest s) as [r t].
      exact IH.
    + destruct (hitEnemies_keeps b (level s) (enemies s)
                  (mkHitState b0 (score s) (explosions s)) H) as [K1 K2].
      destruct (hitEnemies _ _ _) as [es h]. cbn [fst snd] in *.
      set (s1 := setExplosions _ _).
      destruct (IH s1) as [I1 I2]; [exact K1 | exact Hl |].
      destruct (hitBullets rest s1) as [r t]. cbn [fst snd] in *.
      split; [exact I1 |]. specialize (K2 Hl). cbn in K2, I2. lia.
Qed.

Lemma beforeCrash_keeps (b : Q) (s : GameState) :
  Forall (above b) (enemies s) -> (0 <= level s)%Z ->
  Forall (above (b + 20)) (enemies (beforeCrash s)) /\
  (score s <= score (beforeCrash s))%Z.
Proof.
  intros H Hl. unfold beforeCrash, bulletEnemyCollision.
  pose proof (updateEnemies_above b (updateBullets s) H) as H1.
  destruct (updateEnemies_session (updateBullets s)) as [_ [_ [Hv _]]].
  assert (Hsc : score (updateEnemies (updateBullets s)) = score s).
  { unfold updateEnemies.
    destruct (advanceEnemies _ _) as [es h]. destruct h; reflexivity. }
  set (s1 := updateEnemies (updateBullets s)) in *.
  destruct (hitBullets_keeps (b + 20) (bullets s1) s1 H1) as [K1 K2];
    [cbn in Hv; lia |].
  destruct (hitBullets (bullets s1) s1) as [bs t]. cbn in *.
  split; [exact K1 | lia].
Qed.

(** The player's box starts at [y = 650]; an active enemy no lower than 620
    ends at 648 at most and cannot touch it. *)
Lemma no_contact (p : Entity) (e : Enemy) :
  y p = CANVAS_HEIGHT - PLAYER_HEIGHT - 20 ->
  y e <= CANVAS_HEIGHT - 100 + 20 -> height e = ENEMY_HEIGHT ->
  checkCollision p e = false.
Proof.
  intros Hp Hy Hh.
  destruct (checkCollision p e) eqn:C; [| reflexivity].
  apply checkCollision_true in C. destruct C as [_ [_ [C _]]].
  rewrite Hp, Hh in C.
  unfold CANVAS_HEIGHT, PLAYER_HEIGHT, ENEMY_HEIGHT in *. lra.
Qed.

Lemma crashEnemy_clear (p : Entity) (e : Enemy) (c : CrashState) :
  y p = CANVAS_HEIGHT - PLAYER_HEIGHT - 20 ->
  above (CANVAS_HEIGHT - 100 + 20) e ->
  snd (crashEnemy p e c) = c /\
  above (CANVAS_HEIGHT - 100) (fst (crashEnemy p e c)).
Proof.
  intros Hp H. unfold crashEnemy.
  destruct (active e) eqn:A; cbn [negb].
  - destruct (H A) as [Hy Hh].
    rewrite (no_contact p e Hp Hy Hh). cbn [orb].
    destruct (Qgtb (y e) (CANVAS_HEIGHT - 100)) eqn:G.
    + cbn [setActive enemySpec specBox].
      rewrite (no_contact p e Hp Hy Hh). cbn [fst snd].
      split; [reflexivity |]. intro A'. discriminate.
    + cbn [fst snd]. split; [reflexivity |]. intros _.
      split; [| exact Hh]. apply Qltb_false_iff. exact G.
  - cbn [fst snd]. split; [reflexivity |]. intro A'. congruence.
Qed.

Lemma crashEnemies_clear (p : Entity) (es : list Enemy) :
  y p = CANVAS_HEIGHT - PLAYER_HEIGHT - 20 ->
  Forall (above (CANVAS_HEIGHT - 100 + 20)) es ->
  forall c,
    snd (crashEnemies p es c) = c /\
    Forall (above (CANVAS_HEIGHT - 100)) (fst (crashEnemies p es c)).
Proof.
  intros Hp H. induction H as [| e rest He _ IH]; intro c;
    cbn [crashEnemies].
  - split; [reflexivity | constructor].
  - destruct (crashEnemy_clear p e c Hp He) as [K1 K2].
    destruct (crashEnemy p e c) as [e' c1]. cbn [fst snd] in *. subst c1.
    destruct (IH c) as [I1 I2].
    destruct (crashEnemies p rest c) as [rest' c2]. cbn [fst snd] in *.
    split; [exact I1 | constructor; assumption].
Qed.

Lemma playerEnemyCollision_clear (s : GameState) :
  y (player s) = CANVAS_HEIGHT - PLAYER_HEIGHT - 20 ->
  Forall (above (CANVAS_HEIGHT - 100 + 20)) (enemies s) ->
  lives (playerEnemyCollision s) = lives s /\
  gameOver (playerEnemyCollision s) = gameOver s /\
  Forall (above (CANVAS_HEIGHT - 100)) (enemies (playerEnemyCollision s)).
Proof.
  intros Hp H. unfold playerEnemyCollision.
  destruct (crashEnemies_clear (player s) (enemies s) Hp H
              (mkCrashState (lives s) (gameOver s) (explosions s)))
    as [K1 K2].
  destruct (crashEnemies _ _ _) as [es c]. cbn [fst snd] in *. subst c.
  cbn. auto.
Qed.

Lemma simulate_sound (s : GameState) : sound s -> sound (simulate s).
Proof.
  intros [Hp [Hl [Hs [Hv He]]]]. rewrite simulate_steps.
  destruct (beforeCrash_session s) as [Bp [Bl [Bv _]]].
  destruct (beforeCrash_keeps _ s He) as [B1 B2]; [lia |].
  set (s3 := beforeCrash s) in *.
  destruct (playerEnemyCollision_clear s3) as [P1 [_ P3]];
    [rewrite Bp; exact Hp | exact B1 |].
  pose proof (playerEnemyCollision_player s3) as Pp.
  destruct (playerEnemyCollision_lives s3) as [_ [_ [_ [_ [Pv [Ps _]]]]]].
  cbv zeta in *. set (s4 := playerEnemyCollision s3) in *.
  pose proof (checkWaveComplete_player s4) as Wp.
  destruct (checkWaveComplete_keeps s4) as [Wl [_ [_ [Wv [Ws [We _]]]]]].
  cbv zeta in *. set (s5 := checkWaveComplete s4) in *.
  unfold sound, updateExplosions.
  cbn [player lives score level enemies setExplosions].
  rewrite Wp, Wl, Wv, Ws, We, Pp, P1, Pv, Ps, Bp, Bl, Bv.
  repeat split; try assumption. lia.
Qed.

Lemma handleInput_sound (now : Z) (w : World) :
  sound (gameStateRef w) -> sound (gameStateRef (handleInput now w)).
Proof.
  intros [Hp [Hl [Hs [Hv He]]]].
  destruct (handleInput_session now w)
    as [Il [Iv [Is [_ [_ [_ [_ [Ie [Iy _]]]]]]]]].
  cbv zeta in *. unfold sound. rewrite Il, Iv, Is, Ie, Iy. auto.
Qed.

Lemma generateWave_above (L : Z) :
  (1 <= L)%Z ->
  Forall (above (CANVAS_HEIGHT - 100)) (map freshEnemy (generateWave L)).
Proof.
  intro HL. destruct (wave_sizes L HL) as [HB [HR [HC Hfit]]].
  rewrite (generateWave_layout L HL). unfold wavePrefix.
  rewrite map_map. apply Forall_forall. intros e Hin.
  apply in_map_iff in Hin. destruct Hin as [k [<- Hk]].
  apply in_seq in Hk. intros _. split; [| reflexivity].
  assert (Hrow : (0 <= Z.of_nat k / waveCols L <= 3)%Z).
  { split; [apply Z.div_pos; lia |].
    assert (Z.of_nat k / waveCols L < waveRows L)%Z; [| lia].
    apply Z.div_lt_upper_bound; [lia |]. nia. }
  destruct Hrow as [_ Hrow]. rewrite Zle_Qle in Hrow.
  unfold freshEnemy, waveCell, waveEnemy. cbn [y enemySpec specBox].
  generalize dependent (inject_Z (Z.of_nat k / waveCols L)). intros r Hr.
  change (inject_Z 3) with 3 in Hr.
  unfold startY, CANVAS_HEIGHT. lra.
Qed.

Lemma resetGame_fields (s : GameState) :
  y (player (resetGame s)) = y (player s) /\
  lives (resetGame s) = INITIAL_LIVES /\ score (resetGame s) = 0%Z /\
  level (resetGame s) = 1%Z /\
  enemies (resetGame s) = map freshEnemy (generateWave 1).
Proof. destruct s. repeat split. Qed.

Lemma resetGame_sound (s : GameState) :
  y (player s) = CANVAS_HEIGHT - PLAYER_HEIGHT - 20 -> sound (resetGame s).
Proof.
  intro Hp. destruct (resetGame_fields s) as [Ry [Rl [Rs [Rv Re]]]].
  unfold sound. rewrite Ry, Rl, Rs, Rv, Re.
  repeat split; try assumption; try lia.
  apply generateWave_above. lia.
Qed.

Lemma levelTransitionFrame_sound (s : GameState) :
  sound s -> sound (levelTransitionFrame s).
Proof.
  intros [Hp [Hl [Hs [Hv He]]]]. unfold levelTransitionFrame.
  cbn [transitionTimer setTransitionTimer].
  destruct (_ <=? _)%Z.
  - unfold sound, initWave.
    cbn [player lives score level enemies setEnemies setLevelComplete
         setLevelTransition setLevel setTransitionTimer].
    split; [exact Hp |]. split; [exact Hl |]. split; [exact Hs |].
    split; [lia |]. apply generateWave_above. lia.
  - unfold sound.
    cbn [player lives score level enemies setTransitionTimer]. auto.
Qed.

Lemma gameLoop_sound (now : Z) (w : World) :
  sound (gameStateRef w) -> sound (gameStateRef (gameLoop now w)).
Proof.
  intro H. unfold gameLoop.
  destruct (negb (started (gameStateRef w))); [exact H |].
  destruct (gameOver (gameStateRef w)); [exact H |].
  destruct (levelTransition (gameStateRef w)).
  - cbn [gameStateRef]. apply levelTransitionFrame_sound. exact H.
  - unfold playingFrame. cbn [gameStateRef].
    apply simulate_sound, handleInput_sound. exact H.
Qed.

Lemma handleKeyDown_sound (key : string) (w : World) :
  sound (gameStateRef w) -> sound (gameStateRef (handleKeyDown key w)).
Proof.
  intro H. unfold handleKeyDown. cbn [gameStateRef].
  assert (R : forall s, sound s -> sound (resetGame s))
    by (intros s [Hp _]; apply resetGame_sound; exact Hp).
  destruct (_ && negb _); destruct (_ && gameOver _); auto.
Qed.

Lemma reachable_sound (w : World) : reachable w -> sound (gameStateRef w).
Proof.
  induction 1 as [| w ev _ IH].
  - unfold sound. cbn. repeat split; try lia. constructor.
  - destruct ev; cbn [step].
    + apply handleKeyDown_sound. exact IH.
    + exact IH.
    + apply gameLoop_sound. exact IH.
Qed.

(** C3: in every state reached from the initial state by key events and
    frames, [lives >= 0] and [score >= 0], and one more frame leaves
    [lives >= 0]; indeed [lives] is still 3, since an active enemy is
    removed at the breach line before it can get down to the player. *)
Theorem lives_and_score_never_negative (evs : list Event) (now : Z) :
  let w := run evs initialWorld in
  (0 <= lives (gameStateRef w))%Z /\ (0 <= score (gameStateRef w))%Z /\
  (0 <= lives (gameStateRef (gameLoop now w)))%Z /\
  lives (gameStateRef w) = INITIAL_LIVES.
Proof.
  intro w.
  assert (R : reachable w) by (apply run_reachable, reach_init).
  destruct (reachable_sound w R) as [_ [Hl [Hs _]]].
  destruct (reachable_sound _ (reach_step w (Frame now) R))
    as [_ [Hl' _]].
  cbn [step] in Hl'. rewrite Hl, Hl'. unfold INITIAL_LIVES.
  repeat split; lia.
Qed.

(** The player-enemy loop on its own has no floor: from a state with one
    life and two enemies on the player (a state that [reachable_sound] rules
    out of every run) one frame leaves [lives = -1]. *)
Lemma crash_loop_has_no_floor :
  lives (gameStateRef lastLifeWorld) = 1%Z /\
  lives (gameStateRef (gameLoop 0 lastLifeWorld)) = (-1)%Z /\
  modeOf (gameStateRef (gameLoop 0 lastLifeWorld)) = GameOver.
Proof. vm_compute. repeat split. Qed.

(** * Further properties of the code *)

(** ** Boxes that do not collide *)

Lemma checkCollision_false (a b : Entity) :
  checkCollision a b = false <->
  x b + width b <= x a \/ x a + width a <= x b \/
  y b + height b <= y a \/ y a + height a <= y b.
Proof.
  unfold checkCollision, Qgtb.
  rewrite !andb_false_iff, !Qltb_false_iff. tauto.
Qed.

(** X1: two boxes fail the collision test exactly when one of them lies
    entirely to one side of the other; in particular boxes that only share
    an edge, side by side or one on top of the other, do not collide. *)
Theorem checkCollision_false_iff (a b : Entity) :
  (checkCollision a b = false <->
   x b + width b <= x a \/ x a + width a <= x b \/
   y b + height b <= y a \/ y a + height a <= y b) /\
  (x a + width a == x b -> checkCollision a b = false) /\
  (y a + height a == y b -> checkCollision a b = false).
Proof.
  split; [apply checkCollision_false |].
  split; intro H; apply checkCollision_false; rewrite H.
  - right. left. apply Qle_refl.
  - right. right. right. apply Qle_refl.
Qed.

Lemma checkCollision_false_iff_witness :
  let a := mkEntity 0 0 10 10 in
  let b := mkEntity 10 0 10 10 in
  let c := mkEntity 0 10 10 10 in
  x a + width a == x b /\ checkCollision a b = false /\
  y a + height a == y c /\ checkCollision a c = false.
Proof.
  intros a b c.
  assert (H1 : x a + width a == x b) by reflexivity.
  assert (H2 : y a + height a == y c) by reflexivity.
  split; [exact H1 |].
  split; [exact (proj1 (proj2 (checkCollision_false_iff a b)) H1) |].
  split; [exact H2 |].
  exact (proj2 (proj2 (checkCollision_false_iff a c)) H2).
Defined.

(** ** Bullets *)

Lemma filter_length_le {A : Type} (f : A -> bool) (l : list A) :
  (length (filter f l) <= length l)%nat.
Proof.
  induction l as [| a l IH]; cbn [filter length]; [lia |].
  destruct (f a); cbn [length]; lia.
Qed.

(** X2: after the bullet update of a frame every bullet left in the pool is
    active and still below the top margin ([y > -12]); each of them is a
    bullet of the old pool moved up by 12, and the pool has not grown. *)
Theorem updateBullets_prunes (s : GameState) :
  Forall (fun b : Bullet => bulletActive b = true /\ - BULLET_HEIGHT < y b)
         (bullets (updateBullets s)) /\
  (forall b, In b (bullets (updateBullets s)) ->
     exists b0, In b0 (bullets s) /\ bulletActive b0 = true /\
                b = moveBullet b0 /\ y b = y b0 - BULLET_SPEED /\
                x b = x b0) /\
  (length (bullets (updateBullets s)) <= length (bullets s))%nat.
Proof.
  unfold updateBullets. cbn [bullets setBullets]. repeat split.
  - apply Forall_forall. intros b Hb. apply filter_In in Hb.
    destruct Hb as [_ Hb]. apply andb_true_iff in Hb. destruct Hb as [Hy Ha].
    apply Qgtb_iff in Hy. auto.
  - intros b Hb. apply filter_In in Hb. destruct Hb as [Hin Hb].
    apply in_map_iff in Hin. destruct Hin as [b0 [<- Hin]].
    apply andb_true_iff in Hb. destruct Hb as [_ Ha].
    exists b0. repeat split; auto.
  - eapply Nat.le_trans; [apply filter_length_le |].
    rewrite length_map. lia.
Qed.

(** ** Keys and frames outside play *)

(** X3: once the game has started and is not over, no key press changes the
    game state or the time of the last shot: the space bar does not restart a
    game in progress, and [r] restarts only after a game over. *)
Theorem no_reset_during_play (key : string) (w : World) :
  started (gameStateRef w) = true -> gameOver (gameStateRef w) = false ->
  gameStateRef (handleKeyDown key w) = gameStateRef w /\
  lastShootRef (handleKeyDown key w) = lastShootRef w /\
  has key (keysRef (handleKeyDown key w)) = true.
Proof.
  intros Hs Hg. unfold handleKeyDown.
  cbn [gameStateRef lastShootRef keysRef]. rewrite Hs.
  rewrite andb_false_r. rewrite Hg, andb_false_r.
  repeat split. unfold add.
  destruct (has key (keysRef w)) eqn:E; [exact E |].
  unfold has. rewrite existsb_app. cbn [existsb].
  rewrite String.eqb_refl, orb_true_r. reflexivity.
Qed.

Lemma no_reset_during_play_witness :
  started (gameStateRef crashWorld) = true /\
  gameOver (gameStateRef crashWorld) = false /\
  gameStateRef (handleKeyDown " " crashWorld) = gameStateRef crashWorld.
Proof.
  split; [reflexivity |]. split; [reflexivity |].
  exact (proj1 (no_reset_during_play " " crashWorld eq_refl eq_refl)).
Defined.

(** X4: a frame does nothing at all before the start and after a game
    over; during a level transition it reads no key: the player, the
    bullets, the explosions, the score, the lives and the time of the last
    shot are left as they are, whatever is held. *)
Theorem frames_outside_play (now : Z) (w : World) :
  (modeOf (gameStateRef w) = NotStarted -> gameLoop now w = w) /\
  (modeOf (gameStateRef w) = GameOver -> gameLoop now w = w) /\
  (modeOf (gameStateRef w) = LevelTransition ->
   let s := gameStateRef w in
   let s' := gameStateRef (gameLoop now w) in
   player s' = player s /\ bullets s' = bullets s /\
   explosions s' = explosions s /\ score s' = score s /\
   lives s' = lives s /\
   keysRef (gameLoop now w) = keysRef w /\
   lastShootRef (gameLoop now w) = lastShootRef w).
Proof.
  unfold modeOf, gameLoop.
  destruct (started (gameStateRef w)); cbn [negb];
    [| repeat split; discriminate].
  destruct (gameOver (gameStateRef w));
    [repeat split; discriminate |].
  destruct (levelTransition (gameStateRef w));
    [| repeat split; discriminate].
  split; [discriminate |]. split; [discriminate |]. intros _.
  cbn [gameStateRef keysRef lastShootRef]. unfold levelTransitionFrame.
  cbn [transitionTimer setTransitionTimer].
  destruct (_ <=? _)%Z; repeat split.
Qed.

Lemma frames_outside_play_witness :
  modeOf (gameStateRef initialWorld) = NotStarted /\
  gameLoop 0 initialWorld = initialWorld /\
  modeOf (gameStateRef (gameLoop 0 lastLifeWorld)) = GameOver /\
  gameLoop 1 (gameLoop 0 lastLifeWorld) = gameLoop 0 lastLifeWorld /\
  modeOf (gameStateRef (gameLoop 0 clearedWorld)) = LevelTransition /\
  bullets (gameStateRef (gameLoop 1 (gameLoop 0 clearedWorld))) =
    bullets (gameStateRef (gameLoop 0 clearedWorld)).
Proof.
  split; [reflexivity |].
  split;
    [exact (proj1 (frames_outside_play 0 initialWorld) eq_refl) |].
  assert (G : modeOf (gameStateRef (gameLoop 0 lastLifeWorld)) = GameOver)
    by reflexivity.
  split; [exact G |].
  split;
    [exact (proj1 (proj2 (frames_outside_play 1 (gameLoop 0 lastLifeWorld)))
              G) |].
  assert (T : modeOf (gameStateRef (gameLoop 0 clearedWorld))
              = LevelTransition) by reflexivity.
  split; [exact T |].
  exact (proj1 (proj2 (proj2 (proj2
           (frames_outside_play 1 (gameLoop 0 clearedWorld))) T))).
Defined.

(** ** The player-enemy loop on any pool *)

Lemma crashEnemy_outcome (p : Entity) (e : Enemy) (c : CrashState) :
  let e' := fst (crashEnemy p e c) in
  let c' := snd (crashEnemy p e c) in
  enemySpec e' = enemySpec e /\ hitFlash e' = hitFlash e /\
  active e' = active e && negb (checkCollision p e) && negb (breaches e) /\
  csLives c' = (csLives c - if crashes p e then 1 else 0)%Z /\
  length (csExplosions c') =
    (length (csExplosions c) + if crashes p e then 1 else 0)%nat.
Proof.
  unfold crashEnemy, crashes, breaches, spawnExplosion.
  destruct (active e) eqn:A; cbn [negb andb].
  - destruct (checkCollision p e) eqn:C; cbn [orb negb andb].
    + destruct (Qgtb (y e) (CANVAS_HEIGHT - 100));
        cbn [setActive enemySpec specBox]; rewrite C;
        cbn [fst snd enemySpec hitFlash active setActive csLives
             csExplosions];
        rewrite ?length_app; cbn [length]; repeat split; lia.
    + destruct (Qgtb (y e) (CANVAS_HEIGHT - 100)) eqn:G;
        cbn [setActive enemySpec specBox negb]; rewrite ?C;
        cbn [fst snd enemySpec hitFlash active setActive];
        repeat split; auto; lia.
  - cbn [fst snd]. repeat split; auto; lia.
Qed.

Lemma crashEnemies_outcome (p : Entity) (es : list Enemy) :
  forall c,
    let es' := fst (crashEnemies p es c) in
    let c' := snd (crashEnemies p es c) in
    Forall2
      (fun e e' =>
         enemySpec e' = enemySpec e /\ hitFlash e' = hitFlash e /\
         active e' =
           active e && negb (checkCollision p e) && negb (breaches e))
      es es' /\
    csLives c' = (csLives c - Z.of_nat (length (filter (crashes p) es)))%Z /\
    length (csExplosions c') =
      (length (csExplosions c) + length (filter (crashes p) es))%nat.
Proof.
  induction es as [| e rest IH]; intro c; cbn [crashEnemies filter].
  - cbn. repeat split; [constructor | lia | lia].
  - destruct (crashEnemy_outcome p e c) as [K1 [K2 [K3 [K4 K5]]]].
    cbv zeta in *.
    destruct (crashEnemy p e c) as [e' c1]. cbn [fst snd] in *.
    specialize (IH c1). cbv zeta in IH.
    destruct (crashEnemies p rest c1) as [rest' c2]. cbn [fst snd] in *.
    destruct IH as [I1 [I2 I3]].
    split; [constructor; auto |].
    destruct (crashes p e); cbn [length]; split; lia.
Qed.

(** X5: the player-enemy loop, on any pool: an enemy stays active exactly
    when it was active, does not touch the player and is not below the breach
    line ([y > 600]); nothing else of an enemy changes; the lives go down by
    the number of active enemies on the player, and exactly that many
    explosions are added. *)
Theorem player_pass_outcome (s : GameState) :
  let s' := playerEnemyCollision s in
  let hits := length (filter (crashes (player s)) (enemies s)) in
  Forall2
    (fun e e' =>
       enemySpec e' = enemySpec e /\ hitFlash e' = hitFlash e /\
       active e' =
         active e && negb (checkCollision (player s) e) &&
         negb (breaches e))
    (enemies s) (enemies s') /\
  lives s' = (lives s - Z.of_nat hits)%Z /\
  length (explosions s') = (length (explosions s) + hits)%nat /\
  score s' = score s /\ bullets s' = bullets s.
Proof.
  cbv zeta. unfold playerEnemyCollision.
  destruct (crashEnemies_outcome (player s) (enemies s)
              (mkCrashState (lives s) (gameOver s) (explosions s)))
    as [H1 [H2 H3]].
  cbv zeta in *.
  destruct (crashEnemies _ _ _) as [es c]. cbn in *. auto.
Qed.

(** ** The bullet-enemy loop on any pool *)

Lemma hitEnemy_accounts (lvl : Z) (e : Enemy) (h : HitState) :
  let e' := fst (hitEnemy lvl e h) in
  let h' := snd (hitEnemy lvl e h) in
  let kill := ((if active e then 1 else 0) - (if active e' then 1 else 0))%Z in
  (0 <= kill <= 1)%Z /\ (0 <= health e - health e' <= 1)%Z /\
  hsScore h' = (hsScore h + 100 * lvl * kill)%Z /\
  Z.of_nat (length (hsExplosions h')) =
    (Z.of_nat (length (hsExplosions h)) + (health e - health e'))%Z.
Proof.
  unfold hitEnemy, spawnExplosion. cbv zeta.
  destruct (active e) eqn:A; cbn [negb].
  - destruct (checkCollision (hsBullet h) e).
    + cbn [health setHitFlash setHealth enemySpec].
      destruct (health e - 1 <=? 0)%Z;
        cbn [fst snd hsScore hsExplosions specBox enemySpec setActive
             setHitFlash setHealth active health];
        rewrite length_app; cbn [length]; rewrite ?A; repeat split; lia.
    + cbn [fst snd]. rewrite A. repeat split; lia.
  - cbn [fst snd]. rewrite A. repeat split; lia.
Qed.

Lemma hitEnemies_accounts (lvl : Z) (es : list Enemy) :
  forall h,
    let es' := fst (hitEnemies lvl es h) in
    let h' := snd (hitEnemies lvl es h) in
    let kills :=
      (Z.of_nat (length (filter active es)) -
       Z.of_nat (length (filter active es')))%Z in
    length es' = length es /\ (0 <= kills)%Z /\
    hsScore h' = (hsScore h + 100 * lvl * kills)%Z /\
    Z.of_nat (length (hsExplosions h')) =
      (Z.of_nat (length (hsExplosions h)) +
       (totalHealth es - totalHealth es'))%Z.
Proof.
  induction es as [| e rest IH]; intro h;
    cbn [hitEnemies filter totalHealth].
  - cbn. repeat split; lia.
  - destruct (hitEnemy_accounts lvl e h) as [K1 [K2 [K3 K4]]].
    cbv zeta in *.
    destruct (hitEnemy lvl e h) as [e' h1]. cbn [fst snd] in *.
    specialize (IH h1). cbv zeta in IH.
    destruct (hitEnemies lvl rest h1) as [rest' h2]. cbn [fst snd] in *.
    destruct IH as [I1 [I2 [I3 I4]]].
    cbn [filter totalHealth length].
    destruct (active e), (active e'); cbn [length] in *;
      repeat split; try lia; nia.
Qed.

Lemma hitBullets_accounts (bs : list Bullet) :
  forall s,
    let bs' := fst (hitBullets bs s) in
    let s' := snd (hitBullets bs s) in
    let kills :=
      (Z.of_nat (activeEnemies s) - Z.of_nat (activeEnemies s'))%Z in
    length bs' = length bs /\ length (enemies s') = length (enemies s) /\
    (0 <= kills)%Z /\
    score s' = (score s + 100 * level s * kills)%Z /\
    Z.of_nat (length (explosions s')) =
      (Z.of_nat (length (explosions s)) +
       (totalHealth (enemies s) - totalHealth (enemies s')))%Z.
Proof.
  induction bs as [| b rest IH]; intro s; cbn [hitBullets].
  - cbn. repeat split; lia.
  - destruct (negb (bulletActive b)).
    + specialize (IH s). cbv zeta in IH.
      destruct (hitBullets rest s) as [r t]. cbn [fst snd length] in *.
      destruct IH as [I1 I2]. split; [lia | exact I2].
    + destruct (hitEnemies_accounts (level s) (enemies s)
                  (mkHitState b (score s) (explosions s)))
        as [K1 [K2 [K3 K4]]].
      cbv zeta in *.
      destruct (hitEnemies _ _ _) as [es h]. cbn [fst snd] in *.
      set (s1 := setExplosions _ _).
      specialize (IH s1). cbv zeta in IH.
      destruct (hitBullets rest s1) as [r t]. cbn [fst snd length] in *.
      destruct IH as [I1 [I2 [I3 [I4 I5]]]].
      unfold activeEnemies in *. subst s1.
      cbn [enemies score level explosions setExplosions setScore setEnemies]
        in *.
      cbn [hsScore hsExplosions] in K3, K4.
      repeat split; lia.
Qed.

(** X6: the bullet-enemy loop keeps the books, on any pool: the score goes
    up by [100 * level] for each enemy that stops being active, one explosion
    is added for each point of health taken, and neither pool changes its
    length. *)
Theorem bullet_pass_accounts (s : GameState) :
  let s' := bulletEnemyCollision s in
  let kills := (Z.of_nat (activeEnemies s) - Z.of_nat (activeEnemies s'))%Z in
  (0 <= kills)%Z /\
  score s' = (score s + 100 * level s * kills)%Z /\
  Z.of_nat (length (explosions s')) =
    (Z.of_nat (length (explosions s)) +
     (totalHealth (enemies s) - totalHealth (enemies s')))%Z /\
  length (enemies s') = length (enemies s) /\
  length (bullets s') = length (bullets s) /\
  lives s' = lives s /\ player s' = player s.
Proof.
  cbv zeta. unfold bulletEnemyCollision.
  destruct (hitBullets_accounts (bullets s) s) as [H1 [H2 [H3 [H4 H5]]]].
  pose proof (hitBullets_session (bullets s) s) as HS.
  cbv zeta in *.
  destruct (hitBullets (bullets s) s) as [bs t]. cbn [fst snd] in *.
  destruct (HS bs t eq_refl) as [Sp [Sl _]].
  unfold activeEnemies in *. cbn. repeat split; auto.
Qed.

(** ** What a frame of play may do to an enemy *)

Lemma wears_refl (e : Enemy) : wears e e.
Proof. unfold wears. repeat split; auto; lia. Qed.

Lemma wears_trans (e1 e2 e3 : Enemy) :
  wears e1 e2 -> wears e2 e3 -> wears e1 e3.
Proof.
  unfold wears.
  intros [A1 [A2 [A3 [A4 [A5 [A6 A7]]]]]] [B1 [B2 [B3 [B4 [B5 [B6 B7]]]]]].
  repeat split; try congruence; try lia; auto.
  intro H. specialize (A1 H). subst e2. auto.
Qed.

Lemma Forall2_wears_refl (es : list Enemy) : Forall2 wears es es.
Proof. induction es; constructor; auto using wears_refl. Qed.

Lemma Forall2_wears_trans (l1 l2 : list Enemy) :
  Forall2 wears l1 l2 ->
  forall l3, Forall2 wears l2 l3 -> Forall2 wears l1 l3.
Proof.
  induction 1 as [| a b l1 l2 Hab _ IH]; intros l3 H; inversion H; subst;
    constructor; eauto using wears_trans.
Qed.

Lemma movedEnemy_wears (e : Enemy) : wears e (movedEnemy e).
Proof.
  destruct (movedEnemy_fields e) as [_ [Hw [Hh [_ [Hl [Hs Ht]]]]]].
  unfold wears. rewrite movedEnemy_active.
  repeat split; auto; try lia. apply movedEnemy_inactive.
Qed.

Lemma bounceEnemy_wears (e : Enemy) : wears e (bounceEnemy e).
Proof.
  unfold bounceEnemy. destruct (active e) eqn:A; [| apply wears_refl].
  unfold wears. cbn. repeat split; auto; try congruence; lia.
Qed.

Lemma hitEnemy_wears (lvl : Z) (e : Enemy) (h : HitState) :
  wears e (fst (hitEnemy lvl e h)).
Proof.
  unfold hitEnemy.
  destruct (active e) eqn:A; cbn [negb]; [| apply wears_refl].
  destruct (checkCollision (hsBullet h) e); [| apply wears_refl].
  cbv zeta. cbn [health setHitFlash setHealth enemySpec].
  destruct (health e - 1 <=? 0)%Z; unfold wears; cbn;
    repeat split; auto; try congruence; lia.
Qed.

Lemma crashEnemy_wears (p : Entity) (e : Enemy) (c : CrashState) :
  wears e (fst (crashEnemy p e c)).
Proof.
  destruct (crashEnemy_outcome p e c) as [K1 [K2 [K3 _]]]. cbv zeta in *.
  destruct (fst (crashEnemy p e c)) as [sp' a' f'].
  destruct e as [sp a f].
  cbn [enemySpec hitFlash active] in K1, K2, K3. subst sp' f'.
  unfold wears. cbn [active enemySpec].
  repeat split; try lia.
  - intro A. subst a. cbn in K3. subst a'. reflexivity.
  - intro A. rewrite A in K3. symmetry in K3.
    apply andb_true_iff in K3. destruct K3 as [K3 _].
    apply andb_true_iff in K3. tauto.
Qed.

Lemma hitEnemies_wears (lvl : Z) (es : list Enemy) :
  forall h, Forall2 wears es (fst (hitEnemies lvl es h)).
Proof.
  induction es as [| e rest IH]; intro h; cbn [hitEnemies];
    [constructor |].
  pose proof (hitEnemy_wears lvl e h) as H.
  destruct (hitEnemy lvl e h) as [e' h1]. specialize (IH h1).
  destruct (hitEnemies lvl rest h1) as [rest' h2].
  constructor; assumption.
Qed.

Lemma crashEnemies_wears (p : Entity) (es : list Enemy) :
  forall c, Forall2 wears es (fst (crashEnemies p es c)).
Proof.
  induction es as [| e rest IH]; intro c; cbn [crashEnemies];
    [constructor |].
  pose proof (crashEnemy_wears p e c) as H.
  destruct (crashEnemy p e c) as [e' c1]. specialize (IH c1).
  destruct (crashEnemies p rest c1) as [rest' c2].
  constructor; assumption.
Qed.

Lemma hitBullets_wears (bs : list Bullet) :
  forall s, Forall2 wears (enemies s) (enemies (snd (hitBullets bs s))).
Proof.
  induction bs as [| b rest IH]; intro s; cbn [hitBullets].
  - apply Forall2_wears_refl.
  - destruct (negb (bulletActive b)).
    + specialize (IH s). destruct (hitBullets rest s) as [r t]. exact IH.
    + pose proof (hitEnemies_wears (level s) (enemies s)
                    (mkHitState b (score s) (explosions s))) as H.
      destruct (hitEnemies _ _ _) as [es h]. cbn [fst] in H.
      set (s1 := setExplosions _ _).
      specialize (IH s1). destruct (hitBullets rest s1) as [r t].
      cbn [snd] in *. eapply Forall2_wears_trans; [exact H | exact IH].
Qed.

Lemma Forall2_map_r {A B : Type} (R : A -> B -> Prop) (f : A -> B)
    (l : list A) :
  (forall a, R a (f a)) -> Forall2 R l (map f l).
Proof. intro H. induction l; cbn [map]; constructor; auto. Qed.

Lemma updateEnemies_wears (s : GameState) :
  Forall2 wears (enemies s) (enemies (updateEnemies s)).
Proof.
  rewrite updateEnemies_enemies. destruct (existsb _ _).
  - rewrite map_map. apply Forall2_map_r. intro e.
    eapply wears_trans; [apply movedEnemy_wears | apply bounceEnemy_wears].
  - apply Forall2_map_r. apply movedEnemy_wears.
Qed.

Lemma beforeCrash_wears (s : GameState) :
  Forall2 wears (enemies s) (enemies (beforeCrash s)).
Proof.
  apply (Forall2_wears_trans _ _ (updateEnemies_wears (updateBullets s))).
  unfold beforeCrash, bulletEnemyCollision.
  pose proof (hitBullets_wears
                (bullets (updateEnemies (updateBullets s)))
                (updateEnemies (updateBullets s))) as H.
  destruct (hitBullets _ _) as [bs t]. exact H.
Qed.

Lemma playerEnemyCollision_wears (s : GameState) :
  Forall2 wears (enemies s) (enemies (playerEnemyCollision s)).
Proof.
  unfold playerEnemyCollision.
  pose proof (crashEnemies_wears (player s) (enemies s)
                (mkCrashState (lives s) (gameOver s) (explosions s))) as H.
  destruct (crashEnemies _ _ _) as [es c]. exact H.
Qed.

Lemma simulate_wears (s : GameState) :
  Forall2 wears (enemies s) (enemies (simulate s)).
Proof.
  rewrite simulate_steps.
  change (enemies (updateExplosions ?t)) with (enemies t).
  destruct (checkWaveComplete_keeps (playerEnemyCollision (beforeCrash s)))
    as [_ [_ [_ [_ [_ [-> _]]]]]].
  apply (Forall2_wears_trans _ _ (beforeCrash_wears s)).
  apply playerEnemyCollision_wears.
Qed.

Lemma Forall2_wears_active (l1 l2 : list Enemy) :
  Forall2 wears l1 l2 ->
  length l2 = length l1 /\
  (length (filter active l2) <= length (filter active l1))%nat /\
  (totalHealth l2 <= totalHealth l1)%Z.
Proof.
  induction 1 as [| a b l1 l2 [H1 [H2 [_ [_ [_ [_ H7]]]]]] _ [I1 [I2 I3]]];
    cbn [filter length totalHealth]; [repeat split; lia |].
  destruct (active b) eqn:B.
  - rewrite (H2 eq_refl). cbn [length]. repeat split; lia.
  - destruct (active a); cbn [length]; repeat split; lia.
Qed.

(** X7: a frame of play never adds, removes or revives an enemy: the pool
    keeps its length, an inactive enemy comes out of the frame exactly as it
    went in, and an active one keeps its size, speed and type, its health
    only going down; so the number of active enemies never grows. *)
Theorem frame_wears_enemies (now : Z) (w : World) :
  modeOf (gameStateRef w) = Playing ->
  let s := gameStateRef w in
  let s' := gameStateRef (gameLoop now w) in
  Forall2 wears (enemies s) (enemies s') /\
  length (enemies s') = length (enemies s) /\
  (activeEnemies s' <= activeEnemies s)%nat /\
  (totalHealth (enemies s') <= totalHealth (enemies s))%Z.
Proof.
  intro HP. apply modeOf_Playing in HP. destruct HP as [Hs [Hg Ht]].
  cbv zeta. unfold gameLoop. rewrite Hs, Hg, Ht. cbn [negb].
  unfold playingFrame. cbn [gameStateRef].
  destruct (handleInput_session now w) as [_ [_ [_ [_ [_ [_ [_ [Ie _]]]]]]]].
  cbv zeta in Ie.
  pose proof (simulate_wears (gameStateRef (handleInput now w))) as H.
  rewrite Ie in H. split; [exact H |].
  apply Forall2_wears_active. exact H.
Qed.

Lemma frame_wears_enemies_witness :
  modeOf (gameStateRef pierceWorld) = Playing /\
  length (enemies (gameStateRef (gameLoop 0 pierceWorld))) =
    length (enemies (gameStateRef pierceWorld)).
Proof.
  split; [reflexivity |].
  exact (proj1 (proj2 (frame_wears_enemies 0 pierceWorld eq_refl))).
Defined.

(** ** The shape of a wave *)

Lemma wave_cells_apart (L : Z) (i j : nat) :
  (1 <= L)%Z -> (i < j)%nat ->
  x (waveCell L i) + 60 <= x (waveCell L j) \/
  y (waveCell L i) + 50 <= y (waveCell L j).
Proof.
  intros HL Hij. destruct (wave_sizes L HL) as [_ [_ [HC _]]].
  unfold waveCell, waveEnemy. cbn [x y specBox].
  set (C := waveCols L) in *.
  assert (Hi := Z.div_mod (Z.of_nat i) C ltac:(lia)).
  assert (Hj := Z.div_mod (Z.of_nat j) C ltac:(lia)).
  assert (Bi := Z.mod_pos_bound (Z.of_nat i) C ltac:(lia)).
  assert (Bj := Z.mod_pos_bound (Z.of_nat j) C ltac:(lia)).
  set (ri := (Z.of_nat i / C)%Z) in *. set (ci := (Z.of_nat i mod C)%Z) in *.
  set (rj := (Z.of_nat j / C)%Z) in *. set (cj := (Z.of_nat j mod C)%Z) in *.
  assert (Hcase : (ri + 1 <= rj)%Z \/ (ri = rj /\ ci + 1 <= cj)%Z) by nia.
  destruct Hcase as [Hr | [Hr Hc]].
  - right. rewrite Zle_Qle, inject_Z_plus in Hr.
    change (inject_Z 1) with 1 in Hr. unfold startY. lra.
  - left. rewrite Zle_Qle, inject_Z_plus in Hc.
    change (inject_Z 1) with 1 in Hc. unfold spacing. lra.
Qed.

(** X8: the enemies of a generated wave never overlap: of two specs, the
    later one is at least 60 further right or at least 50 further down, so
    their 36 by 28 boxes do not collide. *)
Theorem wave_enemies_disjoint (L : Z) (i j : nat) (a b : EnemySpec) :
  (1 <= L)%Z -> (i < j)%nat ->
  nth_error (generateWave L) i = Some a ->
  nth_error (generateWave L) j = Some b ->
  (x a + 60 <= x b \/ y a + 50 <= y b) /\
  checkCollision a b = false /\ checkCollision b a = false.
Proof.
  intros HL Hij Ha Hb. rewrite (generateWave_layout L HL) in Ha, Hb.
  assert (Hj : (j < length (wavePrefix L (Z.to_nat (baseEnemies L))))%nat)
    by (apply nth_error_Some; congruence).
  rewrite wavePrefix_length in Hj.
  rewrite wavePrefix_nth in Ha, Hb by lia.
  inversion Ha; inversion Hb; subst a b.
  pose proof (wave_cells_apart L i j HL Hij) as H.
  split; [exact H |].
  assert (Hw : forall k, width (waveCell L k) = 36 /\
                         height (waveCell L k) = 28)
    by (intro k; split; reflexivity).
  destruct (Hw i) as [Wi Hi]. destruct (Hw j) as [Wj Hj'].
  split; apply checkCollision_false; rewrite ?Wi, ?Hi, ?Wj, ?Hj';
    destruct H; lra.
Qed.

Lemma wave_enemies_disjoint_witness :
  (1 <= 1)%Z /\ (0 < 4)%nat /\
  exists a b : EnemySpec,
    nth_error (generateWave 1) 0 = Some a /\
    nth_error (generateWave 1) 4 = Some b /\
    checkCollision a b = false.
Proof.
  assert (HL : (1 <= 1)%Z) by lia. assert (Hij : (0 < 4)%nat) by lia.
  split; [exact HL |]. split; [exact Hij |].
  exists (waveCell 1 0), (waveCell 1 4).
  assert (Ha : nth_error (generateWave 1) 0 = Some (waveCell 1 0))
    by reflexivity.
  assert (Hb : nth_error (generateWave 1) 4 = Some (waveCell 1 4))
    by reflexivity.
  split; [exact Ha |]. split; [exact Hb |].
  exact (proj1 (proj2 (wave_enemies_disjoint 1 0 4 _ _ HL Hij Ha Hb))).
Defined.

Lemma low_levels_clear :
  forallb (fun k => forallb clearOfEdges (generateWave (Z.of_nat k)))
          (seq 1 21) = true.
Proof. vm_compute. reflexivity. Qed.

Lemma wide_wave_cols (L : Z) : (22 <= L)%Z -> (10 <= waveCols L)%Z.
Proof.
  intro HL. rewrite waveCols_eq.
  assert (HB : (37 <= baseEnemies L)%Z)
    by (rewrite baseEnemies_eq; Z.div_mod_to_equations; lia).
  assert (HR : waveRows L = 4%Z)
    by (rewrite waveRows_eq; Z.div_mod_to_equations; lia).
  rewrite HR. Z.div_mod_to_equations. lia.
Qed.

Lemma wide_wave_last_column (L : Z) :
  (22 <= L)%Z ->
  In (waveEnemy L 0 (waveCols L - 1)) (generateWave L) /\
  570 <= x (waveEnemy L 0 (waveCols L - 1)).
Proof.
  intro HL. pose proof (wide_wave_cols L HL) as HC.
  destruct (wave_sizes L ltac:(lia)) as [HB [HR [_ Hfit]]].
  split.
  - rewrite (generateWave_layout L ltac:(lia)).
    rewrite <- (waveCell_at L 0 (waveCols L - 1)
                  (Z.to_nat (waveCols L - 1))) by lia.
    unfold wavePrefix. apply in_map. apply in_seq.
    assert (waveCols L <= baseEnemies L)%Z; [| lia].
    rewrite waveCols_eq. Z.div_mod_to_equations. nia.
  - unfold waveEnemy, startX. cbn [x specBox].
    rewrite Zle_Qle in HC. unfold Z.sub.
    rewrite inject_Z_plus, inject_Z_opp.
    change (inject_Z 10) with 10 in HC. change (inject_Z 1) with 1.
    generalize dependent (inject_Z (waveCols L)). intros q Hq.
    unfold CANVAS_WIDTH, spacing, Qdiv. change (/ 2) with (1 # 2). lra.
Qed.

(** X9: a generated wave lies strictly between the two edges that make the
    formation bounce ([10 < x < 554]) for the levels 1 to 21 and for no
    other: from level 22 on, the last column is spawned at [x >= 570], so
    the formation is at the edge on the very first frame it moves. *)
Theorem wave_edge_levels (L : Z) :
  ((1 <= L <= 21)%Z ->
   Forall (fun e : EnemySpec =>
             10 < x e /\ x e < CANVAS_WIDTH - ENEMY_WIDTH - 10)
          (generateWave L)) /\
  ((22 <= L)%Z ->
   (exists e : EnemySpec, In e (generateWave L) /\ 570 <= x e) /\
   someActiveAtEdge (map movedEnemy (map freshEnemy (generateWave L)))).
Proof.
  split; intro HL.
  - pose proof low_levels_clear as H. rewrite forallb_forall in H.
    specialize (H (Z.to_nat L)). rewrite Z2Nat.id in H by lia.
    assert (Hin : In (Z.to_nat L) (seq 1 21)) by (apply in_seq; lia).
    specialize (H Hin). rewrite forallb_forall in H.
    apply Forall_forall. intros e He. specialize (H e He).
    unfold clearOfEdges in H. apply andb_true_iff in H.
    rewrite !Qltb_iff in H. exact H.
  - destruct (wide_wave_last_column L HL) as [Hin Hx].
    split; [eexists; split; [exact Hin | exact Hx] |].
    exists (movedEnemy (freshEnemy (waveEnemy L 0 (waveCols L - 1)))).
    split; [apply in_map, in_map; exact Hin |].
    rewrite movedEnemy_active. split; [reflexivity |]. right.
    rewrite movedEnemy_x by reflexivity.
    cbn [x y speed direction freshEnemy enemySpec specBox waveEnemy] in *.
    assert (HQ : 22 <= inject_Z L)
      by (rewrite Zle_Qle in HL; exact HL).
    generalize dependent (inject_Z L). intros l Hl.
    generalize dependent (startX L + inject_Z (waveCols L - 1) * spacing).
    intros q Hq. change (inject_Z 1) with 1.
    unfold CANVAS_WIDTH, ENEMY_WIDTH. lra.
Qed.

Lemma wave_edge_levels_witness :
  (1 <= 21 <= 21)%Z /\
  Forall (fun e : EnemySpec =>
            10 < x e /\ x e < CANVAS_WIDTH - ENEMY_WIDTH - 10)
         (generateWave 21) /\
  (22 <= 22)%Z /\
  (exists e : EnemySpec, In e (generateWave 22) /\ 570 <= x e).
Proof.
  assert (H1 : (1 <= 21 <= 21)%Z) by lia.
  assert (H2 : (22 <= 22)%Z) by lia.
  split; [exact H1 |].
  split; [exact (proj1 (wave_edge_levels 21) H1) |].
  split; [exact H2 |].
  exact (proj1 (proj2 (wave_edge_levels 22) H2)).
Defined.

(** ** Invariants of the runs *)

(** Every reachable state is reached by resets, transition frames and frames
    of play, each taken in the mode in which the code takes it. *)
Lemma reachable_by_steps (P : GameState -> Prop) :
  P initialGameState ->
  (forall s, sound s -> P s -> started s = false \/ gameOver s = true ->
             P (resetGame s)) ->
  (forall s, sound s -> P s -> modeOf s = LevelTransition ->
             P (levelTransitionFrame s)) ->
  (forall now w, reachable w -> P (gameStateRef w) ->
                 modeOf (gameStateRef w) = Playing ->
                 P (simulate (gameStateRef (handleInput now w)))) ->
  forall w, reachable w -> P (gameStateRef w).
Proof.
  intros Hinit Hreset Htrans Hplay w R.
  induction R as [| w ev R IH]; [exact Hinit |].
  pose proof (reachable_sound w R) as HS.
  destruct ev as [key | key | now]; cbn [step].
  - unfold handleKeyDown. cbn [gameStateRef].
    destruct (String.eqb key " " && negb (started (gameStateRef w))) eqn:E1.
    + apply andb_true_iff in E1. destruct E1 as [_ E1].
      apply negb_true_iff in E1.
      assert (P1 : P (resetGame (gameStateRef w))) by auto.
      destruct (String.eqb key "r" && gameOver (resetGame (gameStateRef w)))
        eqn:E2; [| exact P1].
      apply andb_true_iff in E2. destruct E2 as [_ E2].
      apply Hreset; auto.
      apply resetGame_sound. destruct HS as [Hp _]. exact Hp.
    + destruct (String.eqb key "r" && gameOver (gameStateRef w)) eqn:E2;
        [| exact IH].
      apply andb_true_iff in E2. destruct E2 as [_ E2]. auto.
  - exact IH.
  - unfold gameLoop.
    destruct (started (gameStateRef w)) eqn:Es; cbn [negb]; [| exact IH].
    destruct (gameOver (gameStateRef w)) eqn:Eg; [exact IH |].
    destruct (levelTransition (gameStateRef w)) eqn:Et.
    + cbn [gameStateRef]. apply Htrans; auto.
      apply modeOf_LevelTransition. auto.
    + unfold playingFrame. cbn [gameStateRef]. apply Hplay; auto.
      apply modeOf_Playing. auto.
Qed.

Lemma simulate_flags (s : GameState) :
  sound s ->
  gameOver (simulate s) = gameOver s /\ started (simulate s) = started s /\
  level (simulate s) = level s.
Proof.
  intros [Hp [_ [_ [Hv He]]]]. rewrite simulate_steps.
  destruct (beforeCrash_session s) as [Bp [_ [Bv [Bg [_ [_ [_ Bs]]]]]]].
  destruct (beforeCrash_keeps _ s He) as [B1 _]; [lia |].
  destruct (playerEnemyCollision_clear (beforeCrash s)) as [_ [P2 _]];
    [rewrite Bp; exact Hp | exact B1 |].
  destruct (playerEnemyCollision_lives (beforeCrash s))
    as [_ [_ [_ [Ps [Pv _]]]]].
  destruct (checkWaveComplete_keeps (playerEnemyCollision (beforeCrash s)))
    as [_ [Wg [Ws [Wv _]]]].
  cbv zeta in *. cbn [gameOver started level updateExplosions setExplosions].
  rewrite Wg, Ws, Wv, P2, Ps, Pv, Bg, Bs, Bv. auto.
Qed.

Lemma simulate_score (s : GameState) :
  exists kills : Z,
    (0 <= kills)%Z /\
    score (simulate s) = (score s + 100 * level s * kills)%Z.
Proof.
  rewrite simulate_steps.
  destruct (checkWaveComplete_keeps (playerEnemyCollision (beforeCrash s)))
    as [_ [_ [_ [_ [Ws _]]]]].
  destruct (playerEnemyCollision_lives (beforeCrash s))
    as [_ [_ [_ [_ [_ [Ps _]]]]]].
  cbv zeta in *. cbn [score updateExplosions setExplosions].
  rewrite Ws, Ps. unfold beforeCrash, bulletEnemyCollision.
  set (s1 := updateEnemies (updateBullets s)).
  assert (H1 : score s1 = score s /\ level s1 = level s).
  { subst s1. unfold updateEnemies.
    destruct (advanceEnemies _ _) as [es h]. destruct h; split; reflexivity. }
  destruct H1 as [<- <-].
  destruct (hitBullets_accounts (bullets s1) s1) as [_ [_ [K [Hs _]]]].
  cbv zeta in *. destruct (hitBullets (bullets s1) s1) as [bs t].
  cbn [fst snd score setBullets] in *. eexists. split; [exact K | exact Hs].
Qed.

(** The game is never over, and before the start nothing has been won. *)
Lemma reachable_not_over (w : World) :
  reachable w ->
  gameOver (gameStateRef w) = false /\
  (started (gameStateRef w) = false ->
   level (gameStateRef w) = 1%Z /\ score (gameStateRef w) = 0%Z) /\
  (100 | score (gameStateRef w))%Z.
Proof.
  revert w.
  apply (reachable_by_steps
           (fun s => gameOver s = false /\
                     (started s = false -> level s = 1%Z /\ score s = 0%Z) /\
                     (100 | score s)%Z)).
  - repeat split. exists 0%Z. reflexivity.
  - intros s _ _ _. destruct (resetGame_fields s) as [_ [_ [Rs _]]].
    rewrite Rs. repeat split; try discriminate. exists 0%Z. reflexivity.
  - intros s _ [Hg [_ Hd]] HM.
    apply modeOf_LevelTransition in HM. destruct HM as [Hs _].
    unfold levelTransitionFrame. cbn [transitionTimer setTransitionTimer].
    destruct (_ <=? _)%Z; cbn; repeat split; auto; congruence.
  - intros now w R [Hg [_ Hd]] HM.
    apply modeOf_Playing in HM. destruct HM as [Hs _].
    pose proof (handleInput_sound now w (reachable_sound w R)) as HS.
    destruct (handleInput_session now w) as [_ [_ [Is [Ig [Ist _]]]]].
    cbv zeta in *.
    destruct (simulate_flags _ HS) as [Fg [Fs _]].
    destruct (simulate_score (gameStateRef (handleInput now w)))
      as [k [_ Hk]].
    rewrite Fg, Fs, Ig, Ist, Hk, Is.
    split; [exact Hg |]. split; [congruence |].
    destruct Hd as [q Hq]. rewrite Hq.
    exists (q + level (gameStateRef (handleInput now w)) * k)%Z. ring.
Qed.

(** X10: the game cannot be lost: in every state reached from the initial
    state [gameOver] is false, so the mode is never [GameOver] and pressing
    [r] never restarts anything. *)
Theorem game_never_over (evs : list Event) :
  let w := run evs initialWorld in
  gameOver (gameStateRef w) = false /\
  modeOf (gameStateRef w) <> GameOver /\
  gameStateRef (handleKeyDown "r" w) = gameStateRef w.
Proof.
  intro w.
  assert (R : reachable w) by (apply run_reachable, reach_init).
  destruct (reachable_not_over w R) as [Hg _].
  split; [exact Hg |]. split.
  - intro HM. apply modeOf_GameOver in HM. destruct HM as [_ HM].
    congruence.
  - unfold handleKeyDown. cbn [gameStateRef].
    change (String.eqb "r" " ") with false. cbn [andb].
    rewrite Hg, andb_false_r. reflexivity.
Qed.

(** X11: along every run, no event lowers the level or the score: an event
    leaves the level as it is or adds exactly 1 to it, the level is at least
    1, and the score is a multiple of 100 that only grows. *)
Theorem level_and_score_only_grow (evs : list Event) (ev : Event) :
  let s := gameStateRef (run evs initialWorld) in
  let s' := gameStateRef (run (evs ++ [ev]) initialWorld) in
  (level s' = level s \/ level s' = (level s + 1)%Z) /\
  (score s <= score s')%Z /\ (1 <= level s)%Z /\ (100 | score s)%Z.
Proof.
  cbv zeta. rewrite run_app. cbn [run fold_left].
  set (w := run evs initialWorld).
  assert (R : reachable w) by (apply run_reachable, reach_init).
  destruct (reachable_not_over w R) as [Hg [Hn Hd]].
  pose proof (reachable_sound w R) as HS.
  assert (Hv : (1 <= level (gameStateRef w))%Z)
    by (destruct HS as [_ [_ [_ [Hv _]]]]; exact Hv).
  split; [| split; [| split; [exact Hv | exact Hd]]];
    destruct ev as [key | key | now]; cbn [step];
    try (left; reflexivity);
    try (unfold handleKeyUp; cbn [gameStateRef]; lia).
  - unfold handleKeyDown. cbn [gameStateRef].
    destruct (String.eqb key " " && negb (started (gameStateRef w))) eqn:E.
    + apply andb_true_iff in E. destruct E as [_ E].
      apply negb_true_iff in E. destruct (Hn E) as [Hl _].
      destruct (resetGame_fields (gameStateRef w)) as [_ [_ [_ [Rl _]]]].
      replace (gameOver (resetGame (gameStateRef w))) with false
        by (destruct (gameStateRef w); reflexivity).
      rewrite andb_false_r, Rl, Hl. left. reflexivity.
    + rewrite Hg, andb_false_r. left. reflexivity.
  - unfold gameLoop.
    destruct (started (gameStateRef w)) eqn:Es; cbn [negb];
      [| left; reflexivity].
    rewrite Hg. destruct (levelTransition (gameStateRef w)) eqn:Et.
    + cbn [gameStateRef]. unfold levelTransitionFrame.
      cbn [transitionTimer setTransitionTimer].
      destruct (_ <=? _)%Z; [right | left]; reflexivity.
    + unfold playingFrame. cbn [gameStateRef].
      destruct (simulate_flags _ (handleInput_sound now w HS))
        as [_ [_ Fv]].
      destruct (handleInput_session now w) as [_ [Iv _]]. cbv zeta in Iv.
      left. congruence.
  - unfold handleKeyDown. cbn [gameStateRef].
    destruct (String.eqb key " " && negb (started (gameStateRef w))) eqn:E.
    + apply andb_true_iff in E. destruct E as [_ E].
      apply negb_true_iff in E. destruct (Hn E) as [_ Hsc].
      destruct (resetGame_fields (gameStateRef w)) as [_ [_ [Rs _]]].
      replace (gameOver (resetGame (gameStateRef w))) with false
        by (destruct (gameStateRef w); reflexivity).
      rewrite andb_false_r, Rs, Hsc. lia.
    + rewrite Hg, andb_false_r. lia.
  - unfold gameLoop. cbv zeta.
    destruct (started (gameStateRef w)) eqn:Es; cbn [negb]; [| lia].
    rewrite Hg. destruct (levelTransition (gameStateRef w)) eqn:Et.
    + cbn [gameStateRef]. unfold levelTransitionFrame.
      cbn [transitionTimer setTransitionTimer].
      destruct (_ <=? _)%Z; cbn; lia.
    + unfold playingFrame. cbn [gameStateRef].
      destruct (simulate_score (gameStateRef (handleInput now w)))
        as [k [Hk Hsc]].
      destruct (handleInput_session now w) as [_ [Iv [Is _]]].
      cbv zeta in Iv, Is. rewrite Hsc, Iv, Is. nia.
Qed.

(** ** Properties kept by every enemy through a frame *)

Section EnemyInvariant.

Variable P : Enemy -> Prop.
Hypothesis P_moved : forall e, P e -> P (movedEnemy e).
Hypothesis P_bounce : forall e, P e -> P (bounceEnemy e).
Hypothesis P_hit : forall lvl e h, P e -> P (fst (hitEnemy lvl e h)).
Hypothesis P_crash : forall p e c, P e -> P (fst (crashEnemy p e c)).

Lemma hitEnemies_Forall (lvl : Z) (es : list Enemy) :
  forall h, Forall P es -> Forall P (fst (hitEnemies lvl es h)).
Proof.
  induction es as [| e rest IH]; intros h H; cbn [hitEnemies];
    [constructor |].
  inversion H as [| ? ? He Hrest]; subst.
  pose proof (P_hit lvl e h He) as H1.
  destruct (hitEnemy lvl e h) as [e' h1]. specialize (IH h1 Hrest).
  destruct (hitEnemies lvl rest h1) as [rest' h2].
  constructor; assumption.
Qed.

Lemma hitBullets_Forall (bs : list Bullet) :
  forall s, Forall P (enemies s) ->
            Forall P (enemies (snd (hitBullets bs s))).
Proof.
  induction bs as [| b rest IH]; intros s H; cbn [hitBullets];
    [exact H |].
  destruct (negb (bulletActive b)).
  - specialize (IH s H). destruct (hitBullets rest s) as [r t]. exact IH.
  - pose proof (hitEnemies_Forall (level s) (enemies s)
                  (mkHitState b (score s) (explosions s)) H) as H1.
    destruct (hitEnemies _ _ _) as [es h]. cbn [fst] in H1.
    set (s1 := setExplosions _ _).
    specialize (IH s1 H1). destruct (hitBullets rest s1) as [r t].
    exact IH.
Qed.

Lemma crashEnemies_Forall (p : Entity) (es : list Enemy) :
  forall c, Forall P es -> Forall P (fst (crashEnemies p es c)).
Proof.
  induction es as [| e rest IH]; intros c H; cbn [crashEnemies];
    [constructor |].
  inversion H as [| ? ? He Hrest]; subst.
  pose proof (P_crash p e c He) as H1.
  destruct (crashEnemy p e c) as [e' c1]. specialize (IH c1 Hrest).
  destruct (crashEnemies p rest c1) as [rest' c2].
  constructor; assumption.
Qed.

Lemma simulate_Forall (s : GameState) :
  Forall P (enemies s) -> Forall P (enemies (simulate s)).
Proof.
  intro H. rewrite simulate_steps.
  change (enemies (updateExplosions ?t)) with (enemies t).
  destruct (checkWaveComplete_keeps (playerEnemyCollision (beforeCrash s)))
    as [_ [_ [_ [_ [_ [-> _]]]]]].
  assert (H1 : Forall P (enemies (updateEnemies (updateBullets s)))).
  { rewrite updateEnemies_enemies. destruct (existsb _ _).
    - rewrite map_map. apply Forall_map.
      eapply Forall_impl; [| exact H]. auto.
    - apply Forall_map. eapply Forall_impl; [| exact H]. auto. }
  assert (H2 : Forall P (enemies (beforeCrash s))).
  { unfold beforeCrash, bulletEnemyCollision.
    pose proof (hitBullets_Forall
                  (bullets (updateEnemies (updateBullets s))) _ H1) as K.
    destruct (hitBullets _ _) as [bs t]. exact K. }
  unfold playerEnemyCollision.
  pose proof (crashEnemies_Forall (player (beforeCrash s))
                (enemies (beforeCrash s))
                (mkCrashState (lives (beforeCrash s))
                   (gameOver (beforeCrash s))
                   (explosions (beforeCrash s))) H2) as K.
  destruct (crashEnemies _ _ _) as [es c]. exact K.
Qed.

End EnemyInvariant.

(** ** Health *)

Lemma healthy_wears (cap : Z) (e e' : Enemy) :
  wears e e' -> (health e' = health e \/ active e' = false \/
                 (1 <= health e')%Z) ->
  healthy cap e -> healthy cap e'.
Proof.
  intros [_ [W2 [_ [_ [_ [_ W7]]]]]] Hc [H1 H2]. split; [| lia].
  intro A. destruct Hc as [Hc | [Hc | Hc]]; [| congruence | exact Hc].
  rewrite Hc. auto.
Qed.

Lemma hitEnemy_healthy (cap lvl : Z) (e : Enemy) (h : HitState) :
  healthy cap e -> healthy cap (fst (hitEnemy lvl e h)).
Proof.
  apply healthy_wears; [apply hitEnemy_wears |].
  unfold hitEnemy.
  destruct (negb (active e)); [left; reflexivity |].
  destruct (checkCollision (hsBullet h) e); [| left; reflexivity].
  cbv zeta. cbn [health setHitFlash setHealth enemySpec].
  destruct (Z.leb_spec (health e - 1) 0); cbn; [right; left | right; right];
    auto; lia.
Qed.

Lemma wave_health (L : Z) :
  (1 <= L)%Z ->
  Forall (healthy (waveHealth L)) (map freshEnemy (generateWave L)).
Proof.
  intro HL. rewrite (generateWave_layout L HL). unfold wavePrefix.
  rewrite map_map. apply Forall_forall. intros e Hin.
  apply in_map_iff in Hin. destruct Hin as [k [<- _]].
  unfold healthy, waveHealth. cbn [health freshEnemy waveCell waveEnemy enemySpec].
  change (Qfloor (inject_Z L / 4)) with (L * 1 / 4)%Z.
  split; [intros _ |]; Z.div_mod_to_equations; lia.
Qed.

Lemma reachable_healthy (w : World) :
  reachable w ->
  Forall (healthy (waveHealth (level (gameStateRef w))))
         (enemies (gameStateRef w)).
Proof.
  revert w.
  apply (reachable_by_steps
           (fun s => Forall (healthy (waveHealth (level s))) (enemies s))).
  - constructor.
  - intros s _ _ _. destruct (resetGame_fields s) as [_ [_ [_ [-> ->]]]].
    apply wave_health. lia.
  - intros s [_ [_ [_ [Hv _]]]] H _. unfold levelTransitionFrame.
    cbn [transitionTimer setTransitionTimer].
    destruct (_ <=? _)%Z; [| exact H].
    rewrite initWave_enemies. apply wave_health. cbn. lia.
  - intros now w R H _.
    destruct (simulate_flags _ (handleInput_sound now w (reachable_sound w R)))
      as [_ [_ ->]].
    destruct (handleInput_session now w) as [_ [Iv [_ [_ [_ [_ [_ [Ie _]]]]]]]].
    cbv zeta in *. rewrite Iv.
    apply simulate_Forall.
    + intros e. apply healthy_wears; [apply movedEnemy_wears |].
      left. apply movedEnemy_fields.
    + intros e. apply healthy_wears; [apply bounceEnemy_wears |].
      left. unfold bounceEnemy. destruct (active e); reflexivity.
    + intros lvl e h. apply hitEnemy_healthy.
    + intros p e c. apply healthy_wears; [apply crashEnemy_wears |].
      left. destruct (crashEnemy_outcome p e c) as [K _]. cbv zeta in K.
      rewrite K. reflexivity.
    + rewrite Ie. exact H.
Qed.

(** X12: in every state reached from the initial state, an active enemy has
    at least one point of health, and no enemy has more than the
    [1 + floor(level / 4)] its wave started with: an enemy is gone as soon as
    its health is used up, after at most that many hits. *)
Theorem enemy_health_bounds (evs : list Event) :
  let s := gameStateRef (run evs initialWorld) in
  Forall (fun e : Enemy =>
            (active e = true -> (1 <= health e)%Z) /\
            (health e <= 1 + Qfloor (inject_Z (level s) / 4))%Z)
         (enemies s).
Proof.
  intro s. apply (reachable_healthy (run evs initialWorld)).
  apply run_reachable, reach_init.
Qed.

(** ** Bullets along a run *)

Lemma hitEnemy_bullet (lvl : Z) (e : Enemy) (h : HitState) :
  bulletBox (hsBullet (snd (hitEnemy lvl e h))) = bulletBox (hsBullet h).
Proof.
  unfold hitEnemy. destruct (negb (active e)); [reflexivity |].
  destruct (checkCollision (hsBullet h) e); [| reflexivity].
  cbv zeta. destruct (_ <=? _)%Z; reflexivity.
Qed.

Lemma hitEnemies_bullet (lvl : Z) (es : list Enemy) :
  forall h,
    bulletBox (hsBullet (snd (hitEnemies lvl es h))) = bulletBox (hsBullet h).
Proof.
  induction es as [| e rest IH]; intro h; cbn [hitEnemies]; [reflexivity |].
  pose proof (hitEnemy_bullet lvl e h) as H.
  destruct (hitEnemy lvl e h) as [e' h1]. specialize (IH h1).
  destruct (hitEnemies lvl rest h1) as [rest' h2]. cbn [snd] in *.
  congruence.
Qed.

Lemma hitBullets_boxes (bs : list Bullet) :
  forall s,
    map bulletBox (fst (hitBullets bs s)) = map bulletBox bs.
Proof.
  induction bs as [| b rest IH]; intro s; cbn [hitBullets]; [reflexivity |].
  destruct (negb (bulletActive b)).
  - specialize (IH s). destruct (hitBullets rest s) as [r t].
    cbn [fst map] in *. congruence.
  - pose proof (hitEnemies_bullet (level s) (enemies s)
                  (mkHitState b (score s) (explosions s))) as H.
    destruct (hitEnemies _ _ _) as [es h]. cbn [snd hsBullet] in H.
    set (s1 := setExplosions _ _). specialize (IH s1).
    destruct (hitBullets rest s1) as [r t]. cbn [fst map] in *. congruence.
Qed.

Lemma playerEnemyCollision_bullets (s : GameState) :
  bullets (playerEnemyCollision s) = bullets s.
Proof.
  unfold playerEnemyCollision.
  destruct (crashEnemies _ _ _) as [es c]. reflexivity.
Qed.

Lemma simulate_bullet_boxes (s : GameState) :
  map bulletBox (bullets (simulate s)) =
  map bulletBox (bullets (updateBullets s)).
Proof.
  rewrite simulate_steps.
  change (bullets (updateExplosions ?t)) with (bullets t).
  destruct (checkWaveComplete_keeps (playerEnemyCollision (beforeCrash s)))
    as [_ [_ [_ [_ [_ [_ [-> _]]]]]]].
  rewrite playerEnemyCollision_bullets.
  unfold beforeCrash, bulletEnemyCollision.
  set (s1 := updateEnemies (updateBullets s)).
  assert (E : bullets s1 = bullets (updateBullets s)).
  { subst s1. unfold updateEnemies.
    destruct (advanceEnemies _ _) as [es h]. destruct h; reflexivity. }
  pose proof (hitBullets_boxes (bullets s1) s1) as H.
  destruct (hitBullets (bullets s1) s1) as [bs t]. cbn [fst] in H.
  cbn [bullets setBullets]. rewrite H, E. reflexivity.
Qed.

Lemma handleInput_fires (now : Z) (w : World) :
  lastShootRef (handleInput now w) =
    (if fires now w then now else lastShootRef w) /\
  keysRef (handleInput now w) = keysRef w /\
  bullets (gameStateRef (handleInput now w)) =
    (if fires now w
     then bullets (gameStateRef w) ++
          [mkBullet
             (mkEntity
                (x (player (movePlayer (keysRef w) (gameStateRef w)))
                 + PLAYER_WIDTH / 2 - BULLET_WIDTH / 2)
                (y (player (gameStateRef w))) BULLET_WIDTH BULLET_HEIGHT)
             true]
     else bullets (gameStateRef w)).
Proof.
  unfold handleInput, fires.
  destruct (_ && _); cbn [lastShootRef keysRef gameStateRef];
    repeat split;
    unfold shoot, movePlayer; destruct (leftHeld _), (rightHeld _);
    reflexivity.
Qed.

Lemma simulate_bullets_length (s : GameState) :
  (length (bullets (simulate s)) <= length (bullets s))%nat.
Proof.
  rewrite <- (length_map bulletBox), simulate_bullet_boxes, length_map.
  unfold updateBullets. cbn [bullets setBullets].
  eapply Nat.le_trans; [apply filter_length_le |].
  rewrite length_map. lia.
Qed.

(** X13: the fire rate.  A frame of play with the space key held more than
    150 ms after the last shot records its own time as the time of the last
    shot; and through any events whose frames all come no later than 150 ms
    after the last shot, that time stays and no bullet is added to the
    pool. *)
Theorem fire_cooldown (now : Z) (w : World) (evs : list Event) :
  (modeOf (gameStateRef w) = Playing -> fires now w = true ->
   lastShootRef (gameLoop now w) = now /\
   (length (bullets (gameStateRef (gameLoop now w)))
    <= S (length (bullets (gameStateRef w))))%nat) /\
  (Forall (quiet (lastShootRef w)) evs ->
   lastShootRef (run evs w) = lastShootRef w /\
   (length (bullets (gameStateRef (run evs w)))
    <= length (bullets (gameStateRef w)))%nat).
Proof.
  split.
  - intros HM HF. apply modeOf_Playing in HM. destruct HM as [Hs [Hg Ht]].
    unfold gameLoop. rewrite Hs, Hg, Ht. cbn [negb].
    unfold playingFrame. cbn [lastShootRef gameStateRef].
    destruct (handleInput_fires now w) as [F1 [_ F3]].
    rewrite HF in F1, F3. split; [exact F1 |].
    eapply Nat.le_trans; [apply simulate_bullets_length |].
    rewrite F3, length_app. cbn [length]. lia.
  - revert w. induction evs as [| ev rest IH]; intros w H;
      cbn [run fold_left]; [split; [reflexivity | lia] |].
    inversion H as [| ? ? Hev Hrest]; subst.
    fold (run rest (step w ev)).
    assert (E : lastShootRef (step w ev) = lastShootRef w /\
                (length (bullets (gameStateRef (step w ev)))
                 <= length (bullets (gameStateRef w)))%nat).
    { destruct ev as [key | key | t]; cbn [step].
      - unfold handleKeyDown. cbn [lastShootRef gameStateRef].
        split; [reflexivity |].
        destruct (_ && negb _); destruct (_ && gameOver _);
          try (destruct (gameStateRef w); cbn; lia); lia.
      - split; [reflexivity | cbn; lia].
      - unfold gameLoop. cbv zeta.
        destruct (negb (started (gameStateRef w))); [split; [| lia]; auto |].
        destruct (gameOver (gameStateRef w)); [split; [| lia]; auto |].
        destruct (levelTransition (gameStateRef w)).
        + cbn [lastShootRef gameStateRef]. split; [reflexivity |].
          unfold levelTransitionFrame.
          cbn [transitionTimer setTransitionTimer].
          destruct (_ <=? _)%Z; cbn; lia.
        + unfold playingFrame. cbn [lastShootRef gameStateRef].
          destruct (handleInput_fires t w) as [F1 [_ F3]].
          assert (HF : fires t w = false).
          { unfold fires. cbn [quiet] in Hev.
            destruct (Z.gtb_spec (t - lastShootRef w) SHOOT_COOLDOWN);
              [lia | apply andb_false_r]. }
          rewrite HF in F1, F3. split; [exact F1 |].
          eapply Nat.le_trans; [apply simulate_bullets_length |].
          rewrite F3. lia. }
    destruct E as [E1 E2].
    destruct (IH (step w ev)) as [I1 I2]; [rewrite E1; exact Hrest |].
    split; [congruence | lia].
Qed.

Lemma fire_cooldown_witness :
  let w := handleKeyDown " " crashWorld in
  let evs := [Frame 1150; KeyDown "a"; Frame 1016] in
  modeOf (gameStateRef w) = Playing /\ fires 1000 w = true /\
  lastShootRef (gameLoop 1000 w) = 1000%Z /\
  Forall (quiet (lastShootRef (gameLoop 1000 w))) evs /\
  lastShootRef (run evs (gameLoop 1000 w)) = 1000%Z.
Proof.
  intros w evs.
  assert (HM : modeOf (gameStateRef w) = Playing) by reflexivity.
  assert (HF : fires 1000 w = true) by reflexivity.
  assert (HQ : Forall (quiet (lastShootRef (gameLoop 1000 w))) evs).
  { repeat constructor; vm_compute; discriminate. }
  split; [exact HM |]. split; [exact HF |].
  pose proof (proj1 (proj1 (fire_cooldown 1000 w []) HM HF)) as E.
  split; [exact E |]. split; [exact HQ |].
  etransitivity;
    [exact (proj1 (proj2 (fire_cooldown 0 (gameLoop 1000 w) evs) HQ)) |
     exact E].
Defined.

Lemma inFlight_boxes (l l' : list Bullet) :
  map bulletBox l = map bulletBox l' ->
  Forall inFlight l -> Forall inFlight l'.
Proof.
  revert l'. induction l as [| b l IH]; intros [| b' l'] E H;
    try discriminate; [constructor |].
  cbn [map] in E. inversion E as [[E1 E2]]. inversion H; subst.
  constructor; [| apply IH; assumption].
  unfold inFlight in *. rewrite <- E1. assumption.
Qed.

Lemma moveBullet_inFlight (b : Bullet) :
  width b = BULLET_WIDTH -> height b = BULLET_HEIGHT ->
  28 <= x b -> x b + width b <= 572 -> y b <= 650 ->
  - BULLET_HEIGHT < y (moveBullet b) -> inFlight (moveBullet b).
Proof.
  intros Hw Hh H1 H2 H3 H4. unfold inFlight, moveBullet in *.
  cbn [bulletBox setBulletBox setY x y width height] in *.
  unfold BULLET_SPEED in *. repeat split; auto. lra.
Qed.

Lemma reachable_inFlight (w : World) :
  reachable w -> Forall inFlight (bullets (gameStateRef w)).
Proof.
  revert w.
  apply (reachable_by_steps (fun s => Forall inFlight (bullets s))).
  - constructor.
  - intros s _ _ _.
    replace (bullets (resetGame s)) with (@nil Bullet)
      by (destruct s; reflexivity).
    constructor.
  - intros s _ H _. unfold levelTransitionFrame.
    cbn [transitionTimer setTransitionTimer].
    destruct (_ <=? _)%Z; exact H.
  - intros now w R H _.
    apply (inFlight_boxes _ _
             (eq_sym (simulate_bullet_boxes
                        (gameStateRef (handleInput now w))))).
    unfold updateBullets. cbn [bullets setBullets].
    apply Forall_forall. intros b Hb. apply filter_In in Hb.
    destruct Hb as [Hin Hb]. apply andb_true_iff in Hb.
    destruct Hb as [Hy _]. apply Qgtb_iff in Hy.
    apply in_map_iff in Hin. destruct Hin as [b0 [<- Hin]].
    destruct (handleInput_fires now w) as [_ [_ F3]]. rewrite F3 in Hin.
    assert (Hold : In b0 (bullets (gameStateRef w)) ->
                   inFlight (moveBullet b0)).
    { intro Hi. rewrite Forall_forall in H.
      destruct (H b0 Hi) as [A1 [A2 [A3 [A4 [A5 A6]]]]].
      apply moveBullet_inFlight; auto. lra. }
    destruct (fires now w); [| auto].
    apply in_app_or in Hin. destruct Hin as [Hi | [<- | []]]; [auto |].
    pose proof (movePlayer_inField (keysRef w) (gameStateRef w)
                  (reachable_inField w R)) as [P1 P2].
    destruct (reachable_sound w R) as [Hp _].
    apply moveBullet_inFlight; cbn [bulletBox x y width height];
      try reflexivity; try exact Hy;
      unfold CANVAS_WIDTH, CANVAS_HEIGHT, PLAYER_WIDTH, PLAYER_HEIGHT,
        BULLET_WIDTH, Qdiv in *;
      change (/ 2) with (1 # 2); try rewrite Hp; lra.
Qed.

(** X14: in every state reached from the initial state, every bullet of
    the pool has the size 4 by 12, lies inside the field across
    ([28 <= x], [x + 4 <= 572]), has not passed the top margin ([y > -12])
    and is at least one step above the player's row ([y <= 638]). *)
Theorem bullets_stay_in_flight (evs : list Event) :
  Forall (fun b : Bullet =>
            width b = 4 /\ height b = 12 /\
            28 <= x b /\ x b + width b <= 572 /\ - (12) < y b /\ y b <= 638)
         (bullets (gameStateRef (run evs initialWorld))).
Proof.
  apply (reachable_inFlight (run evs initialWorld)).
  apply run_reachable, reach_init.
Qed.

(** ** Lists of enemies through a frame *)

Lemma Forall_transfer {A : Type} (R : A -> A -> Prop) (P P' : A -> Prop) :
  (forall a a', R a a' -> P a -> P' a') ->
  forall l l', Forall2 R l l' -> Forall P l -> Forall P' l'.
Proof.
  intros H l l' F. induction F as [| a a' l l' Ha _ IH]; intro HP;
    [constructor |].
  inversion HP; subst. constructor; eauto.
Qed.

Lemma pairs_transfer {A : Type} (R : A -> A -> Prop) (P P' : A -> A -> Prop) :
  (forall a a' b b', R a a' -> R b b' -> P a b -> P' a' b') ->
  forall l l',
    Forall2 R l l' -> ForallOrdPairs P l -> ForallOrdPairs P' l'.
Proof.
  intros H l l' F. induction F as [| a a' l l' Ha F IH]; intro HP;
    [constructor |].
  inversion HP as [| ? ? Hhd Htl]; subst. constructor; [| auto].
  apply (Forall_transfer R (P a) (P' a') (fun b b' Hb => H a a' b b' Ha Hb)
           l l' F Hhd).
Qed.

Lemma Forall2_map_eq {A : Type} (f : A -> A) (l : list A) :
  Forall2 (fun a a' => a' = f a) l (map f l).
Proof. induction l; cbn [map]; constructor; auto. Qed.

Lemma pairs_map_seq {A : Type} (P : A -> A -> Prop) (f : nat -> A)
    (n : nat) :
  forall a,
    (forall i j, (a <= i)%nat -> (i < j)%nat -> (j < a + n)%nat ->
                 P (f i) (f j)) ->
    ForallOrdPairs P (map f (seq a n)).
Proof.
  induction n as [| n IH]; intros a H; cbn [seq map]; constructor.
  - apply Forall_forall. intros y Hy. apply in_map_iff in Hy.
    destruct Hy as [j [<- Hj]]. apply in_seq in Hj. apply H; lia.
  - apply IH. intros i j Hi Hij Hj. apply H; lia.
Qed.

Lemma pairs_with_Forall {A : Type} (Q : A -> Prop) (P : A -> A -> Prop)
    (l : list A) :
  Forall Q l -> ForallOrdPairs P l ->
  ForallOrdPairs (fun a b => Q a /\ Q b /\ P a b) l.
Proof.
  intros HQ HP. induction HP as [| a l Hhd Htl IH]; constructor.
  - inversion HQ as [| ? ? Qa Ql]; subst.
    rewrite Forall_forall in *. intros b Hb. auto.
  - apply IH. inversion HQ; assumption.
Qed.

Lemma fades_refl (e : Enemy) : fades e e.
Proof. unfold fades. auto. Qed.

(** ** The player's moves *)

Lemma movePlayer_step (ks : list string) (s : GameState) :
  inField (x (player s)) ->
  x (player s) - PLAYER_SPEED <= x (player (movePlayer ks s)) /\
  x (player (movePlayer ks s)) <= x (player s) + PLAYER_SPEED.
Proof.
  unfold inField, movePlayer, CANVAS_WIDTH, PLAYER_WIDTH. intros [H1 H2].
  destruct (leftHeld ks), (rightHeld ks);
    rewrite ?moveRight_x, ?moveLeft_x;
    unfold CANVAS_WIDTH, PLAYER_WIDTH, PLAYER_SPEED;
    try (destruct (Qmax_cases 10 (x (player s) - 8)) as [[M1 M2] | [M1 M2]]);
    try (destruct (Qmin_cases (600 - 40 - 10) (Qmax 10 (x (player s) - 8) + 8))
           as [[N1 N2] | [N1 N2]]; rewrite N2);
    try (destruct (Qmin_cases (600 - 40 - 10) (x (player s) + 8))
           as [[N1 N2] | [N1 N2]]; rewrite N2);
    try rewrite M2 in *; split; lra.
Qed.

(** X17: the player only moves sideways and by at most 8 a frame: along
    every run its [y] stays 650 and its size 40 by 30, and a frame changes
    its [x] by no more than [PLAYER_SPEED], whatever keys are held. *)
Theorem player_moves_sideways (evs : list Event) (now : Z) :
  let s := gameStateRef (run evs initialWorld) in
  let s' := gameStateRef (run (evs ++ [Frame now]) initialWorld) in
  y (player s) == 650 /\ width (player s) = 40 /\ height (player s) = 30 /\
  x (player s) - 8 <= x (player s') /\ x (player s') <= x (player s) + 8.
Proof.
  cbv zeta. rewrite run_app. cbn [run fold_left step].
  set (w := run evs initialWorld).
  assert (R : reachable w) by (apply run_reachable, reach_init).
  assert (HP : y (player (gameStateRef w)) = y (player initialGameState) /\
               width (player (gameStateRef w)) = 40 /\
               height (player (gameStateRef w)) = 30).
  { revert R. generalize w.
    apply (reachable_by_steps
             (fun s => y (player s) = y (player initialGameState) /\
                       width (player s) = 40 /\ height (player s) = 30)).
    - repeat split.
    - intros s _ H _. destruct s. exact H.
    - intros s _ H _. rewrite levelTransitionFrame_player. exact H.
    - intros t v _ H _. rewrite simulate_player.
      unfold handleInput, movePlayer.
      destruct (_ && _), (leftHeld _), (rightHeld _); exact H. }
  destruct HP as [Hy [Hw Hh]].
  split; [rewrite Hy; reflexivity |]. split; [exact Hw |].
  split; [exact Hh |].
  pose proof (reachable_inField w R) as HI.
  unfold gameLoop. cbv zeta.
  destruct (negb (started (gameStateRef w))); [split; lra |].
  destruct (gameOver (gameStateRef w)); [split; lra |].
  destruct (levelTransition (gameStateRef w)).
  - cbn [gameStateRef]. rewrite levelTransitionFrame_player. split; lra.
  - unfold playingFrame. cbn [gameStateRef].
    rewrite simulate_player, handleInput_player_x.
    apply (movePlayer_step (keysRef w) (gameStateRef w) HI).
Qed.

(** ** When a wave counts as cleared *)

Lemma reachable_flags (w : World) :
  reachable w ->
  levelComplete (gameStateRef w) = levelTransition (gameStateRef w).
Proof.
  revert w.
  apply (reachable_by_steps (fun s => levelComplete s = levelTransition s)).
  - reflexivity.
  - intros s _ _ _. destruct s. reflexivity.
  - intros s _ H _. unfold levelTransitionFrame.
    cbn [transitionTimer setTransitionTimer].
    destruct (_ <=? _)%Z; [reflexivity | exact H].
  - intros now w _ H _.
    destruct (handleInput_session now w)
      as [_ [_ [_ [_ [_ [Ic [It _]]]]]]].
    cbv zeta in *. set (s0 := gameStateRef (handleInput now w)) in *.
    rewrite simulate_steps.
    destruct (beforeCrash_session s0) as [_ [_ [_ [_ [Bc [Bt _]]]]]].
    destruct (playerEnemyCollision_lives (beforeCrash s0))
      as [_ [_ [_ [_ [_ [_ [Pc Pt]]]]]]].
    cbv zeta in *.
    cbn [levelComplete levelTransition updateExplosions setExplosions].
    unfold checkWaveComplete. destruct (_ && _); [reflexivity |].
    congruence.
Qed.

Lemma handleInput_timer (now : Z) (w : World) :
  transitionTimer (gameStateRef (handleInput now w)) =
  transitionTimer (gameStateRef w).
Proof.
  unfold handleInput, movePlayer.
  destruct (_ && _), (leftHeld _), (rightHeld _); reflexivity.
Qed.

Lemma playerEnemyCollision_timer (s : GameState) :
  transitionTimer (playerEnemyCollision s) = transitionTimer s.
Proof.
  unfold playerEnemyCollision.
  destruct (crashEnemies _ _ _) as [es c]. reflexivity.
Qed.

(** X18: a frame of play run from a reachable state starts the level
    transition exactly when it ends with no active enemy; as long as one
    enemy of the wave is active the level goes on and the timer is left
    alone. *)
Theorem wave_clear_exactly (evs : list Event) (now : Z) :
  let w := run evs initialWorld in
  let s' := gameStateRef (gameLoop now w) in
  modeOf (gameStateRef w) = Playing ->
  (levelTransition s' = true <-> activeEnemies s' = 0%nat) /\
  (activeEnemies s' <> 0%nat ->
   modeOf s' = Playing /\
   transitionTimer s' = transitionTimer (gameStateRef w)).
Proof.
  intros w s' HM.
  assert (R : reachable w) by (apply run_reachable, reach_init).
  pose proof (reachable_flags w R) as HF.
  destruct (reachable_not_over _ (reach_step w (Frame now) R)) as [Hg _].
  cbn [step] in Hg. fold s' in Hg.
  apply modeOf_Playing in HM. destruct HM as [Hs [Hg0 Ht]].
  rewrite Ht in HF.
  assert (E : exists s4,
             s' = updateExplosions (checkWaveComplete s4) /\
             levelComplete s4 = false /\ levelTransition s4 = false /\
             started s4 = true /\
             transitionTimer s4 = transitionTimer (gameStateRef w)).
  { exists (playerEnemyCollision
              (beforeCrash (gameStateRef (handleInput now w)))).
    destruct (handleInput_session now w)
      as [_ [_ [_ [_ [Ist [Ic [It _]]]]]]].
    cbv zeta in *.
    destruct (beforeCrash_session (gameStateRef (handleInput now w)))
      as [_ [_ [_ [_ [Bc [Bt [Bn Bs]]]]]]].
    destruct (playerEnemyCollision_lives
                (beforeCrash (gameStateRef (handleInput now w))))
      as [_ [_ [_ [Ps [_ [_ [Pc Pt]]]]]]].
    cbv zeta in *.
    split.
    - subst s'. unfold gameLoop. rewrite Hs, Hg0, Ht. reflexivity.
    - repeat split; try congruence.
      rewrite playerEnemyCollision_timer, Bn. apply handleInput_timer. }
  destruct E as [s4 [-> [Ec [Et [Es En]]]]].
  change (activeEnemies (updateExplosions (checkWaveComplete s4)))
    with (activeEnemies (checkWaveComplete s4)).
  change (levelTransition (updateExplosions (checkWaveComplete s4)))
    with (levelTransition (checkWaveComplete s4)).
  change (transitionTimer (updateExplosions (checkWaveComplete s4)))
    with (transitionTimer (checkWaveComplete s4)).
  assert (Ea : activeEnemies (checkWaveComplete s4) = activeEnemies s4).
  { unfold activeEnemies.
    destruct (checkWaveComplete_keeps s4) as [_ [_ [_ [_ [_ [-> _]]]]]].
    reflexivity. }
  rewrite Ea. unfold checkWaveComplete. rewrite Ec, Et. cbn [negb].
  rewrite !andb_true_r.
  destruct (Nat.eqb_spec (activeEnemies s4) 0) as [Z0 | NZ].
  - cbn. split; [tauto | intro; contradiction].
  - split; [split; [rewrite Et; discriminate | intro; contradiction] |].
    intros _. split; [| exact En].
    apply modeOf_Playing.
    change (gameOver (updateExplosions s4)) with (gameOver s4).
    unfold checkWaveComplete in Hg. rewrite Ec, Et in Hg.
    cbn [negb] in Hg. rewrite !andb_true_r in Hg.
    destruct (Nat.eqb_spec (activeEnemies s4) 0); [contradiction |].
    repeat split; auto.
Qed.

Lemma wave_clear_exactly_witness :
  modeOf (gameStateRef (run [KeyDown " "] initialWorld)) = Playing /\
  activeEnemies
    (gameStateRef (gameLoop 0 (run [KeyDown " "] initialWorld))) <> 0%nat /\
  modeOf (gameStateRef (gameLoop 0 (run [KeyDown " "] initialWorld)))
    = Playing.
Proof.
  assert (HM : modeOf (gameStateRef (run [KeyDown " "] initialWorld))
               = Playing) by reflexivity.
  assert (HA : activeEnemies
                 (gameStateRef (gameLoop 0 (run [KeyDown " "] initialWorld)))
               <> 0%nat) by (vm_compute; discriminate).
  split; [exact HM |]. split; [exact HA |].
  exact (proj1 (proj2 (wave_clear_exactly [KeyDown " "] 0 HM) HA)).
Defined.

(** ** What is only there to be drawn *)

Lemma alike_fields (s t : GameState) :
  alike s t ->
  player t = player s /\ bullets t = bullets s /\ score t = score s /\
  lives t = lives s /\ level t = level s /\ gameOver t = gameOver s /\
  levelComplete t = levelComplete s /\
  levelTransition t = levelTransition s /\
  transitionTimer t = transitionTimer s /\ started t = started s.
Proof.
  intros [E _]. destruct s, t. cbn in *. inversion E. repeat split.
Qed.

Lemma alike_set (s t : GameState) (es es' : list Enemy)
    (ex ex' : list Explosion) :
  alike s t -> Forall2 sameButFlash es es' ->
  alike (setExplosions ex (setEnemies es s))
        (setExplosions ex' (setEnemies es' t)).
Proof.
  intros [E _] F. split; [| exact F].
  destruct s, t. cbn in *. inversion E. reflexivity.
Qed.

Lemma alike_refl (s : GameState) : alike s s.
Proof.
  split; [reflexivity |].
  induction (enemies s); constructor; auto. split; reflexivity.
Qed.

Lemma sameButFlash_moved (e e' : Enemy) :
  sameButFlash e e' -> sameButFlash (movedEnemy e) (movedEnemy e').
Proof.
  destruct e as [sp a f], e' as [sp' a' f']. intros [E1 E2].
  cbn in E1, E2. subst sp' a'. unfold movedEnemy, advanceEnemy.
  cbn [active negb]. destruct a; cbn [negb fst]; [| split; reflexivity].
  cbn [hitFlash setEnemyBox].
  destruct (Qgtb f 0), (Qgtb f' 0); split; reflexivity.
Qed.

Lemma sameButFlash_bounce (e e' : Enemy) :
  sameButFlash e e' -> sameButFlash (bounceEnemy e) (bounceEnemy e').
Proof.
  destruct e as [sp a f], e' as [sp' a' f']. intros [E1 E2].
  cbn in E1, E2. subst sp' a'. unfold bounceEnemy.
  cbn [active]. destruct a; split; reflexivity.
Qed.

Lemma sameButFlash_edge (es es' : list Enemy) :
  Forall2 sameButFlash es es' ->
  existsb (fun e => active e && touchesEdge e) es' =
  existsb (fun e => active e && touchesEdge e) es.
Proof.
  induction 1 as [| e e' l l' [E1 E2] _ IH]; [reflexivity |].
  cbn [existsb]. rewrite IH, E2. unfold touchesEdge, x, specBox.
  rewrite E1. reflexivity.
Qed.

Lemma Forall2_map_both {A : Type} (R : A -> A -> Prop) (f : A -> A)
    (l l' : list A) :
  (forall a a', R a a' -> R (f a) (f a')) ->
  Forall2 R l l' -> Forall2 R (map f l) (map f l').
Proof.
  intros H F. induction F; cbn [map]; constructor; auto.
Qed.

Lemma updateEnemies_alike (s t : GameState) :
  alike s t -> alike (updateEnemies s) (updateEnemies t).
Proof.
  intros [E F].
  assert (M : Forall2 sameButFlash (map movedEnemy (enemies s))
                (map movedEnemy (enemies t)))
    by (apply Forall2_map_both; auto using sameButFlash_moved).
  split.
  - unfold updateEnemies.
    destruct (advanceEnemies (enemies s) false) as [es h].
    destruct (advanceEnemies (enemies t) false) as [es' h'].
    destruct s, t, h, h'; cbn in *; inversion E; reflexivity.
  - rewrite !updateEnemies_enemies, (sameButFlash_edge _ _ M).
    destruct (existsb _ _); [| exact M].
    apply Forall2_map_both; auto using sameButFlash_bounce.
Qed.

Lemma hitEnemy_alike (lvl : Z) (e e' : Enemy) (h h' : HitState) :
  sameButFlash e e' -> hsBullet h' = hsBullet h -> hsScore h' = hsScore h ->
  sameButFlash (fst (hitEnemy lvl e h)) (fst (hitEnemy lvl e' h')) /\
  hsBullet (snd (hitEnemy lvl e' h')) = hsBullet (snd (hitEnemy lvl e h)) /\
  hsScore (snd (hitEnemy lvl e' h')) = hsScore (snd (hitEnemy lvl e h)).
Proof.
  destruct e as [sp a f], e' as [sp' a' f']. intros [E1 E2] Hb Hs.
  cbn in E1, E2. subst sp' a'. unfold hitEnemy. rewrite Hb, Hs.
  cbn [active negb]. destruct a; cbn [negb]; [| unfold sameButFlash; cbn [fst snd hsBullet hsScore]; repeat split; auto].
  change (checkCollision (hsBullet h) (mkEnemy sp true f'))
    with (checkCollision (hsBullet h) (mkEnemy sp true f)).
  destruct (checkCollision _ _); [| unfold sameButFlash; cbn [fst snd hsBullet hsScore]; repeat split; auto].
  cbv zeta. cbn [health setHitFlash setHealth enemySpec].
  destruct (_ <=? _)%Z; unfold sameButFlash; cbn [fst snd hsBullet hsScore]; repeat split; auto.
Qed.

Lemma hitEnemies_alike (lvl : Z) (es es' : list Enemy) :
  Forall2 sameButFlash es es' ->
  forall h h',
    hsBullet h' = hsBullet h -> hsScore h' = hsScore h ->
    Forall2 sameButFlash (fst (hitEnemies lvl es h))
      (fst (hitEnemies lvl es' h')) /\
    hsBullet (snd (hitEnemies lvl es' h'))
      = hsBullet (snd (hitEnemies lvl es h)) /\
    hsScore (snd (hitEnemies lvl es' h'))
      = hsScore (snd (hitEnemies lvl es h)).
Proof.
  induction 1 as [| e e' l l' He _ IH]; intros h h' Hb Hs;
    cbn [hitEnemies]; [repeat split; auto |].
  destruct (hitEnemy_alike lvl e e' h h' He Hb Hs) as [K1 [K2 K3]].
  destruct (hitEnemy lvl e h) as [e1 h1].
  destruct (hitEnemy lvl e' h') as [e1' h1']. cbn [fst snd] in *.
  destruct (IH h1 h1' K2 K3) as [I1 [I2 I3]].
  destruct (hitEnemies lvl l h1) as [r h2].
  destruct (hitEnemies lvl l' h1') as [r' h2']. cbn [fst snd] in *.
  repeat split; auto.
Qed.

Lemma hitBullets_alike (bs : list Bullet) :
  forall s t,
    alike s t ->
    fst (hitBullets bs t) = fst (hitBullets bs s) /\
    alike (snd (hitBullets bs s)) (snd (hitBullets bs t)).
Proof.
  induction bs as [| b rest IH]; intros s t H; cbn [hitBullets];
    [split; [reflexivity | exact H] |].
  destruct (negb (bulletActive b)).
  - destruct (IH s t H) as [I1 I2].
    destruct (hitBullets rest s) as [r u], (hitBullets rest t) as [r' u'].
    cbn [fst snd] in *. split; [congruence | exact I2].
  - destruct (alike_fields s t H) as [_ [_ [Hsc [_ [Hl _]]]]].
    destruct H as [E F]. rewrite Hl.
    destruct (hitEnemies_alike (level s) _ _ F
                (mkHitState b (score s) (explosions s))
                (mkHitState b (score t) (explosions t)) eq_refl Hsc)
      as [K1 [K2 K3]].
    destruct (hitEnemies (level s) (enemies s) _) as [es h].
    destruct (hitEnemies (level s) (enemies t) _) as [es' h'].
    cbn [fst snd] in *.
    assert (A1 : alike
                   (setExplosions (hsExplosions h)
                      (setScore (hsScore h) (setEnemies es s)))
                   (setExplosions (hsExplosions h')
                      (setScore (hsScore h') (setEnemies es' t)))).
    { split; [| exact K1]. rewrite K3.
      destruct s, t. cbn in *. inversion E. reflexivity. }
    destruct (IH _ _ A1) as [I1 I2].
    destruct (hitBullets rest _) as [r u].
    destruct (hitBullets rest _) as [r' u']. cbn [fst snd] in *.
    split; [congruence | exact I2].
Qed.

Lemma crashEnemy_alike (p : Entity) (e e' : Enemy) (c c' : CrashState) :
  sameButFlash e e' -> csLives c' = csLives c ->
  csGameOver c' = csGameOver c ->
  sameButFlash (fst (crashEnemy p e c)) (fst (crashEnemy p e' c')) /\
  csLives (snd (crashEnemy p e' c')) = csLives (snd (crashEnemy p e c)) /\
  csGameOver (snd (crashEnemy p e' c'))
    = csGameOver (snd (crashEnemy p e c)).
Proof.
  destruct e as [sp a f], e' as [sp' a' f']. intros [E1 E2] Hl Hg.
  cbn in E1, E2. subst sp' a'. unfold crashEnemy. rewrite Hl, Hg.
  cbn [active negb enemySpec].
  destruct a; cbn [negb];
    [| unfold sameButFlash; cbn [fst snd]; repeat split; auto].
  destruct (checkCollision p sp) eqn:C; destruct (Qgtb (y sp) _);
    cbn [orb setActive enemySpec]; rewrite ?C;
    unfold sameButFlash; cbn [fst snd csLives csGameOver];
    repeat split; auto.
Qed.

Lemma crashEnemies_alike (p : Entity) (es es' : list Enemy) :
  Forall2 sameButFlash es es' ->
  forall c c',
    csLives c' = csLives c -> csGameOver c' = csGameOver c ->
    Forall2 sameButFlash (fst (crashEnemies p es c))
      (fst (crashEnemies p es' c')) /\
    csLives (snd (crashEnemies p es' c'))
      = csLives (snd (crashEnemies p es c)) /\
    csGameOver (snd (crashEnemies p es' c'))
      = csGameOver (snd (crashEnemies p es c)).
Proof.
  induction 1 as [| e e' l l' He _ IH]; intros c c' Hl Hg;
    cbn [crashEnemies]; [repeat split; auto |].
  destruct (crashEnemy_alike p e e' c c' He Hl Hg) as [K1 [K2 K3]].
  destruct (crashEnemy p e c) as [e1 c1].
  destruct (crashEnemy p e' c') as [e1' c1']. cbn [fst snd] in *.
  destruct (IH c1 c1' K2 K3) as [I1 [I2 I3]].
  destruct (crashEnemies p l c1) as [r c2].
  destruct (crashEnemies p l' c1') as [r' c2']. cbn [fst snd] in *.
  repeat split; auto.
Qed.

Lemma sameButFlash_active_count (es es' : list Enemy) :
  Forall2 sameButFlash es es' ->
  length (filter active es') = length (filter active es).
Proof.
  induction 1 as [| e e' l l' [_ E2] _ IH]; [reflexivity |].
  cbn [filter]. rewrite E2. destruct (active e); cbn [length]; congruence.
Qed.

Lemma updateBullets_alike (s t : GameState) :
  alike s t -> alike (updateBullets s) (updateBullets t).
Proof.
  intros [E F]. split; [| exact F].
  destruct s, t. cbn in *. inversion E. reflexivity.
Qed.

Lemma bulletEnemyCollision_alike (s t : GameState) :
  alike s t -> alike (bulletEnemyCollision s) (bulletEnemyCollision t).
Proof.
  intro H. unfold bulletEnemyCollision.
  destruct (alike_fields s t H) as [_ [-> _]].
  destruct (hitBullets_alike (bullets s) s t H) as [K1 [K2 K3]].
  destruct (hitBullets (bullets s) s) as [bs u].
  destruct (hitBullets (bullets s) t) as [bs' u']. cbn [fst snd] in *.
  subst bs'. split; [| exact K3].
  destruct u, u'. cbn in *. inversion K2. reflexivity.
Qed.

Lemma playerEnemyCollision_alike (s t : GameState) :
  alike s t -> alike (playerEnemyCollision s) (playerEnemyCollision t).
Proof.
  intro H. unfold playerEnemyCollision.
  destruct (alike_fields s t H) as [Hp [_ [_ [Hl [_ [Hg _]]]]]].
  destruct H as [E F]. rewrite Hp.
  destruct (crashEnemies_alike (player s) _ _ F
              (mkCrashState (lives s) (gameOver s) (explosions s))
              (mkCrashState (lives t) (gameOver t) (explosions t)) Hl Hg)
    as [K1 [K2 K3]].
  destruct (crashEnemies (player s) (enemies s) _) as [es c].
  destruct (crashEnemies (player s) (enemies t) _) as [es' c'].
  cbn [fst snd] in *. split; [| exact K1]. rewrite K2, K3.
  destruct s, t. cbn in *. inversion E. reflexivity.
Qed.

Lemma checkWaveComplete_alike (s t : GameState) :
  alike s t -> alike (checkWaveComplete s) (checkWaveComplete t).
Proof.
  intro H. unfold checkWaveComplete, activeEnemies.
  destruct (alike_fields s t H) as [_ [_ [_ [_ [_ [_ [-> [-> _]]]]]]]].
  destruct H as [E F]. rewrite (sameButFlash_active_count _ _ F).
  destruct (_ && _); split; try exact F;
    destruct s, t; cbn in *; inversion E; reflexivity.
Qed.

Lemma simulate_alike (s t : GameState) :
  alike s t -> alike (simulate s) (simulate t).
Proof.
  intro H. unfold simulate.
  assert (H5 : alike
                 (checkWaveComplete
                    (playerEnemyCollision
                       (bulletEnemyCollision
                          (updateEnemies (updateBullets s)))))
                 (checkWaveComplete
                    (playerEnemyCollision
                       (bulletEnemyCollision
                          (updateEnemies (updateBullets t)))))).
  { apply checkWaveComplete_alike, playerEnemyCollision_alike,
      bulletEnemyCollision_alike, updateEnemies_alike, updateBullets_alike.
    exact H. }
  destruct H5 as [E F]. split; [| exact F].
  unfold updateExplosions.
  destruct (checkWaveComplete _), (checkWaveComplete _).
  cbn in *. inversion E. reflexivity.
Qed.

Lemma handleInput_alike (now : Z) (w v : World) :
  keysRef v = keysRef w -> lastShootRef v = lastShootRef w ->
  alike (gameStateRef w) (gameStateRef v) ->
  alike (gameStateRef (handleInput now w)) (gameStateRef (handleInput now v))
  /\ keysRef (handleInput now v) = keysRef (handleInput now w)
  /\ lastShootRef (handleInput now v) = lastShootRef (handleInput now w).
Proof.
  intros Hk Hl [E F]. unfold handleInput. rewrite Hk, Hl.
  assert (M : alike (movePlayer (keysRef w) (gameStateRef w))
                    (movePlayer (keysRef w) (gameStateRef v))).
  { split.
    - unfold movePlayer, moveLeft, moveRight.
      destruct (leftHeld _), (rightHeld _);
        destruct (gameStateRef w), (gameStateRef v); cbn in *; inversion E;
        reflexivity.
    - unfold movePlayer, moveLeft, moveRight.
      destruct (leftHeld _), (rightHeld _); exact F. }
  destruct (_ && _); cbn [gameStateRef keysRef lastShootRef];
    repeat split; try apply M.
  destruct M as [E' _]. unfold shoot.
  destruct (movePlayer _ (gameStateRef w)), (movePlayer _ (gameStateRef v)).
  cbn in *. inversion E'. reflexivity.
Qed.

(** X19: the [hitFlash] of the enemies and the pool of explosions are only
    there to be drawn: two worlds that differ in nothing else still differ in
    nothing else after a frame, whatever the mode; no score, life, position,
    bullet, activity, health or level ever depends on them. *)
Theorem cosmetics_do_not_matter (now : Z) (w v : World) :
  keysRef v = keysRef w -> lastShootRef v = lastShootRef w ->
  alike (gameStateRef w) (gameStateRef v) ->
  alike (gameStateRef (gameLoop now w)) (gameStateRef (gameLoop now v)) /\
  keysRef (gameLoop now v) = keysRef (gameLoop now w) /\
  lastShootRef (gameLoop now v) = lastShootRef (gameLoop now w).
Proof.
  intros Hk Hl H.
  destruct (alike_fields _ _ H)
    as [_ [_ [_ [_ [Hv [Hg [_ [Ht [Hn Hs]]]]]]]]].
  unfold gameLoop. cbv zeta. rewrite Hs, Hg, Ht.
  destruct (negb (started (gameStateRef w))); [auto |].
  destruct (gameOver (gameStateRef w)); [auto |].
  destruct (levelTransition (gameStateRef w)).
  - cbn [gameStateRef keysRef lastShootRef]. repeat split; auto.
    + unfold levelTransitionFrame.
      cbn [transitionTimer setTransitionTimer]. rewrite Hn.
      destruct H as [E F].
      destruct (_ <=? _)%Z;
        destruct (gameStateRef w), (gameStateRef v); cbn in *; inversion E;
        reflexivity.
    + unfold levelTransitionFrame.
      cbn [transitionTimer setTransitionTimer]. rewrite Hn.
      destruct (_ <=? _)%Z.
      * rewrite !initWave_enemies.
        cbn [level setLevel setTransitionTimer]. rewrite Hv.
        induction (map freshEnemy _); constructor; auto. split; reflexivity.
      * apply H.
  - unfold playingFrame. cbn [gameStateRef keysRef lastShootRef].
    destruct (handleInput_alike now w v Hk Hl H) as [A [K L]].
    repeat split; auto; apply simulate_alike; exact A.
Qed.

Lemma cosmetics_do_not_matter_witness :
  keysRef flashyWorld = keysRef pierceWorld /\
  lastShootRef flashyWorld = lastShootRef pierceWorld /\
  alike (gameStateRef pierceWorld) (gameStateRef flashyWorld) /\
  alike (gameStateRef (gameLoop 0 pierceWorld))
        (gameStateRef (gameLoop 0 flashyWorld)).
Proof.
  assert (H : alike (gameStateRef pierceWorld) (gameStateRef flashyWorld)).
  { split; [reflexivity |]. repeat constructor. }
  split; [reflexivity |]. split; [reflexivity |]. split; [exact H |].
  exact (proj1 (cosmetics_do_not_matter 0 pierceWorld flashyWorld
                  eq_refl eq_refl H)).
Defined.

(** * Properties of the frame in double precision *)

(** ** Rounding to the nearest double *)

Lemma roundHalfEven_near (r : Q) :
  inject_Z (roundHalfEven r) - r <= 1 # 2 /\
  r - inject_Z (roundHalfEven r) <= 1 # 2.
Proof.
  unfold roundHalfEven. cbv zeta.
  pose proof (Qfloor_le r) as H1. pose proof (Qlt_floor r) as H2.
  rewrite inject_Z_plus in H2. change (inject_Z 1) with 1 in H2.
  destruct (Qcompare (r - inject_Z (Qfloor r)) (1 # 2)) eqn:C.
  - apply Qeq_alt in C.
    destruct (Z.even (Qfloor r));
      rewrite ?inject_Z_plus; change (inject_Z 1) with 1; lra.
  - apply Qlt_alt in C. lra.
  - apply Qgt_alt in C. rewrite inject_Z_plus. change (inject_Z 1) with 1.
    lra.
Qed.

Lemma binade_small (q : Q) : Qabs q < bigQ -> (binade q <= 39)%Z.
Proof.
  intro H. unfold binade. cbv zeta.
  set (n := Z.abs (Qnum q)). set (d := Zpos (Qden q)).
  assert (Hn : (n < 2 ^ 40 * d)%Z).
  { destruct q as [a p]. unfold Qlt, Qabs, bigQ in H. cbn in H.
    subst n d. cbn [Qnum Qden]. lia. }
  assert (Hd : (d < 2 ^ (Z.log2 d + 1))%Z).
  { change (Z.log2 d + 1)%Z with (Z.succ (Z.log2 d)).
    apply Z.log2_spec. subst d. lia. }
  assert (He : (Z.log2 n - Z.log2 d <= 40)%Z).
  { destruct (Z.eq_dec n 0) as [-> | Hz].
    - cbn [Z.log2]. pose proof (Z.log2_nonneg d). lia.
    - assert (Hp : (0 < n)%Z) by (subst n; lia).
      assert (K : (n < 2 ^ (Z.log2 d + 41))%Z).
      { replace (Z.log2 d + 41)%Z with (40 + (Z.log2 d + 1))%Z by lia.
        rewrite Z.pow_add_r; [| lia | pose proof (Z.log2_nonneg d); lia].
        nia. }
      apply Z.log2_lt_pow2 in K; [lia | exact Hp]. }
  destruct (Qle_bool _ _) eqn:T; [| lia].
  apply Qle_bool_iff in T.
  assert (Hne : (Z.log2 n - Z.log2 d <> 40)%Z); [| lia].
  intro E. rewrite E in T. change (pow2 40) with bigQ in T. lra.
Qed.

Lemma pow2_scale (k : Z) :
  (13 <= k)%Z ->
  pow2 k * pow2 (- k) == 1 /\ 0 < pow2 (- k) /\ pow2 (- k) <= 1 # 8192.
Proof.
  intro H. unfold pow2.
  destruct (Z.leb_spec 0 k); [| lia].
  destruct (Z.leb_spec 0 (- k)); [lia |].
  rewrite Z.opp_involutive.
  assert (P : (8192 <= 2 ^ k)%Z).
  { change 8192%Z with (2 ^ 13)%Z. apply Z.pow_le_mono_r; lia. }
  assert (Q1 : 8192 <= inject_Z (2 ^ k)).
  { change 8192 with (inject_Z 8192). rewrite <- Zle_Qle. exact P. }
  generalize dependent (inject_Z (2 ^ k)). intros t Ht.
  assert (T0 : 0 < t) by lra.
  assert (I : 0 < / t) by (apply Qinv_lt_0_compat; exact T0).
  assert (E : t * / t == 1) by (apply Qmult_inv_r; lra).
  split; [exact E |]. split; [exact I |].
  assert (K : 8192 * / t <= t * / t).
  { apply Qmult_le_compat_r; lra. }
  lra.
Qed.

(** The doubles of some literals of the program, an integer that is a
    double, and two ties. *)
Lemma roundDouble_examples :
  roundDouble 0.1 = 3602879701896397 # 36028797018963968 /\
  roundDouble 0.15 = 5404319552844595 # 36028797018963968 /\
  roundDouble 0.04 = 5764607523034235 # 144115188075855872 /\
  roundDouble (1 + roundDouble (1 * roundDouble 0.15)) =
    2589569785738035 # 2251799813685248 /\
  roundDouble 554 = 554 /\
  roundDouble 9007199254740993 = 9007199254740992 /\
  roundDouble 9007199254740995 = 9007199254740996.
Proof. vm_compute. repeat split; reflexivity. Qed.

Lemma roundDouble_nearly : nearly roundDouble.
Proof.
  intros q H1 H2. unfold roundDouble.
  destruct (Qeq_bool q 0) eqn:Z0.
  - apply Qeq_bool_iff in Z0. unfold eps. lra.
  - cbv zeta. rewrite Qred_correct.
    assert (A : Qabs q < bigQ).
    { apply Qabs_case; intros; lra. }
    pose proof (binade_small q A) as B.
    destruct (pow2_scale (52 - binade q)) as [E [P0 P1]]; [lia |].
    destruct (roundHalfEven_near (q * pow2 (52 - binade q))) as [R1 R2].
    generalize dependent (inject_Z (roundHalfEven (q * pow2 (52 - binade q)))).
    generalize dependent (pow2 (- (52 - binade q))).
    generalize dependent (pow2 (52 - binade q)).
    intros p p' E P0 P1 z R1 R2. unfold eps.
    assert (K1 : (z - q * p) * p' <= (1 # 2) * p').
    { apply Qmult_le_compat_r; lra. }
    assert (K2 : (q * p - z) * p' <= (1 # 2) * p').
    { apply Qmult_le_compat_r; lra. }
    assert (E' : q * p * p' == q).
    { rewrite <- Qmult_assoc, E. ring. }
    split.
    + assert (q * p * p' - z * p' <= (1 # 2) * p') by (ring_simplify in K2; ring_simplify; lra).
      lra.
    + assert (z * p' - q * p * p' <= (1 # 2) * p') by (ring_simplify in K1; ring_simplify; lra).
      lra.
Qed.

(** ** The rounded frame, step by step *)

Section RoundedFrame.

Variable fl : Q -> Q.

Lemma forColsR_map (L row : Z) (n : nat) :
  forall col acc,
    forColsR fl n L row col (map (withSpeed (speedR fl L)) acc) =
    map (withSpeed (speedR fl L)) (forCols n L row col acc).
Proof.
  induction n as [| n IH]; intros col acc; cbn [forColsR forCols];
    [reflexivity |].
  rewrite length_map. destruct (_ >=? _)%Z; [reflexivity |].
  rewrite <- IH, map_app. reflexivity.
Qed.

Lemma forRowsR_map (L : Z) (n : nat) :
  forall row acc,
    forRowsR fl n L row (map (withSpeed (speedR fl L)) acc) =
    map (withSpeed (speedR fl L)) (forRows n L row acc).
Proof.
  induction n as [| n IH]; intros row acc; cbn [forRowsR forRows];
    [reflexivity |].
  rewrite forColsR_map. apply IH.
Qed.

Lemma generateWaveR_map (L : Z) :
  generateWaveR fl L = map (withSpeed (speedR fl L)) (generateWave L).
Proof. unfold generateWaveR, generateWave. apply (forRowsR_map L _ _ []). Qed.

Lemma advanceEnemyR_spec (e : Enemy) (h : bool) :
  advanceEnemyR fl e h =
  (movedEnemyR fl e, h || (active e && touchesEdge (movedEnemyR fl e))).
Proof.
  unfold movedEnemyR, advanceEnemyR.
  destruct (active e) eqn:A; cbn [negb fst].
  - destruct (Qgtb _ 0); cbn [fst andb active setHitFlash setEnemyBox];
      destruct (touchesEdge _); destruct h; reflexivity.
  - destruct h; reflexivity.
Qed.

Lemma movedEnemyR_active (e : Enemy) : active (movedEnemyR fl e) = active e.
Proof.
  unfold movedEnemyR, advanceEnemyR.
  destruct (active e) eqn:A; cbn [negb fst]; [| exact A].
  destruct (Qgtb _ 0); cbn [fst active setHitFlash setEnemyBox]; exact A.
Qed.

Lemma movedEnemyR_fields (e : Enemy) :
  y (movedEnemyR fl e) = y e /\ width (movedEnemyR fl e) = width e /\
  height (movedEnemyR fl e) = height e /\
  direction (movedEnemyR fl e) = direction e /\
  health (movedEnemyR fl e) = health e /\
  speed (movedEnemyR fl e) = speed e.
Proof.
  unfold movedEnemyR, advanceEnemyR.
  destruct (active e); cbn [negb fst]; [| repeat split].
  destruct (Qgtb _ 0); repeat split.
Qed.

Lemma movedEnemyR_x (e : Enemy) :
  active e = true ->
  x (movedEnemyR fl e) = fl (x e + speed e * inject_Z (direction e)).
Proof.
  intro A. unfold movedEnemyR, advanceEnemyR. rewrite A. cbn [negb fst].
  destruct (Qgtb _ 0); reflexivity.
Qed.

Lemma advanceEnemiesR_spec (es : list Enemy) :
  forall h,
    advanceEnemiesR fl es h =
    (map (movedEnemyR fl) es,
     h || existsb (fun e => active e && touchesEdge e)
            (map (movedEnemyR fl) es)).
Proof.
  induction es as [| e rest IH]; intro h; cbn [advanceEnemiesR map existsb].
  - rewrite orb_false_r. reflexivity.
  - rewrite advanceEnemyR_spec, IH, movedEnemyR_active, orb_assoc.
    reflexivity.
Qed.

Lemma updateEnemiesR_enemies (s : GameState) :
  enemies (updateEnemiesR fl s) =
  if existsb (fun e => active e && touchesEdge e)
       (map (movedEnemyR fl) (enemies s))
  then map bounceEnemy (map (movedEnemyR fl) (enemies s))
  else map (movedEnemyR fl) (enemies s).
Proof.
  unfold updateEnemiesR. rewrite advanceEnemiesR_spec. cbn [orb].
  destruct (existsb _ _); reflexivity.
Qed.

Lemma updateEnemiesR_session (s : GameState) :
  sameSession s (updateEnemiesR fl s) /\
  bullets (updateEnemiesR fl s) = bullets s.
Proof.
  unfold updateEnemiesR.
  destruct (advanceEnemiesR fl (enemies s) false) as [es h].
  destruct h; repeat split.
Qed.

Lemma checkCollisionR_true (a b : Entity) :
  checkCollisionR fl a b = true <->
  x a < fl (x b + width b) /\ x b < fl (x a + width a) /\
  y a < fl (y b + height b) /\ y b < fl (y a + height a).
Proof.
  unfold checkCollisionR.
  rewrite !andb_true_iff, !Qgtb_iff, !Qltb_iff. tauto.
Qed.

Lemma checkCollisionR_false (a b : Entity) :
  checkCollisionR fl a b = false <->
  fl (x b + width b) <= x a \/ fl (x a + width a) <= x b \/
  fl (y b + height b) <= y a \/ fl (y a + height a) <= y b.
Proof.
  unfold checkCollisionR, Qgtb.
  rewrite !andb_false_iff, !Qltb_false_iff. tauto.
Qed.

Lemma hitEnemyR_fades (lvl : Z) (e : Enemy) (h : HitState) :
  fades e (fst (hitEnemyR fl lvl e h)).
Proof.
  unfold hitEnemyR.
  destruct (active e) eqn:A; cbn [negb]; [| apply fades_refl].
  destruct (checkCollisionR fl (hsBullet h) e); [| apply fades_refl].
  cbv zeta. cbn [health setHitFlash setHealth enemySpec].
  destruct (health e - 1 <=? 0)%Z; unfold fades; cbn; auto.
Qed.

Lemma hitEnemiesR_fades (lvl : Z) (es : list Enemy) :
  forall h, Forall2 fades es (fst (hitEnemiesR fl lvl es h)).
Proof.
  induction es as [| e rest IH]; intro h; cbn [hitEnemiesR];
    [constructor |].
  pose proof (hitEnemyR_fades lvl e h) as H.
  destruct (hitEnemyR fl lvl e h) as [e' h1]. specialize (IH h1).
  destruct (hitEnemiesR fl lvl rest h1) as [rest' h2].
  constructor; assumption.
Qed.

Lemma hitEnemyR_bullet (lvl : Z) (e : Enemy) (h : HitState) :
  bulletBox (hsBullet (snd (hitEnemyR fl lvl e h))) = bulletBox (hsBullet h).
Proof.
  unfold hitEnemyR. destruct (negb (active e)); [reflexivity |].
  destruct (checkCollisionR fl (hsBullet h) e); [| reflexivity].
  cbv zeta. destruct (_ <=? _)%Z; reflexivity.
Qed.

Lemma hitEnemiesR_bullet (lvl : Z) (es : list Enemy) :
  forall h,
    bulletBox (hsBullet (snd (hitEnemiesR fl lvl es h))) =
    bulletBox (hsBullet h).
Proof.
  induction es as [| e rest IH]; intro h; cbn [hitEnemiesR]; [reflexivity |].
  pose proof (hitEnemyR_bullet lvl e h) as H.
  destruct (hitEnemyR fl lvl e h) as [e' h1]. specialize (IH h1).
  destruct (hitEnemiesR fl lvl rest h1) as [rest' h2]. cbn [snd] in *.
  congruence.
Qed.

Lemma hitEnemyR_health (lvl : Z) (e : Enemy) (h : HitState) :
  (0 <= health e - health (fst (hitEnemyR fl lvl e h)) <= 1)%Z.
Proof.
  unfold hitEnemyR. cbv zeta.
  destruct (active e) eqn:A; cbn [negb]; [| cbn [fst]; lia].
  destruct (checkCollisionR fl (hsBullet h) e); [| cbn [fst]; lia].
  cbn [health setHitFlash setHealth enemySpec].
  destruct (health e - 1 <=? 0)%Z; cbn; lia.
Qed.

Lemma hitEnemiesR_miss (lvl : Z) (es : list Enemy) :
  forall h,
    Forall (fun e => active e = true ->
                     checkCollisionR fl (hsBullet h) e = false) es ->
    hitEnemiesR fl lvl es h = (es, h).
Proof.
  induction es as [| e rest IH]; intros h H; cbn [hitEnemiesR];
    [reflexivity |].
  inversion H as [| ? ? He Hrest]; subst.
  unfold hitEnemyR. destruct (active e) eqn:A; cbn [negb].
  - rewrite (He eq_refl). rewrite (IH h Hrest). reflexivity.
  - rewrite (IH h Hrest). reflexivity.
Qed.

Lemma hitBulletsR_session (bs : list Bullet) :
  forall s,
    sameSession s (snd (hitBulletsR fl bs s)) /\
    map bulletBox (fst (hitBulletsR fl bs s)) = map bulletBox bs.
Proof.
  induction bs as [| b rest IH]; intro s; cbn [hitBulletsR].
  - split; [apply sameSession_refl | reflexivity].
  - destruct (negb (bulletActive b)).
    + destruct (IH s) as [I1 I2]. destruct (hitBulletsR fl rest s) as [r t].
      cbn [fst snd map] in *. split; [exact I1 | congruence].
    + pose proof (hitEnemiesR_bullet (level s) (enemies s)
                    (mkHitState b (score s) (explosions s))) as H.
      destruct (hitEnemiesR _ _ _ _) as [es h]. cbn [snd hsBullet] in H.
      set (s1 := setExplosions _ _). destruct (IH s1) as [I1 I2].
      destruct (hitBulletsR fl rest s1) as [r t]. cbn [fst snd map] in *.
      split; [| congruence].
      eapply sameSession_trans; [| exact I1]. repeat split.
Qed.

Lemma bulletEnemyCollisionR_session (s : GameState) :
  sameSession s (bulletEnemyCollisionR fl s) /\
  map bulletBox (bullets (bulletEnemyCollisionR fl s)) =
  map bulletBox (bullets s) /\
  enemies (bulletEnemyCollisionR fl s) =
  enemies (snd (hitBulletsR fl (bullets s) s)).
Proof.
  unfold bulletEnemyCollisionR.
  destruct (hitBulletsR_session (bullets s) s) as [H1 H2].
  destruct (hitBulletsR fl (bullets s) s) as [bs s']. cbn [fst snd] in *.
  split; [| split; [exact H2 | reflexivity]].
  eapply sameSession_trans; [exact H1 |]. repeat split.
Qed.

Lemma crashEnemyR_fades (p : Entity) (e : Enemy) (c : CrashState) :
  fades e (fst (crashEnemyR fl p e c)) /\
  (active (fst (crashEnemyR fl p e c)) = true -> y e <= CANVAS_HEIGHT - 100).
Proof.
  unfold crashEnemyR.
  destruct (active e) eqn:A; cbn [negb];
    [| split; [apply fades_refl | cbn [fst]; congruence]].
  destruct (Qgtb (y e) (CANVAS_HEIGHT - 100)) eqn:G.
  - rewrite orb_true_r.
    destruct (checkCollisionR fl p (setActive false e));
      (split; [unfold fades; cbn; auto | cbn; discriminate]).
  - apply Qltb_false_iff in G. rewrite orb_false_r.
    destruct (checkCollisionR fl p e).
    + split; [unfold fades; cbn; auto | cbn; discriminate].
    + split; [apply fades_refl | intros _; exact G].
Qed.

Lemma crashEnemiesR_fades (p : Entity) (es : list Enemy) :
  forall c,
    Forall2 (fun e e' => fades e e' /\
                         (active e' = true -> y e <= CANVAS_HEIGHT - 100))
      es (fst (crashEnemiesR fl p es c)).
Proof.
  induction es as [| e rest IH]; intro c; cbn [crashEnemiesR];
    [constructor |].
  pose proof (crashEnemyR_fades p e c) as H.
  destruct (crashEnemyR fl p e c) as [e' c1]. specialize (IH c1).
  destruct (crashEnemiesR fl p rest c1) as [rest' c2].
  constructor; assumption.
Qed.

Lemma playerEnemyCollisionR_keeps (s : GameState) :
  player (playerEnemyCollisionR fl s) = player s /\
  level (playerEnemyCollisionR fl s) = level s /\
  bullets (playerEnemyCollisionR fl s) = bullets s /\
  Forall2 (fun e e' => fades e e' /\
                       (active e' = true -> y e <= CANVAS_HEIGHT - 100))
    (enemies s) (enemies (playerEnemyCollisionR fl s)).
Proof.
  unfold playerEnemyCollisionR.
  pose proof (crashEnemiesR_fades (player s) (enemies s)
                (mkCrashState (lives s) (gameOver s) (explosions s))) as F.
  destruct (crashEnemiesR _ _ _ _) as [es c]. cbn [fst] in F.
  repeat split. exact F.
Qed.

(** What a rounded frame of play keeps of the state after the input step,
    and what it makes of the enemies in two stages. *)
Lemma simulateR_keeps (s : GameState) :
  player (simulateR fl s) = player s /\
  level (simulateR fl s) = level s /\
  map bulletBox (bullets (simulateR fl s)) =
  map bulletBox (bullets (updateBullets s)) /\
  Forall2 (fun e e' => fades e e' /\
                       (active e' = true -> y e <= CANVAS_HEIGHT - 100))
    (enemies (bulletEnemyCollisionR fl (beforeHitR fl s)))
    (enemies (simulateR fl s)).
Proof.
  unfold simulateR.
  set (s1 := beforeHitR fl s). set (s2 := bulletEnemyCollisionR fl s1).
  set (s3 := playerEnemyCollisionR fl s2).
  change (player (updateExplosionsR fl ?t)) with (player t).
  change (level (updateExplosionsR fl ?t)) with (level t).
  change (bullets (updateExplosionsR fl ?t)) with (bullets t).
  change (enemies (updateExplosionsR fl ?t)) with (enemies t).
  destruct (checkWaveComplete_keeps s3) as [_ [_ [_ [-> [_ [-> [-> _]]]]]]].
  rewrite checkWaveComplete_player.
  destruct (playerEnemyCollisionR_keeps s2) as [P1 [P2 [P3 P4]]].
  fold s3 in P1, P2, P3, P4. rewrite P1, P2, P3.
  destruct (bulletEnemyCollisionR_session s1) as [[B1 [_ [B2 _]]] [B3 _]].
  fold s2 in B1, B2, B3. rewrite B1, B2, B3.
  destruct (updateEnemiesR_session (updateBullets s)) as [[U1 [_ [U2 _]]] U3].
  fold (beforeHitR fl s) in U1, U2, U3. fold s1 in U1, U2, U3.
  rewrite U1, U2, U3. repeat split. exact P4.
Qed.

End RoundedFrame.

(** ** Health taken by one bullet *)

Section RoundedHits.

Variable fl : Q -> Q.




End RoundedHits.

(** ** The march of a wave under rounding *)

Section RoundedMarch.

Variable fl : Q -> Q.
Hypothesis fl_near : nearly fl.

Lemma speedR_bounds (L : Z) :
  (1 <= L <= maxLevel)%Z ->
  99 # 100 <= speedR fl L /\ speedR fl L <= maxSpeed.
Proof.
  intros [H1 H2]. unfold speedR, maxSpeed.
  rewrite Zle_Qle in H1, H2. unfold maxLevel in H2.
  change (inject_Z 1) with 1 in H1.
  change (inject_Z 100000000) with 100000000 in H2.
  generalize dependent (inject_Z L). intros l H1 H2.
  destruct (fl_near 0.15) as [A1 A2]; [unfold bigQ; lra | unfold bigQ; lra |].
  unfold eps in *. generalize dependent (fl 0.15). intros a A1 A2.
  assert (P1 : 0 <= l * a) by (apply Qmult_le_0_compat; lra).
  assert (P2 : l * a <= 100000000 * a) by (apply Qmult_le_compat_r; lra).
  destruct (fl_near (l * a)) as [B1 B2];
    [unfold bigQ; lra | unfold bigQ; lra |].
  unfold eps in *. generalize dependent (fl (l * a)).
  generalize dependent (l * a). intros p P1 P2 b B1 B2.
  destruct (fl_near (1 + b)) as [C1 C2];
    [unfold bigQ; lra | unfold bigQ; lra |].
  unfold eps in *. lra.
Qed.

Lemma waveCell_bounds (L : Z) (k : nat) :
  (1 <= L <= maxLevel)%Z -> (Z.of_nat k < baseEnemies L)%Z ->
  60 <= y (waveCell L k) /\ y (waveCell L k) <= 210 /\
  - gridReach <= x (waveCell L k) /\ x (waveCell L k) <= gridReach.
Proof.
  intros [H1 H2] Hk. destruct (wave_sizes L H1) as [HB [HR [HC Hfit]]].
  assert (Hbase : (baseEnemies L <= 150000004)%Z).
  { rewrite baseEnemies_eq. unfold maxLevel in H2.
    Z.div_mod_to_equations. lia. }
  assert (Hc : (waveCols L <= 150000004)%Z).
  { rewrite waveCols_eq. Z.div_mod_to_equations. nia. }
  unfold waveCell, waveEnemy, startX, startY, spacing, CANVAS_WIDTH,
    gridReach.
  cbn [x y specBox].
  set (C := waveCols L) in *.
  assert (Bc := Z.mod_pos_bound (Z.of_nat k) C ltac:(lia)).
  assert (Br : (0 <= Z.of_nat k / C <= 3)%Z).
  { split; [apply Z.div_pos; lia |].
    assert (Z.of_nat k / C < 4)%Z; [| lia].
    apply Z.div_lt_upper_bound; [lia |]. nia. }
  generalize dependent (Z.of_nat k mod C)%Z. intros c Bc.
  generalize dependent (Z.of_nat k / C)%Z. intros r Br.
  destruct Bc as [Bc1 Bc2]. destruct Br as [Br1 Br2].
  assert (Bc3 : (c + 1 <= C)%Z) by lia.
  rewrite Zle_Qle in Bc1, Br1, Br2, HC, Hc, Bc3.
  rewrite inject_Z_plus in Bc3.
  change (inject_Z 0) with 0 in *. change (inject_Z 1) with 1 in *.
  change (inject_Z 3) with 3 in *.
  change (inject_Z 150000004) with 150000004 in *.
  generalize dependent (inject_Z C). generalize dependent (inject_Z c).
  generalize dependent (inject_Z r). intros. unfold Qdiv.
  change (/ 2) with (1 # 2). repeat split; lra.
Qed.

Lemma wave_marching (L : Z) :
  (1 <= L <= maxLevel)%Z ->
  marching 600 (map freshEnemy (generateWaveR fl L)).
Proof.
  intro HL. destruct (speedR_bounds L HL) as [S1 S2].
  rewrite generateWaveR_map, (generateWave_layout L (proj1 HL)).
  unfold wavePrefix. rewrite !map_map.
  exists (mkMarch (speedR fl L) 1 0 0 0). split; [| split].
  - unfold marchOK. cbn [pace heading advances leg bounces].
    repeat split; auto; lra.
  - apply Forall_map, Forall_forall. intros k Hk _. apply in_seq in Hk.
    destruct (waveCell_bounds L k HL) as [Y1 [Y2 [X1 X2]]]; [lia |].
    cbn [pace heading advances leg bounces freshEnemy withSpeed enemySpec
         specBox speed direction].
    unfold reach. repeat split; try reflexivity; try lra.
  - apply pairs_map_seq. intros i j _ Hij _ _ _.
    cbn [advances freshEnemy withSpeed enemySpec specBox].
    destruct (wave_cells_apart L i j (proj1 HL) Hij) as [H | H]; lra.
Qed.

(** While a wave has an active enemy it has bounced at most 28 times and
    taken fewer than 16182 advance steps. *)
Lemma inMarch_bounds (g : March) (top : Q) (e : Enemy) :
  marchOK g -> inMarch g top e -> active e = true -> top <= 620 ->
  leg g <= 557 /\ advances g <= 16181.
Proof.
  intros [_ [_ [Hh [Hl [Hb [Hn Hnb]]]]]] H A Ht.
  destruct (H A) as [_ [_ [_ [_ [Y1 [Y2 [_ [_ P]]]]]]]].
  assert (L : leg g <= 557).
  { destruct Hl as [-> | Hl]; [lra |].
    destruct (P Hl) as [P1 [P2 [P3 P4]]].
    destruct Hh as [Hh | Hh]; [specialize (P3 Hh) | specialize (P4 Hh)];
      lra. }
  split; [exact L | lra].
Qed.

Lemma moved_near (g : March) (e : Enemy) :
  marchOK g -> inMarch g 600 e -> active e = true ->
  x e + pace g * inject_Z (heading g) - eps <= x (movedEnemyR fl e) /\
  x (movedEnemyR fl e) <= x e + pace g * inject_Z (heading g) + eps.
Proof.
  intros G H A.
  destruct (inMarch_bounds g 600 e G H A) as [_ N]; [lra |].
  destruct G as [S1 [S2 [Hh _]]].
  destruct (H A) as [E1 [E2 [_ [_ [_ [_ [X1 [X2 _]]]]]]]].
  rewrite (movedEnemyR_x fl e A), E1, E2.
  unfold reach, gridReach, maxSpeed in *.
  apply fl_near; unfold bigQ;
    destruct Hh as [-> | ->];
    [change (inject_Z 1) with 1 | change (inject_Z (-1)) with (-1 # 1)
    |change (inject_Z 1) with 1 | change (inject_Z (-1)) with (-1 # 1)];
    lra.
Qed.

Lemma edge_false (e : Enemy) :
  touchesEdge e = false -> 10 < x e /\ x e < 554.
Proof.
  unfold touchesEdge. rewrite orb_false_iff. intros [H1 H2].
  apply Qleb_false_iff in H1. unfold Qgeb in H2.
  apply Qleb_false_iff in H2.
  unfold CANVAS_WIDTH, ENEMY_WIDTH in H2. split; lra.
Qed.

Lemma spaced_moved (g : March) (e1 e2 : Enemy) :
  marchOK g -> inMarch g 600 e1 -> inMarch g 600 e2 ->
  spaced (2 * advances g * eps) e1 e2 ->
  spaced (2 * (advances g + 1) * eps)
    (movedEnemyR fl e1) (movedEnemyR fl e2).
Proof.
  intros G H1 H2 HS A1 A2. rewrite movedEnemyR_active in A1, A2.
  destruct (moved_near g e1 G H1 A1) as [M1 M2].
  destruct (moved_near g e2 G H2 A2) as [N1 N2].
  destruct (movedEnemyR_fields fl e1) as [Y1 _].
  destruct (movedEnemyR_fields fl e2) as [Y2 _].
  rewrite Y1, Y2. specialize (HS A1 A2). unfold eps in *.
  generalize dependent (pace g * inject_Z (heading g)). intros d M1 M2 N1 N2.
  destruct HS as [HS | [HS | [HS | HS]]]; lra.
Qed.

Lemma spaced_bounce (k : Q) (e1 e2 : Enemy) :
  spaced k e1 e2 -> spaced k (bounceEnemy e1) (bounceEnemy e2).
Proof.
  intros H A1 A2. unfold bounceEnemy in *.
  destruct (active e1) eqn:E1; [| congruence].
  destruct (active e2) eqn:E2; [| congruence].
  specialize (H E1 E2). cbn. lra.
Qed.

Lemma spaced_fades (k : Q) (e1 e1' e2 e2' : Enemy) :
  fades e1 e1' -> fades e2 e2' -> spaced k e1 e2 -> spaced k e1' e2'.
Proof.
  intros [B1 [_ [_ F1]]] [B2 [_ [_ F2]]] H A1 A2.
  specialize (H (F1 A1) (F2 A2)). unfold x, y in *. rewrite B1, B2. exact H.
Qed.

Lemma inMarch_fades (g : March) (top : Q) (e e' : Enemy) :
  fades e e' -> inMarch g top e -> inMarch g top e'.
Proof.
  intros [B [S [D F]]] H A. specialize (H (F A)).
  unfold x, y, width, height in *. rewrite B, S, D. exact H.
Qed.

Lemma marching_fades (top : Q) (es es' : list Enemy) :
  Forall2 fades es es' -> marching top es -> marching top es'.
Proof.
  intros F [g [G [H1 H2]]]. exists g. split; [exact G |]. split.
  - apply (Forall_transfer fades (inMarch g top) (inMarch g top)
             (inMarch_fades g top) es es' F H1).
  - apply (pairs_transfer fades _ _
             (fun a a' b b' Ha Hb => spaced_fades _ a a' b b' Ha Hb)
             es es' F H2).
Qed.

(** The enemies that the player-enemy loop leaves active are above the
    breach line. *)
Lemma marching_crash (es es' : list Enemy) :
  Forall2 (fun e e' => fades e e' /\
                       (active e' = true -> y e <= CANVAS_HEIGHT - 100))
    es es' ->
  marching 620 es -> marching 600 es'.
Proof.
  intros F [g [G [H1 H2]]]. exists g. split; [exact G |]. split.
  - apply (Forall_transfer
             (fun e e' : Enemy =>
                fades e e' /\
                (active e' = true -> y e <= CANVAS_HEIGHT - 100))
             (inMarch g 620) (inMarch g 600)) with (l := es);
      auto.
    intros e e' [[B [S [D Fa]]] Hy] H A.
    specialize (H (Fa A)). specialize (Hy A).
    unfold CANVAS_HEIGHT in Hy.
    unfold x, y, width, height in *. rewrite B, S, D.
    destruct H as [K1 [K2 [K3 [K4 [K5 [K6 K7]]]]]].
    repeat split; auto; try apply K7; lra.
  - apply (pairs_transfer
             (fun e e' : Enemy =>
                fades e e' /\
                (active e' = true -> y e <= CANVAS_HEIGHT - 100))
             (spaced (2 * advances g * eps)) (spaced (2 * advances g * eps))
             (fun a a' b b' Ha Hb =>
                spaced_fades _ a a' b b' (proj1 Ha) (proj1 Hb))
             es es' F H2).
Qed.

(** The advance step of a frame: one more step on the leg, or a bounce. *)
Lemma updateEnemiesR_marching (s : GameState) :
  marching 600 (enemies s) -> marching 620 (enemies (updateEnemiesR fl s)).
Proof.
  intros [g [G [H1 H2]]]. rewrite updateEnemiesR_enemies.
  pose proof G as [S1 [S2 [Hh [Hl [Hb [Hn Hnb]]]]]].
  destruct (existsb _ _) eqn:E.
  - (* a bounce *)
    exists (mkMarch (pace g) (heading g * -1) (advances g + 1) 0
              (bounces g + 1)).
    split; [| split].
    + apply existsb_exists in E. destruct E as [e1 [Hin Ha]].
      apply andb_true_iff in Ha. destruct Ha as [Ha _].
      apply in_map_iff in Hin. destruct Hin as [e [<- Hin]].
      rewrite movedEnemyR_active in Ha.
      rewrite Forall_forall in H1.
      destruct (inMarch_bounds g 600 e G (H1 e Hin) Ha) as [L _]; [lra |].
      unfold marchOK. cbn [pace heading advances leg bounces].
      repeat split; auto; try lra. destruct Hh as [-> | ->]; auto.
    + rewrite map_map. apply Forall_map.
      eapply Forall_impl; [| exact H1]. intros e H A.
      assert (A0 : active e = true).
      { destruct (active e) eqn:Ae; [reflexivity |].
        unfold bounceEnemy in A. rewrite movedEnemyR_active, Ae in A.
        change (active (movedEnemyR fl e) = true) in A.
        rewrite movedEnemyR_active in A. congruence. }
      destruct (moved_near g e G H A0) as [M1 M2].
      destruct (inMarch_bounds g 600 e G H A0) as [_ N]; [lra |].
      destruct (H A0) as [K1 [K2 [K3 [K4 [K5 [K6 [K7 [K8 _]]]]]]]].
      destruct (movedEnemyR_fields fl e) as [F1 [F2 [F3 [F4 [_ F5]]]]].
      unfold bounceEnemy. rewrite movedEnemyR_active, A0.
      cbn [pace heading advances leg bounces setDirection setEnemyBox setY
           active enemySpec specBox speed direction x y width height].
      change (speed (movedEnemyR fl e) = pace g /\
              (direction (movedEnemyR fl e) * -1)%Z = (heading g * -1)%Z /\
              width (movedEnemyR fl e) = ENEMY_WIDTH /\
              height (movedEnemyR fl e) = ENEMY_HEIGHT /\
              60 + 20 * (bounces g + 1) <= y (movedEnemyR fl e) + 20 /\
              y (movedEnemyR fl e) + 20 <= 620 /\
              - reach (advances g + 1) <= x (movedEnemyR fl e) /\
              x (movedEnemyR fl e) <= reach (advances g + 1) /\
              (1 <= 0 -> 10 < x (movedEnemyR fl e) /\
                         x (movedEnemyR fl e) < 554 /\
                         ((heading g * -1)%Z = 1%Z ->
                          10 + (0 - 1) * (49 # 50) < x (movedEnemyR fl e)) /\
                         ((heading g * -1)%Z = (-1)%Z ->
                          x (movedEnemyR fl e) < 554 - (0 - 1) * (49 # 50)))).
      rewrite F1, F2, F3, F4, F5.
      unfold reach, gridReach, maxSpeed, eps in *.
      assert (D : -1 <= inject_Z (heading g) <= 1).
      { destruct Hh as [-> | ->]; split; vm_compute; discriminate. }
      assert (PD : - pace g <= pace g * inject_Z (heading g) <= pace g).
      { destruct Hh as [-> | ->];
          [change (inject_Z 1) with 1 | change (inject_Z (-1)) with (-1 # 1)];
          lra. }
      generalize dependent (pace g * inject_Z (heading g)). intros.
      repeat split; try congruence; try lra.
    + rewrite map_map.
      apply (pairs_transfer
               (fun a a' => a' = bounceEnemy (movedEnemyR fl a))
               (fun a b => inMarch g 600 a /\ inMarch g 600 b /\
                           spaced (2 * advances g * eps) a b))
        with (l := enemies s).
      * intros a a' b b' -> -> [Ia [Ib Hs]].
        apply spaced_bounce.
        cbn [advances]. apply (spaced_moved g); assumption.
      * apply (Forall2_map_eq (fun a => bounceEnemy (movedEnemyR fl a))).
      * apply pairs_with_Forall; assumption.
  - (* one more step on the leg *)
    exists (mkMarch (pace g) (heading g) (advances g + 1) (leg g + 1)
              (bounces g)).
    split; [| split].
    + unfold marchOK. cbn [pace heading advances leg bounces].
      repeat split; auto; try lra. right. destruct Hl as [-> | Hl]; lra.
    + apply Forall_map. apply Forall_forall. intros e Hin A.
      rewrite movedEnemyR_active in A.
      rewrite Forall_forall in H1. pose proof (H1 e Hin) as H.
      assert (T : touchesEdge (movedEnemyR fl e) = false).
      { rewrite <- not_true_iff_false. intro T.
        rewrite <- not_true_iff_false in E. apply E.
        apply existsb_exists. exists (movedEnemyR fl e).
        split; [apply in_map; exact Hin |].
        rewrite movedEnemyR_active, A, T. reflexivity. }
      apply edge_false in T. destruct T as [T1 T2].
      destruct (moved_near g e G H A) as [M1 M2].
      destruct (inMarch_bounds g 600 e G H A) as [_ N]; [lra |].
      destruct (H A) as [K1 [K2 [K3 [K4 [K5 [K6 [K7 [K8 K9]]]]]]]].
      destruct (movedEnemyR_fields fl e) as [F1 [F2 [F3 [F4 [_ F5]]]]].
      cbn [pace heading advances leg bounces].
      rewrite F1, F2, F3, F4, F5.
      unfold reach, gridReach, maxSpeed, eps in *.
      assert (PD : - pace g <= pace g * inject_Z (heading g) <= pace g).
      { destruct Hh as [-> | ->];
          [change (inject_Z 1) with 1 | change (inject_Z (-1)) with (-1 # 1)];
          lra. }
      repeat split; try congruence; try lra.
      * intro Hd. rewrite Hd in M1, M2. change (inject_Z 1) with 1 in M1, M2.
        destruct Hl as [Hl | Hl]; [rewrite Hl; lra |].
        destruct (K9 Hl) as [_ [_ [P3 _]]]. specialize (P3 Hd). lra.
      * intro Hd. rewrite Hd in M1, M2.
        change (inject_Z (-1)) with (-1 # 1) in M1, M2.
        destruct Hl as [Hl | Hl]; [rewrite Hl; lra |].
        destruct (K9 Hl) as [_ [_ [_ P4]]]. specialize (P4 Hd). lra.
    + apply (pairs_transfer
               (fun a a' => a' = movedEnemyR fl a)
               (fun a b => inMarch g 600 a /\ inMarch g 600 b /\
                           spaced (2 * advances g * eps) a b))
        with (l := enemies s).
      * intros a a' b b' -> -> [Ia [Ib Hs]].
        cbn [advances]. apply (spaced_moved g); assumption.
      * apply Forall2_map_eq.
      * apply pairs_with_Forall; assumption.
Qed.


(** A bullet is too small to reach two enemies of a march. *)
Lemma no_double_hitR (g : March) (b : Bullet) (e1 e2 : Enemy) :
  marchOK g -> inMarch g 620 e1 -> inMarch g 620 e2 ->
  spaced (2 * advances g * eps) e1 e2 ->
  active e1 = true -> active e2 = true -> inFlight b ->
  checkCollisionR fl b e1 = true -> checkCollisionR fl b e2 = false.
Proof.
  intros G H1 H2 HS A1 A2 [Wb [Hb [B1 [B2 [B3 B4]]]]] C.
  destruct (inMarch_bounds g 620 e1 G H1 A1) as [_ N]; [lra |].
  destruct (H1 A1) as [_ [_ [W1 [T1 [Y1 [Y1' [X1 [X1' _]]]]]]]].
  destruct (H2 A2) as [_ [_ [W2 [T2 [Y2 [Y2' [X2 [X2' _]]]]]]]].
  destruct G as [_ [_ [_ [_ [Hbn _]]]]].
  apply checkCollisionR_true in C. apply checkCollisionR_false.
  specialize (HS A1 A2).
  rewrite Wb, Hb, W1, T1 in C. rewrite Wb, Hb, W2, T2.
  unfold reach, gridReach, maxSpeed, eps, BULLET_WIDTH, BULLET_HEIGHT,
    ENEMY_WIDTH, ENEMY_HEIGHT in *.
  rewrite Wb in B2.
  destruct (fl_near (x e1 + 36)) as [P1 P2]; [unfold bigQ; lra.. |].
  destruct (fl_near (y e1 + 28)) as [P3 P4]; [unfold bigQ; lra.. |].
  destruct (fl_near (x e2 + 36)) as [P5 P6]; [unfold bigQ; lra.. |].
  destruct (fl_near (y e2 + 28)) as [P7 P8]; [unfold bigQ; lra.. |].
  destruct (fl_near (x b + 4)) as [R1 R2]; [unfold bigQ; lra.. |].
  destruct (fl_near (y b + 12)) as [R3 R4]; [unfold bigQ; lra.. |].
  unfold eps in *.
  destruct C as [C1 [C2 [C3 C4]]].
  destruct HS as [HS | [HS | [HS | HS]]];
    [right; left | left | right; right; right | right; right; left]; lra.
Qed.

Lemma hitEnemiesR_one (lvl : Z) (g : March) (es : list Enemy) :
  marchOK g -> Forall (inMarch g 620) es ->
  ForallOrdPairs (spaced (2 * advances g * eps)) es ->
  forall h,
    inFlight (hsBullet h) ->
    (0 <= totalHealth es - totalHealth (fst (hitEnemiesR fl lvl es h)) <= 1)%Z.
Proof.
  intros G HM HP. induction HP as [| e rest Hhd Htl IH]; intros h Hb;
    cbn [hitEnemiesR totalHealth]; [cbn; lia |].
  inversion HM as [| ? ? Me Mrest]; subst.
  destruct (active e && checkCollisionR fl (hsBullet h) e) eqn:Hit.
  - apply andb_true_iff in Hit. destruct Hit as [A C].
    pose proof (hitEnemyR_health fl lvl e h) as K.
    pose proof (hitEnemyR_bullet fl lvl e h) as B.
    destruct (hitEnemyR fl lvl e h) as [e' h1]. cbn [fst snd] in *.
    rewrite (hitEnemiesR_miss fl lvl rest h1).
    + cbn [fst totalHealth]. lia.
    + apply Forall_forall. intros e2 Hin A2.
      rewrite Forall_forall in Hhd, Mrest.
      change (checkCollisionR fl (bulletBox (hsBullet h1)) e2 = false).
      rewrite B.
      apply (no_double_hitR g (hsBullet h) e e2); auto.
  - assert (E : hitEnemyR fl lvl e h = (e, h)).
    { unfold hitEnemyR. destruct (active e); cbn [negb andb] in *;
        [rewrite Hit |]; reflexivity. }
    rewrite E. specialize (IH Mrest h Hb).
    destruct (hitEnemiesR fl lvl rest h) as [rest' h2].
    cbn [fst totalHealth] in *. lia.
Qed.

Lemma bulletDamageR_bound (bs : list Bullet) :
  forall s,
    marching 620 (enemies s) -> Forall inFlight bs ->
    Forall (fun d => (0 <= d <= 1)%Z) (bulletDamageR fl bs s) /\
    length (bulletDamageR fl bs s) = length bs /\
    (totalHealth (enemies s)
     - totalHealth (enemies (snd (hitBulletsR fl bs s))))%Z
    = fold_right Z.add 0%Z (bulletDamageR fl bs s) /\
    marching 620 (enemies (snd (hitBulletsR fl bs s))).
Proof.
  induction bs as [| b rest IH]; intros s HF HB;
    cbn [bulletDamageR hitBulletsR].
  - cbn. repeat split; [constructor | lia | exact HF].
  - inversion HB as [| ? ? Hb Hrest]; subst.
    destruct (negb (bulletActive b)).
    + destruct (IH s HF Hrest) as [I1 [I2 [I3 I4]]].
      destruct (hitBulletsR fl rest s) as [r t]. cbn [snd] in *.
      cbn [length fold_right]. repeat split; [constructor |..]; auto; lia.
    + assert (K : (0 <= totalHealth (enemies s)
                        - totalHealth
                            (fst (hitEnemiesR fl (level s) (enemies s)
                                    (mkHitState b (score s) (explosions s))))
                   <= 1)%Z).
      { destruct HF as [g [G [H1 H2]]].
        apply (hitEnemiesR_one (level s) g); auto. }
      pose proof (hitEnemiesR_fades fl (level s) (enemies s)
                    (mkHitState b (score s) (explosions s))) as F.
      destruct (hitEnemiesR _ _ _ _) as [es h]. cbn [fst] in K, F.
      set (s1 := setExplosions _ _).
      destruct (IH s1 (marching_fades _ _ _ F HF) Hrest) as [I1 [I2 [I3 I4]]].
      destruct (hitBulletsR fl rest s1) as [r t]. cbn [snd] in *.
      cbn [length fold_right]. change (enemies s1) with es in I3.
      repeat split; [constructor |..]; auto; lia.
Qed.

(** ** What every state of a rounded run satisfies *)

Lemma updateBullets_inFlight (now : Z) (w : World) :
  inField (x (player (gameStateRef w))) ->
  y (player (gameStateRef w)) = CANVAS_HEIGHT - PLAYER_HEIGHT - 20 ->
  Forall inFlight (bullets (gameStateRef w)) ->
  Forall inFlight (bullets (updateBullets (gameStateRef (handleInput now w)))).
Proof.
  intros HI Hp H. unfold updateBullets. cbn [bullets setBullets].
  apply Forall_forall. intros b Hb. apply filter_In in Hb.
  destruct Hb as [Hin Hb]. apply andb_true_iff in Hb.
  destruct Hb as [Hy _]. apply Qgtb_iff in Hy.
  apply in_map_iff in Hin. destruct Hin as [b0 [<- Hin]].
  destruct (handleInput_fires now w) as [_ [_ F3]]. rewrite F3 in Hin.
  assert (Hold : In b0 (bullets (gameStateRef w)) ->
                 inFlight (moveBullet b0)).
  { intro Hi. rewrite Forall_forall in H.
    destruct (H b0 Hi) as [A1 [A2 [A3 [A4 [A5 A6]]]]].
    apply moveBullet_inFlight; auto. lra. }
  destruct (fires now w); [| auto].
  apply in_app_or in Hin. destruct Hin as [Hi | [<- | []]]; [auto |].
  pose proof (movePlayer_inField (keysRef w) (gameStateRef w) HI) as [P1 P2].
  apply moveBullet_inFlight; cbn [bulletBox x y width height];
    try reflexivity; try exact Hy;
    unfold CANVAS_WIDTH, CANVAS_HEIGHT, PLAYER_WIDTH, PLAYER_HEIGHT,
      BULLET_WIDTH, Qdiv in *;
    change (/ 2) with (1 # 2); try rewrite Hp; lra.
Qed.

Lemma steady_initial : steady initialGameState.
Proof.
  unfold steady. cbn [initialGameState player bullets level enemies x y].
  split; [split; vm_compute; discriminate |]. split; [reflexivity |].
  split; [constructor |]. split; [lia |]. intros _.
  exists (mkMarch 1 1 0 0 0). split; [| split; constructor].
  unfold marchOK, maxSpeed. cbn [pace heading advances leg bounces].
  repeat split; auto; lra.
Qed.

Lemma steady_reset (s : GameState) :
  y (player s) = CANVAS_HEIGHT - PLAYER_HEIGHT - 20 ->
  steady (resetGameR fl s).
Proof.
  intro Hp. unfold steady.
  replace (x (player (resetGameR fl s)))
    with (CANVAS_WIDTH / 2 - PLAYER_WIDTH / 2) by (destruct s; reflexivity).
  replace (y (player (resetGameR fl s))) with (y (player s))
    by (destruct s; reflexivity).
  replace (bullets (resetGameR fl s)) with (@nil Bullet)
    by (destruct s; reflexivity).
  replace (level (resetGameR fl s)) with 1%Z by (destruct s; reflexivity).
  replace (enemies (resetGameR fl s))
    with (map freshEnemy (generateWaveR fl 1)) by (destruct s; reflexivity).
  split; [split; vm_compute; discriminate |]. split; [exact Hp |].
  split; [constructor |]. split; [lia |]. intros _.
  apply wave_marching. unfold maxLevel. lia.
Qed.

Lemma steady_transition (s : GameState) :
  steady s -> steady (levelTransitionFrameR fl s).
Proof.
  intros [H1 [H2 [H3 [H4 H5]]]]. unfold levelTransitionFrameR.
  cbn [transitionTimer setTransitionTimer].
  destruct (_ <=? _)%Z.
  - unfold steady.
    cbn [initWaveR setLevelTransition setLevelComplete setEnemies setLevel
         setTransitionTimer player bullets level enemies].
    repeat split; auto; try apply H1; try lia.
    intro HL. apply wave_marching. lia.
  - unfold steady.
    cbn [setTransitionTimer player bullets level enemies].
    repeat split; auto; apply H1.
Qed.

Lemma steady_midframe (now : Z) (w : World) :
  steady (gameStateRef w) ->
  let s1 := beforeHitR fl (gameStateRef (handleInput now w)) in
  Forall inFlight (bullets s1) /\
  ((level (gameStateRef w) <= maxLevel)%Z -> marching 620 (enemies s1)).
Proof.
  intros [H1 [H2 [H3 [H4 H5]]]] s1. subst s1. unfold beforeHitR.
  destruct (updateEnemiesR_session fl
              (updateBullets (gameStateRef (handleInput now w)))) as [_ ->].
  split; [apply updateBullets_inFlight; assumption |].
  intro HL. apply updateEnemiesR_marching.
  change (marching 600 (enemies (gameStateRef (handleInput now w)))).
  destruct (handleInput_session now w)
    as [_ [_ [_ [_ [_ [_ [_ [Ie _]]]]]]]].
  cbv zeta in Ie. rewrite Ie. auto.
Qed.

Lemma steady_playing (now : Z) (w : World) :
  steady (gameStateRef w) ->
  steady (simulateR fl (gameStateRef (handleInput now w))).
Proof.
  intro HS. pose proof (steady_midframe now w HS) as [M1 M2].
  cbv zeta in M1, M2.
  destruct HS as [H1 [H2 [H3 [H4 H5]]]].
  destruct (simulateR_keeps fl (gameStateRef (handleInput now w)))
    as [K1 [K2 [K3 K4]]].
  destruct (handleInput_session now w)
    as [_ [Il [_ [_ [_ [_ [_ [Ie [Iy _]]]]]]]]].
  cbv zeta in Il, Ie, Iy.
  unfold steady. rewrite K1, K2, Il, Iy.
  split; [rewrite handleInput_player_x; apply movePlayer_inField; exact H1 |].
  split; [exact H2 |].
  split.
  { apply (inFlight_boxes _ _ (eq_sym K3)).
    apply updateBullets_inFlight; assumption. }
  split; [exact H4 |].
  intro HL. apply (marching_crash _ _ K4).
  destruct (bulletEnemyCollisionR_session fl
              (beforeHitR fl (gameStateRef (handleInput now w))))
    as [_ [_ ->]].
  apply (bulletDamageR_bound
           (bullets (beforeHitR fl (gameStateRef (handleInput now w))))); auto.
Qed.

Lemma reachableR_steady (w : World) :
  reachableR fl w -> steady (gameStateRef w).
Proof.
  induction 1 as [| w ev _ IH]; [apply steady_initial |].
  destruct ev as [key | key | now]; cbn [stepR].
  - unfold handleKeyDownR. cbn [gameStateRef].
    destruct (String.eqb key " " && negb (started (gameStateRef w))).
    + assert (P1 : steady (resetGameR fl (gameStateRef w)))
        by (apply steady_reset, IH).
      destruct (String.eqb key "r" && gameOver (resetGameR fl (gameStateRef w)));
        [| exact P1].
      apply steady_reset, P1.
    + destruct (String.eqb key "r" && gameOver (gameStateRef w));
        [apply steady_reset, IH | exact IH].
  - exact IH.
  - unfold gameLoopR.
    destruct (negb (started (gameStateRef w))); [exact IH |].
    destruct (gameOver (gameStateRef w)); [exact IH |].
    destruct (levelTransition (gameStateRef w)).
    + cbn [gameStateRef]. apply steady_transition, IH.
    + unfold playingFrameR. cbn [gameStateRef]. apply steady_playing, IH.
Qed.

Lemma runR_reachable (evs : list Event) :
  forall w, reachableR fl w -> reachableR fl (runR fl evs w).
Proof.
  induction evs as [| ev evs IH]; intros w H; cbn [runR fold_left];
    [exact H |].
  apply IH. apply reachR_step. exact H.
Qed.

Lemma fold_damage (l : list Z) :
  Forall (fun d => (0 <= d <= 1)%Z) l ->
  (0 <= fold_right Z.add 0%Z l <= Z.of_nat (length l))%Z.
Proof.
  induction 1 as [| d l Hd _ IH]; cbn [fold_right length]; lia.
Qed.

(** In the bullet-enemy loop of a frame run from a state of a rounded run,
    every bullet takes at most one point of health from the pool. *)
Lemma bullet_pass_R (evs : list Event) (now : Z) :
  let w := runR fl evs initialWorld in
  (level (gameStateRef w) <= maxLevel)%Z ->
  let s1 := beforeHitR fl (gameStateRef (handleInput now w)) in
  Forall (fun d => (0 <= d <= 1)%Z) (bulletDamageR fl (bullets s1) s1) /\
  length (bulletDamageR fl (bullets s1) s1) = length (bullets s1) /\
  (totalHealth (enemies s1)
   - totalHealth (enemies (bulletEnemyCollisionR fl s1)))%Z
  = fold_right Z.add 0%Z (bulletDamageR fl (bullets s1) s1).
Proof.
  intros w HL s1.
  assert (HS : steady (gameStateRef w))
    by (apply reachableR_steady, runR_reachable, reachR_init).
  destruct (steady_midframe now w HS) as [M1 M2]. cbv zeta in M1, M2.
  fold s1 in M1, M2.
  destruct (bulletDamageR_bound (bullets s1) s1 (M2 HL) M1)
    as [D1 [D2 [D3 _]]].
  destruct (bulletEnemyCollisionR_session fl s1) as [_ [_ ->]].
  auto.
Qed.

(** Between two events of a rounded run, two active enemies are at least 58
    apart across or 50 apart down. *)
Lemma enemies_apart_R (evs : list Event) :
  let s := gameStateRef (runR fl evs initialWorld) in
  (level s <= maxLevel)%Z ->
  ForallOrdPairs
    (fun e1 e2 : Enemy =>
       active e1 = true -> active e2 = true ->
       (x e1 + 58 <= x e2 \/ x e2 + 58 <= x e1 \/
        y e1 + 50 <= y e2 \/ y e2 + 50 <= y e1) /\
       checkCollisionR fl e1 e2 = false /\ checkCollision e1 e2 = false)
    (enemies s).
Proof.
  intros s HL.
  assert (HS : steady s)
    by (apply reachableR_steady, runR_reachable, reachR_init).
  destruct HS as [_ [_ [_ [_ HM]]]].
  destruct (HM HL) as [g [G [H1 H2]]].
  apply (pairs_transfer (fun a a' : Enemy => a' = a)
           (fun a b => inMarch g 600 a /\ inMarch g 600 b /\
                       spaced (2 * advances g * eps) a b))
    with (l := enemies s).
  - intros a a' b b' -> -> [Ia [Ib Hs]] A1 A2.
    destruct (inMarch_bounds g 600 a G Ia A1) as [_ N]; [lra |].
    destruct (Ia A1) as [_ [_ [W1 [T1 [Y1 [Y1' [X1 [X1' _]]]]]]]].
    destruct (Ib A2) as [_ [_ [W2 [T2 [Y2 [Y2' [X2 [X2' _]]]]]]]].
    destruct G as [_ [_ [_ [_ [Hbn [Hn _]]]]]].
    specialize (Hs A1 A2).
    assert (K : x a + 58 <= x b \/ x b + 58 <= x a \/
                y a + 50 <= y b \/ y b + 50 <= y a).
    { unfold eps in Hs. destruct Hs as [Hs | [Hs | [Hs | Hs]]];
        [left | right; left | right; right; left | right; right; right];
        lra. }
    split; [exact K |]. split.
    + apply checkCollisionR_false. rewrite W1, T1, W2, T2.
      unfold reach, gridReach, maxSpeed, ENEMY_WIDTH, ENEMY_HEIGHT in *.
      destruct (fl_near (x a + 36)) as [P1 P2]; [unfold bigQ; lra.. |].
      destruct (fl_near (y a + 28)) as [P3 P4]; [unfold bigQ; lra.. |].
      destruct (fl_near (x b + 36)) as [P5 P6]; [unfold bigQ; lra.. |].
      destruct (fl_near (y b + 28)) as [P7 P8]; [unfold bigQ; lra.. |].
      unfold eps in *.
      destruct K as [K | [K | [K | K]]];
        [right; left | left | right; right; right | right; right; left]; lra.
    + apply checkCollision_false. rewrite W1, T1, W2, T2.
      unfold ENEMY_WIDTH, ENEMY_HEIGHT.
      destruct K as [K | [K | [K | K]]];
        [right; left | left | right; right; right | right; right; left]; lra.
  - clear. induction (enemies s); constructor; auto.
  - apply pairs_with_Forall; assumption.
Qed.

End RoundedMarch.

(** ** The exact frame is the frame without rounding *)

Lemma forColsR_exact (n : nat) (L row : Z) :
  forall col acc,
    forColsR noRounding n L row col acc = forCols n L row col acc.
Proof.
  induction n as [| n IH]; intros col acc; cbn [forColsR forCols];
    [reflexivity |].
  destruct (_ >=? _)%Z; [reflexivity | apply IH].
Qed.

Lemma forRowsR_exact (n : nat) (L : Z) :
  forall row acc, forRowsR noRounding n L row acc = forRows n L row acc.
Proof.
  induction n as [| n IH]; intros row acc; cbn [forRowsR forRows];
    [reflexivity |].
  rewrite forColsR_exact. apply IH.
Qed.

Lemma resetGameR_exact (s : GameState) : resetGameR noRounding s = resetGame s.
Proof.
  unfold resetGameR, resetGame, initWaveR, initWave, generateWaveR,
    generateWave.
  rewrite forRowsR_exact. reflexivity.
Qed.

Lemma advanceEnemiesR_exact (es : list Enemy) :
  forall h, advanceEnemiesR noRounding es h = advanceEnemies es h.
Proof.
  induction es as [| e rest IH]; intro h;
    cbn [advanceEnemiesR advanceEnemies]; [reflexivity |].
  change (advanceEnemyR noRounding e h) with (advanceEnemy e h).
  destruct (advanceEnemy e h) as [e' h']. rewrite IH. reflexivity.
Qed.

Lemma hitEnemiesR_exact (lvl : Z) (es : list Enemy) :
  forall h, hitEnemiesR noRounding lvl es h = hitEnemies lvl es h.
Proof.
  induction es as [| e rest IH]; intro h; cbn [hitEnemiesR hitEnemies];
    [reflexivity |].
  change (hitEnemyR noRounding lvl e h) with (hitEnemy lvl e h).
  destruct (hitEnemy lvl e h) as [e' h']. rewrite IH. reflexivity.
Qed.

Lemma hitBulletsR_exact (bs : list Bullet) :
  forall s, hitBulletsR noRounding bs s = hitBullets bs s.
Proof.
  induction bs as [| b rest IH]; intro s; cbn [hitBulletsR hitBullets];
    [reflexivity |].
  destruct (negb (bulletActive b)); [rewrite IH; reflexivity |].
  rewrite hitEnemiesR_exact. destruct (hitEnemies _ _ _) as [es h].
  rewrite IH. reflexivity.
Qed.

Lemma crashEnemiesR_exact (p : Entity) (es : list Enemy) :
  forall c, crashEnemiesR noRounding p es c = crashEnemies p es c.
Proof.
  induction es as [| e rest IH]; intro c; cbn [crashEnemiesR crashEnemies];
    [reflexivity |].
  change (crashEnemyR noRounding p e c) with (crashEnemy p e c).
  destruct (crashEnemy p e c) as [e' c']. rewrite IH. reflexivity.
Qed.

Lemma simulateR_exact (s : GameState) : simulateR noRounding s = simulate s.
Proof.
  assert (E1 : forall t, updateEnemiesR noRounding t = updateEnemies t).
  { intro t. unfold updateEnemiesR, updateEnemies.
    rewrite advanceEnemiesR_exact. reflexivity. }
  assert (E2 : forall t,
             bulletEnemyCollisionR noRounding t = bulletEnemyCollision t).
  { intro t. unfold bulletEnemyCollisionR, bulletEnemyCollision.
    rewrite hitBulletsR_exact. reflexivity. }
  assert (E3 : forall t,
             playerEnemyCollisionR noRounding t = playerEnemyCollision t).
  { intro t. unfold playerEnemyCollisionR, playerEnemyCollision.
    rewrite crashEnemiesR_exact. reflexivity. }
  unfold simulateR, simulate, beforeHitR.
  rewrite E1, E2, E3. reflexivity.
Qed.

Lemma stepR_exact (w : World) (ev : Event) : stepR noRounding w ev = step w ev.
Proof.
  destruct ev as [key | key | now]; cbn [stepR step]; [| reflexivity |].
  - unfold handleKeyDownR, handleKeyDown. cbv zeta.
    rewrite !resetGameR_exact. reflexivity.
  - unfold gameLoopR, gameLoop, playingFrameR, playingFrame,
      levelTransitionFrameR, levelTransitionFrame, initWaveR, initWave,
      generateWaveR, generateWave.
    cbv zeta. rewrite simulateR_exact, forRowsR_exact. reflexivity.
Qed.

(** With the identity for the rounding, a run of the rounded frame is the
    run of the exact frame. *)
Lemma runR_exact (evs : list Event) :
  forall w, runR noRounding evs w = run evs w.
Proof.
  induction evs as [| ev evs IH]; intro w; cbn [runR run fold_left];
    [reflexivity |].
  rewrite stepR_exact. apply IH.
Qed.

(** ** Runs in double precision *)

(** Two frames into a game the first two enemies of the top row, generated
    60 apart, are 59.99999999999994... apart in doubles; in exact
    arithmetic they still are 60 apart. *)
Lemma double_run_drifts :
  let es := enemies (gameStateRef (runD (firstShots 2) initialWorld)) in
  let es' := enemies (gameStateRef (run (firstShots 2) initialWorld)) in
  map (fun e : Enemy => x e) (firstn 2 es) =
    [4262586678561997 # 17592186044416; 1329529460306739 # 4398046511104] /\
  map (fun e : Enemy => Qred (x e)) (firstn 2 es') = [2423 # 10; 3023 # 10].
Proof. vm_compute. split; reflexivity. Qed.



(** X15: in a frame run in double precision from any state that a game
    reaches up to level 100000000, each bullet takes 0 or 1 point of health
    from the whole pool in its turn of the bullet-enemy loop, so the loop
    takes at most as many points as there are bullets. *)
Theorem one_hit_per_bullet (evs : list Event) (now : Z) :
  let w := runD evs initialWorld in
  (level (gameStateRef w) <= 100000000)%Z ->
  let s1 := beforeHitR roundDouble (gameStateRef (handleInput now w)) in
  Forall (fun d => (0 <= d <= 1)%Z)
         (bulletDamageR roundDouble (bullets s1) s1) /\
  length (bulletDamageR roundDouble (bullets s1) s1) = length (bullets s1) /\
  (totalHealth (enemies s1)
   - totalHealth (enemies (bulletEnemyCollisionR roundDouble s1)))%Z
    = fold_right Z.add 0%Z (bulletDamageR roundDouble (bullets s1) s1) /\
  (totalHealth (enemies s1)
   - totalHealth (enemies (bulletEnemyCollisionR roundDouble s1))
   <= Z.of_nat (length (bullets s1)))%Z.
Proof.
  intros w HL s1.
  destruct (bullet_pass_R roundDouble roundDouble_nearly evs now HL)
    as [D1 [D2 D3]].
  subst s1 w. unfold runD in *.
  repeat split; auto.
  rewrite D3, <- D2. apply fold_damage. exact D1.
Qed.

Lemma one_hit_per_bullet_witness :
  let w := runD (firstShots 42) initialWorld in
  let s1 := beforeHitR roundDouble (gameStateRef (handleInput 1672 w)) in
  (level (gameStateRef w) <= 100000000)%Z /\
  length (bullets s1) = 5%nat /\
  (totalHealth (enemies s1)
   - totalHealth (enemies (bulletEnemyCollisionR roundDouble s1)) <= 5)%Z.
Proof.
  intros w s1.
  assert (HL : (level (gameStateRef w) <= 100000000)%Z)
    by (vm_compute; discriminate).
  assert (E : length (bullets s1) = 5%nat) by (vm_compute; reflexivity).
  split; [exact HL |]. split; [exact E |].
  pose proof (proj2 (proj2 (proj2 (one_hit_per_bullet (firstShots 42) 1672 HL))))
    as K.
  cbv zeta in K. fold w in K. fold s1 in K. rewrite E in K. exact K.
Defined.

(** X16: in every state that a game run in double precision reaches up to
    level 100000000, no two active enemies overlap: they are at least 58
    apart across or 50 apart down, and neither the rounded nor the exact
    collision test holds of them. *)
Theorem active_enemies_never_overlap (evs : list Event) :
  let s := gameStateRef (runD evs initialWorld) in
  (level s <= 100000000)%Z ->
  ForallOrdPairs
    (fun e1 e2 : Enemy =>
       active e1 = true -> active e2 = true ->
       (x e1 + 58 <= x e2 \/ x e2 + 58 <= x e1 \/
        y e1 + 50 <= y e2 \/ y e2 + 50 <= y e1) /\
       checkCollisionR roundDouble e1 e2 = false /\
       checkCollision e1 e2 = false)
    (enemies s).
Proof.
  intros s HL.
  exact (enemies_apart_R roundDouble roundDouble_nearly evs HL).
Qed.

Lemma active_enemies_never_overlap_witness :
  let s := gameStateRef (runD (firstShots 2) initialWorld) in
  (level s <= 100000000)%Z /\ length (enemies s) = 5%nat /\
  ForallOrdPairs
    (fun e1 e2 : Enemy =>
       active e1 = true -> active e2 = true ->
       (x e1 + 58 <= x e2 \/ x e2 + 58 <= x e1 \/
        y e1 + 50 <= y e2 \/ y e2 + 50 <= y e1) /\
       checkCollisionR roundDouble e1 e2 = false /\
       checkCollision e1 e2 = false)
    (enemies s).
Proof.
  intro s.
  assert (HL : (level s <= 100000000)%Z) by (vm_compute; discriminate).
  split; [exact HL |]. split; [vm_compute; reflexivity |].
  exact (active_enemies_never_overlap (firstShots 2) HL).
Defined.
